(** * Beringei client: the sequential read path, the fan-out write API,
      the write worker, the retry worker, the writer-thread bookkeeping,
      the read services and the set-up

    Shallow embedding of [beringei/client/BeringeiClientImpl.cpp].

    Conventions of the embedding.
    - A C++ reference or pointer parameter becomes a value threaded through
      the function: the function takes the old value and returns the new one.
    - The collaborators whose code lives elsewhere (the network client, the
      batching write queue) are interfaces: type classes whose methods take
      and return the collaborator's state.
    - [GorillaStatsManager::addStatValue] and [LOG(..)] append to two logs
      kept in the [World]; [time], [sleep] and [usleep] read and advance a
      logical clock kept there too, and a put of the network client is given
      the reading of this clock at the call.
    - A worker thread is its loop, run with fuel; [None] means that the loop
      has not ended: it blocks on its queue, or the fuel ran out.
      [thread.join()] runs the joined thread to its end, the threads one
      after the other in the order of the joins; a call that joins a thread
      which does not end is [Waits], not a return.
    - [CHECK(false)] aborts the process: the read path returns [None]
      (in [getWithClient]) or [Aborted] (in [get]).
    - The collaborators are assumed not to throw, but for the construction
      of a network client, whose exception the set-up catches or lets
      through; [get] lets it through to its caller.
    - Integers are [Z] or [nat]; where the C++ code compares or stores a
      value in an unsigned type the wrap-around is written out. The sizes of
      vectors are taken to fit the [int] variables they are copied to.

    Left out: the futures path ([futureGet], [futureScanShard] and their
    contexts), which runs concurrently on executors; the calls that only
    pass their arguments on to the first read client ([scanShard],
    [getLastUpdateTimes], [stopRequests]) or read one member. *)

From stdpp Require Import gmap strings list.

Open Scope Z_scope.

(** ** Thrift data model *)

Record Key := mkKey { key : string; shardId : Z }.

Record TimeValuePair := mkTimeValuePair { unixTime : Z; value : Z }.

Record DataPoint := mkDataPoint { dp_key : Key; dp_value : TimeValuePair }.

Inductive StatusCode :=
| OK
| DONT_OWN_SHARD
| KEY_MISSING
| RPC_FAIL
| SHARD_IN_PROGRESS
| BUCKET_NOT_FINALIZED
| ZIPPY_STORAGE_FAIL
| MISSING_TOO_MUCH_DATA.

Record TimeSeriesBlock := mkBlock { compression : Z; count : Z; data_bytes : string }.

Record TimeSeriesData := mkTimeSeriesData { data : list TimeSeriesBlock; status : StatusCode }.

Record GetDataRequest := mkGetDataRequest { keys : list Key; begin_ : Z; end_ : Z }.

Record GetDataResult := mkGetDataResult { results : list TimeSeriesData }.

#[global] Instance Key_eq_dec : EqDecision Key.
Proof. solve_decision. Defined.

#[global] Instance StatusCode_eq_dec : EqDecision StatusCode.
Proof. solve_decision. Defined.

(** [std::vector::empty]. *)
Definition vec_empty {A : Type} (v : list A) : bool :=
  match v with [] => true | _ :: _ => false end.

(** A host is a (name, port) pair. The request maps are keyed by host; they
    are kept as the list of their entries in the order the C++ range-for
    visits them. *)
Definition Host : Type := string * Z.

Definition GetRequestMap : Type := list (Host * (GetDataRequest * GetDataResult)).

Definition PutRequestMap : Type := list (Host * list DataPoint).

(** ** Statistics, logging and the clock *)

Inductive StatValue :=
| Count (v : Z)
| Elapsed.          (* a [Timer] reading; the model does not determine it *)

Inductive LogLine :=
| LogEmptyRequest
| LogMismatch (requestKeys resultSize : nat)
| LogRedirectRetry
| LogRedirectDisallowed (nonzeroData : bool)
| LogRetryingOther (service : string)
| LogWriterShutdown
| LogRetryShutdown
| LogDropping (dropped : Z) (service : string) (msg : string).

Record World := mkWorld {
  stats : list (string * StatValue);
  logs : list LogLine;
  clock_us : Z
}.

Definition addStatValue (k : string) (v : Z) (w : World) : World :=
  mkWorld (stats w ++ [(k, Count v)]) (logs w) (clock_us w).

Definition addStatTimer (k : string) (w : World) : World :=
  mkWorld (stats w ++ [(k, Elapsed)]) (logs w) (clock_us w).

Definition LOG (l : LogLine) (w : World) : World :=
  mkWorld (stats w) (logs w ++ [l]) (clock_us w).

(** [time(nullptr)]: whole seconds of the clock. *)
Definition time (w : World) : Z := clock_us w / 1000000.

Definition sleep (secs : Z) (w : World) : World :=
  mkWorld (stats w) (logs w) (clock_us w + secs * 1000000).

Definition usleep (us : Z) (w : World) : World :=
  mkWorld (stats w) (logs w) (clock_us w + us).

(** ** Flags and constants *)

Record Flags := mkFlags {
  gorilla_min_queue_size : Z;
  gorilla_sleep_per_put_us : Z;
  gorilla_retry_queue_capacity : Z;
  gorilla_retry_delay_secs : Z;
  gorilla_write_retry_threads : nat
}.

Definition defaultFlags : Flags := mkFlags 100 100000 10000 55 4.

Definition kEnqueueDroppedKey : string := "gorilla_client.enqueue_dropped.".
Definition kEnqueuedKey : string := "gorilla_client.enqueued.".
Definition kPutDroppedKey : string := "gorilla_client.put_dropped.".
Definition kPutKey : string := "gorilla_client.put.".
Definition kQueueSizeKey : string := "gorilla_client.queue_size.".
Definition kUsPerPut : string := "gorilla_client.us_per_put.".
Definition kPutRetryKey : string := "gorilla_client.put_retry.".
Definition kReadFailover : string := "gorilla_client.read_failover".
Definition kRetryQueueWriteFailures : string := "gorilla_client.retry_queue_write_failures".
Definition kRetryQueueSizeKey : string := "gorilla_client.retry_queue_size".
Definition kRedirectForMissingData : string := "gorilla_client.redirect_for_missing_data".

Definition kRetryThresholdSecs : Z := 30.
Definition kRetryQueueCapacitySizeRatio : Z := 100.
Definition kMinQueueSize : Z := 10.
Definition kMaxRetryBatchSize : Z := 10000.

(** ** Collaborator interfaces *)

(** [BeringeiNetworkClient]. Every method may change the client (shard
    cache, connections), so every method returns the client too.
    [addDataPointToRequest] returns its [bool] result and the [dropped]
    out-parameter. [performPut] sends over the network: what it does may
    depend on when it is called, so it is given the reading of the clock
    (in microseconds) at the call. *)
Class BeringeiNetworkClient (C : Type) := {
  getServiceName : C → string;
  addKeyToGetRequest : Key → GetRequestMap → C → GetRequestMap * C;
  performGet : GetRequestMap → C → GetRequestMap * C;
  invalidateCache : gset Z → C → C;
  addDataPointToRequest :
    DataPoint → PutRequestMap → C → (bool * bool * PutRequestMap) * C;
  performPut : PutRequestMap → Z → C → list DataPoint * C
}.

(** The write queue of a [WriteClient]. [push] takes the vector by
    reference and may move from it: it returns what is left in the vector.
    [pop] runs the visitor on the drained points and returns
    (keep running, number of points); it blocks on an empty queue, which
    is [None] here. *)
Class RequestBatchingQueue (Q : Type) := {
  push : list DataPoint → Q → (bool * list DataPoint) * Q;
  pop : ∀ {S : Type}, (DataPoint → S → bool * S) → S → Q → option ((bool * Z) * S * Q);
  flush : nat → Q → Q;
  q_size : Q → Z
}.

Record WriteClient (C Q : Type) := mkWriteClient { client : C; queue : Q }.
Arguments mkWriteClient {C Q}.
Arguments client {C Q}.
Arguments queue {C Q}.

(** [folly::MPMCQueue<RetryOperation>]: a bounded FIFO. [write] does not
    block and reports whether there was room. *)
Record RetryOperation := mkRetryOperation {
  op_client : nat;                (* the write client the pointer refers to *)
  dataPoints : list DataPoint;
  retryTimeSecs : Z
}.

Record MPMCQueue := mkMPMCQueue { capacity : nat; items : list RetryOperation }.

Definition mpmc_write (op : RetryOperation) (q : MPMCQueue) : bool * MPMCQueue :=
  if decide (length (items q) < capacity q)%nat
  then (true, mkMPMCQueue (capacity q) (items q ++ [op]))
  else (false, q).

Definition mpmc_blockingRead (q : MPMCQueue) : option (RetryOperation * MPMCQueue) :=
  match items q with
  | [] => None
  | op :: rest => Some (op, mkMPMCQueue (capacity q) rest)
  end.

(** ** The client object *)

(** The members of [BeringeiClientImpl] that the write path and the thread
    bookkeeping use. The members that the read services use are in
    [ReadServices] below; [throwExceptionOnTransientFailure_] is an argument
    of [get]. A [std::thread] is kept as what it runs. *)
Inductive Thread :=
| WriterThread (writeClient : nat)
| RetryThread.

Record BeringeiClientImpl (C Q : Type) := mkImpl {
  writeClients_ : list (WriteClient C Q);
  writers_ : list Thread;
  retryWriters_ : list Thread;
  retryQueue_ : MPMCQueue;
  numRetryQueuedDataPoints_ : Z;
  world : World
}.
Arguments mkImpl {C Q}.
Arguments writeClients_ {C Q}.
Arguments writers_ {C Q}.
Arguments retryWriters_ {C Q}.
Arguments retryQueue_ {C Q}.
Arguments numRetryQueuedDataPoints_ {C Q}.
Arguments world {C Q}.

(** ** putDataPoints *)

Section Put.
Context {C Q : Type} `{!BeringeiNetworkClient C} `{!RequestBatchingQueue Q}.

(** One turn of the loop over [writeClients_], at index [i] of [n]. *)
Definition putOne (numPoints : Z) (n i : nat) (wc : WriteClient C Q)
    (values : list DataPoint) (allPushedToAnyScope : bool) (w : World)
  : WriteClient C Q * list DataPoint * bool * World :=
  let '(success, values', q') :=
    if decide (i < n - 1)%nat
    then let '(s, _, q') := push values (queue wc) in (s, values, q')
    else push values (queue wc) in
  let queueSize := q_size q' in
  let service := getServiceName (client wc) in
  let w1 :=
    if success
    then addStatValue (String.append kEnqueuedKey service) numPoints w
    else addStatValue (String.append kEnqueueDroppedKey service) numPoints w in
  let w2 := addStatValue (String.append kQueueSizeKey service) queueSize w1 in
  (mkWriteClient (client wc) q', values',
   if success then true else allPushedToAnyScope, w2).

(** The loop, on the write clients from index [i] on. *)
Fixpoint putLoop (numPoints : Z) (n i : nat) (wcs : list (WriteClient C Q))
    (values : list DataPoint) (allPushedToAnyScope : bool) (w : World)
  : list (WriteClient C Q) * list DataPoint * bool * World :=
  match wcs with
  | [] => ([], values, allPushedToAnyScope, w)
  | wc :: rest =>
      let '(wc', values', all', w') := putOne numPoints n i wc values allPushedToAnyScope w in
      let '(rest', values'', all'', w'') := putLoop numPoints n (S i) rest values' all' w' in
      (wc' :: rest', values'', all'', w'')
  end.

(** Returns the result, what is left in [values], and the client. *)
Definition putDataPoints (values : list DataPoint) (st : BeringeiClientImpl C Q)
  : bool * list DataPoint * BeringeiClientImpl C Q :=
  let numPoints := Z.of_nat (length values) in
  if decide (numPoints = 0) then
    (true, values,
     mkImpl (writeClients_ st) (writers_ st) (retryWriters_ st) (retryQueue_ st)
       (numRetryQueuedDataPoints_ st) (LOG LogEmptyRequest (world st)))
  else
    let '(wcs, values', all, w) :=
      putLoop numPoints (length (writeClients_ st)) 0 (writeClients_ st)
        values false (world st) in
    (all, values',
     mkImpl wcs (writers_ st) (retryWriters_ st) (retryQueue_ st)
       (numRetryQueuedDataPoints_ st) w).
End Put.

(** ** Writer threads: start *)

(** Division of two [size_t]: undefined for a zero divisor. *)
Definition size_t_div (a b : nat) : option nat :=
  if decide (b = 0)%nat then None else Some (a / b)%nat.

(** The default-constructed [RetryOperation] that stops a retry thread: its
    point vector is empty (the other two fields are indeterminate in C++;
    nothing reads them). *)
Definition shutdownOperation : RetryOperation := mkRetryOperation 0 [] 0.

Section Threads.
Context {C Q : Type} `{!BeringeiNetworkClient C} `{!RequestBatchingQueue Q}.

Definition startWriterThreads (flags : Flags) (numWriterThreads : Z)
    (st : BeringeiClientImpl C Q) : BeringeiClientImpl C Q :=
  if decide (numWriterThreads > 0) then
    let started :=
      flat_map (λ j, replicate (Z.to_nat numWriterThreads) (WriterThread j))
        (seq 0 (length (writeClients_ st))) in
    mkImpl (writeClients_ st) (writers_ st ++ started)
      (retryWriters_ st ++ replicate (gorilla_write_retry_threads flags) RetryThread)
      (retryQueue_ st) (numRetryQueuedDataPoints_ st) (world st)
  else st.
End Threads.

(** ** The write worker and the retry worker *)

Section Workers.
Context {C Q : Type} `{!BeringeiNetworkClient C} `{!RequestBatchingQueue Q}.

Definition logDroppedDataPoints (c : C) (dropped : Z) (msg : string) (w : World)
  : World :=
  let dropped32 := dropped `mod` 2 ^ 32 in
  addStatValue (String.append kPutDroppedKey (getServiceName c)) dropped32
    (LOG (LogDropping dropped32 (getServiceName c) msg) w).

Definition putWithStats (c : C) (points : Z) (requestMap : PutRequestMap) (w : World)
  : list DataPoint * C * World :=
  let '(dropped, c') := performPut requestMap (clock_us w) c in
  let w1 := addStatTimer (String.append kUsPerPut (getServiceName c')) w in
  let w2 := addStatValue (String.append kPutKey (getServiceName c'))
              (points - Z.of_nat (length dropped)) w1 in
  (dropped, c', w2).

(** The visitor handed to [queue.pop]; it captures the client, [requests]
    and [droppedDataPoints] by reference. *)
Definition popVisitor (dp : DataPoint) (s : C * PutRequestMap * list DataPoint)
  : bool * (C * PutRequestMap * list DataPoint) :=
  let '(c, requests, droppedDataPoints) := s in
  let '(ok, dropped, requests', c') := addDataPointToRequest dp requests c in
  let addMorePoints := ok in
  let droppedDataPoints' :=
    if dropped then droppedDataPoints ++ [dp] else droppedDataPoints in
  (addMorePoints && bool_decide (Z.of_nat (length droppedDataPoints') < kMaxRetryBatchSize),
   (c', requests', droppedDataPoints')).

(** The block that hands the dropped points to the retry queue. The
    capacity comparison is done in [size_t]. *)
Definition enqueueRetry (flags : Flags) (idx : nat) (c : C)
    (droppedDataPoints : list DataPoint) (rq : MPMCQueue) (num : Z) (w : World)
  : MPMCQueue * Z * World :=
  let droppedCount := Z.of_nat (length droppedDataPoints) in
  let op := mkRetryOperation idx droppedDataPoints
              (time w + gorilla_retry_delay_secs flags) in
  let refuse :=
    addStatValue kRetryQueueWriteFailures 1
      (logDroppedDataPoints c droppedCount "retry queue is full" w) in
  if decide ((num + droppedCount) `mod` 2 ^ 64
               >= gorilla_retry_queue_capacity flags `mod` 2 ^ 64)
  then (rq, num, refuse)
  else
    let '(written, rq') := mpmc_write op rq in
    if written then
      let num' := num + droppedCount in
      (rq', num',
       addStatValue kRetryQueueSizeKey num'
         (addStatValue (String.append kPutRetryKey (getServiceName c)) droppedCount w))
    else (rq', num, refuse).

(** One turn of the [while (keepWriting)] loop of [writeDataPointsForever]
    for the write client at index [idx]. Returns [keepWriting]. [None]: the
    pop blocks on an empty queue (or [idx] names no write client). *)
Definition writeIteration (flags : Flags) (idx : nat) (st : BeringeiClientImpl C Q)
  : option (bool * BeringeiClientImpl C Q) :=
  wc ← writeClients_ st !! idx;
  match pop popVisitor (client wc, [], []) (queue wc) with
  | None => None
  | Some (points_first, points_second, (c1, requests, droppedDataPoints), q1) =>
    let w1 := if points_first then world st else LOG LogWriterShutdown (world st) in
    let keepWriting := points_first in
    if decide (points_second = 0) then
      Some (keepWriting,
            mkImpl (<[idx := mkWriteClient c1 q1]> (writeClients_ st)) (writers_ st)
              (retryWriters_ st) (retryQueue_ st) (numRetryQueuedDataPoints_ st) w1)
    else
      let '(dropped, c2, w2) := putWithStats c1 points_second requests w1 in
      let droppedDataPoints' := droppedDataPoints ++ dropped in
      let '(rq, num, w3) :=
        if decide (0 < length droppedDataPoints')%nat
        then enqueueRetry flags idx c2 droppedDataPoints' (retryQueue_ st)
               (numRetryQueuedDataPoints_ st) w2
        else (retryQueue_ st, numRetryQueuedDataPoints_ st, w2) in
      let queueSize := q_size q1 in
      let w4 := addStatValue (String.append kQueueSizeKey (getServiceName c2)) queueSize w3 in
      let w5 := if decide (queueSize < gorilla_min_queue_size flags `mod` 2 ^ 64)
                then usleep (gorilla_sleep_per_put_us flags) w4 else w4 in
      Some (keepWriting,
            mkImpl (<[idx := mkWriteClient c2 q1]> (writeClients_ st)) (writers_ st)
              (retryWriters_ st) rq num w5)
  end.

(** [writeDataPointsForever]: the turns until [keepWriting] is false. [None]
    when a pop blocks, or when the fuel runs out first. *)
Fixpoint writeDataPointsForever (fuel : nat) (flags : Flags) (idx : nat)
    (st : BeringeiClientImpl C Q) : option (BeringeiClientImpl C Q) :=
  match fuel with
  | O => None
  | S fuel' =>
      '(keepWriting, st') ← writeIteration flags idx st;
      if keepWriting : bool then writeDataPointsForever fuel' flags idx st' else Some st'
  end.

(** The request-building loop of [retryThread]. *)
Fixpoint buildRetryRequest (dps : list DataPoint) (c : C) (requestMap : PutRequestMap)
    (totalDropped : Z) : C * PutRequestMap * Z :=
  match dps with
  | [] => (c, requestMap, totalDropped)
  | dp :: rest =>
      let '(_, dropped, requestMap', c') := addDataPointToRequest dp requestMap c in
      buildRetryRequest rest c' requestMap'
        (if dropped then (totalDropped + 1) `mod` 2 ^ 32 else totalDropped)
  end.

(** One turn of the [while (true)] loop of [retryThread]. Returns whether
    the loop goes on. [None]: [blockingRead] blocks on an empty queue (or
    the operation names no write client). *)
Definition retryIteration (st : BeringeiClientImpl C Q)
  : option (bool * BeringeiClientImpl C Q) :=
  '(op, rq) ← mpmc_blockingRead (retryQueue_ st);
  let num := numRetryQueuedDataPoints_ st - Z.of_nat (length (dataPoints op)) in
  let w1 := addStatValue kRetryQueueSizeKey num (world st) in
  if vec_empty (dataPoints op) then
    Some (false,
          mkImpl (writeClients_ st) (writers_ st) (retryWriters_ st) rq num
            (LOG LogRetryShutdown w1))
  else
    wc ← writeClients_ st !! op_client op;
    if decide (retryTimeSecs op < time w1 - kRetryThresholdSecs) then
      Some (true,
            mkImpl (writeClients_ st) (writers_ st) (retryWriters_ st) rq num
              (logDroppedDataPoints (client wc) (Z.of_nat (length (dataPoints op)))
                 "data points are too old" w1))
    else
      let w2 := if decide (retryTimeSecs op > time w1)
                then sleep (retryTimeSecs op - time w1) w1 else w1 in
      let '(c1, requestMap, totalDropped) :=
        buildRetryRequest (dataPoints op) (client wc) [] 0 in
      let '(dropped, c2, w3) :=
        putWithStats c1 (Z.of_nat (length (dataPoints op)) - totalDropped) requestMap w2 in
      let totalDropped' := (totalDropped + Z.of_nat (length dropped)) `mod` 2 ^ 32 in
      let w4 := if decide (totalDropped' > 0)
                then logDroppedDataPoints c2 totalDropped' "retry send failed" w3
                else w3 in
      Some (true,
            mkImpl (<[op_client op := mkWriteClient c2 (queue wc)]> (writeClients_ st))
              (writers_ st) (retryWriters_ st) rq num w4).

(** [retryThread]: the turns until the shutdown operation is read. [None]
    when a read blocks, or when the fuel runs out first. *)
Fixpoint retryThread (fuel : nat) (st : BeringeiClientImpl C Q)
  : option (BeringeiClientImpl C Q) :=
  match fuel with
  | O => None
  | S fuel' =>
      '(goOn, st') ← retryIteration st;
      if goOn : bool then retryThread fuel' st' else Some st'
  end.
End Workers.

(** ** Writer threads: stop, flush *)

(** How a call that joins threads ends: it returns, or it waits for a thread
    that does not end. *)
Inductive Joined (T : Type) :=
| Returns (v : T)
| Waits.
Arguments Returns {T}.
Arguments Waits {T}.

Section Stop.
Context {C Q : Type} `{!BeringeiNetworkClient C} `{!RequestBatchingQueue Q}.

(** [for (auto& thread : writers_) thread.join()]. A join returns when the
    thread has ended. The threads are taken to run when they are joined, each
    to its end, in the order of the joins. [None]: one of them does not end,
    because its pop or read blocks (nobody pushes while the caller waits) or
    because the fuel runs out first. *)
Fixpoint joinWriterThreads (fuel : nat) (flags : Flags) (threads : list Thread)
    (st : BeringeiClientImpl C Q) : option (BeringeiClientImpl C Q) :=
  match threads with
  | [] => Some st
  | WriterThread idx :: rest =>
      st' ← writeDataPointsForever fuel flags idx st;
      joinWriterThreads fuel flags rest st'
  | RetryThread :: rest =>
      st' ← retryThread fuel st;
      joinWriterThreads fuel flags rest st'
  end.

(** [for (auto& thread : retryWriters_) thread.join()]: the threads of
    [retryWriters_] run [retryThread]. *)
Fixpoint joinRetryThreads (fuel : nat) (threads : list Thread)
    (st : BeringeiClientImpl C Q) : option (BeringeiClientImpl C Q) :=
  match threads with
  | [] => Some st
  | _ :: rest => st' ← retryThread fuel st; joinRetryThreads fuel rest st'
  end.

(** The first half of [stopWriterThreads], "Terminate all the writer
    threads": every write queue is flushed with the number of writer threads
    per write client, the writer threads are joined, the list is cleared.
    [None] where the division is undefined. *)
Definition stopWriters (fuel : nat) (flags : Flags) (st : BeringeiClientImpl C Q)
  : option (Joined (BeringeiClientImpl C Q)) :=
  wcs ← (if decide (length (writeClients_ st) ≠ 0)%nat then
           writerThreadsPerClient ←
             size_t_div (length (writers_ st)) (length (writeClients_ st));
           Some ((λ wc, mkWriteClient (client wc)
                          (flush writerThreadsPerClient (queue wc)))
                   <$> writeClients_ st)
         else Some (writeClients_ st));
  let st1 := mkImpl wcs (writers_ st) (retryWriters_ st) (retryQueue_ st)
               (numRetryQueuedDataPoints_ st) (world st) in
  match joinWriterThreads fuel flags (writers_ st1) st1 with
  | None => Some Waits
  | Some st2 =>
      Some (Returns (mkImpl (writeClients_ st2) [] (retryWriters_ st2) (retryQueue_ st2)
                       (numRetryQueuedDataPoints_ st2) (world st2)))
  end.

(** [for (auto& thread : retryWriters_) retryQueue_.write(RetryOperation())]:
    the write does not block and its result is not looked at. *)
Definition writeShutdownOperations (threads : list Thread) (rq : MPMCQueue) : MPMCQueue :=
  foldl (λ q _, (mpmc_write shutdownOperation q).2) rq threads.

(** The second half of [stopWriterThreads]: a shutdown operation is written
    for every retry thread, the retry threads are joined, the list is
    cleared. *)
Definition stopRetryWriters (fuel : nat) (st : BeringeiClientImpl C Q)
  : Joined (BeringeiClientImpl C Q) :=
  let st1 := mkImpl (writeClients_ st) (writers_ st) (retryWriters_ st)
               (writeShutdownOperations (retryWriters_ st) (retryQueue_ st))
               (numRetryQueuedDataPoints_ st) (world st) in
  match joinRetryThreads fuel (retryWriters_ st1) st1 with
  | None => Waits
  | Some st2 =>
      Returns (mkImpl (writeClients_ st2) (writers_ st2) [] (retryQueue_ st2)
                 (numRetryQueuedDataPoints_ st2) (world st2))
  end.

(** [stopWriterThreads]: the writer threads, then the retry threads. *)
Definition stopWriterThreads (fuel : nat) (flags : Flags) (st : BeringeiClientImpl C Q)
  : option (Joined (BeringeiClientImpl C Q)) :=
  r ← stopWriters fuel flags st;
  Some (match r with
        | Returns st1 => stopRetryWriters fuel st1
        | Waits => Waits
        end).

(** [flushQueue]: the number of writer threads per write client (an unguarded
    division, [None] where it is undefined), [stopWriterThreads], then
    [startWriterThreads] with that number. *)
Definition flushQueue (fuel : nat) (flags : Flags) (st : BeringeiClientImpl C Q)
  : option (Joined (BeringeiClientImpl C Q)) :=
  writerThreadsPerClient ←
    size_t_div (length (writers_ st)) (length (writeClients_ st));
  r ← stopWriterThreads fuel flags st;
  Some (match r with
        | Returns st' =>
            Returns (startWriterThreads flags (Z.of_nat writerThreadsPerClient) st')
        | Waits => Waits
        end).
End Stop.

(** ** The sequential read path *)

(** The key vectors that live in the frame of [get] and are handed to
    [getWithClient] by reference or by pointer. Two pointer parameters of
    [getWithClient] may name the same vector. *)
Inductive VecRef := RequestKeys | FailedKeys | PartialKeys.

Record KeyVectors := mkKeyVectors {
  request_keys : list Key;
  failedKeys : list Key;
  partialKeys : list Key
}.

Definition push_back (r : VecRef) (k : Key) (v : KeyVectors) : KeyVectors :=
  match r with
  | RequestKeys => mkKeyVectors (request_keys v ++ [k]) (failedKeys v) (partialKeys v)
  | FailedKeys => mkKeyVectors (request_keys v) (failedKeys v ++ [k]) (partialKeys v)
  | PartialKeys => mkKeyVectors (request_keys v) (failedKeys v) (partialKeys v ++ [k])
  end.

(** One call of [performGet], as seen from outside: the service called, the
    keys of the request [getWithClient] was given, and the request map after
    the call (the per-host requests with their results). *)
Record GetCall := mkGetCall {
  call_service : string;
  call_keys : list Key;
  call_requests : GetRequestMap
}.

(** What [getWithClient] and [get] work on: the caller's result, the key
    vectors, the statistics and log, and the calls made so far. The calls
    are kept for the statements only; no code reads them. *)
Record ReadState := mkReadState {
  result : GetDataResult;
  vecs : KeyVectors;
  rworld : World;
  calls : list GetCall
}.

Definition with_world (f : World → World) (s : ReadState) : ReadState :=
  mkReadState (result s) (vecs s) (f (rworld s)) (calls s).

Definition push_key (r : VecRef) (k : Key) (s : ReadState) : ReadState :=
  mkReadState (result s) (push_back r k (vecs s)) (rworld s) (calls s).

(** [result.results.push_back(res.results[i]); foundKeys.push_back(req.keys[i])] *)
Definition accept (foundKeys : VecRef) (k : Key) (r : TimeSeriesData) (s : ReadState)
  : ReadState :=
  mkReadState (mkGetDataResult (results (result s) ++ [r]))
    (push_back foundKeys k (vecs s)) (rworld s) (calls s).

(** The body of the [switch] on [res.results[i].status]. [None] is
    [CHECK(false)]. *)
Definition classify (foundKeys failedKeys : VecRef)
    (inProgressKeys partialDataKeys : option VecRef)
    (k : Key) (r : TimeSeriesData) (s : ReadState) : option ReadState :=
  match status r with
  | OK => Some (accept foundKeys k r s)
  | KEY_MISSING => Some s
  | RPC_FAIL | ZIPPY_STORAGE_FAIL | DONT_OWN_SHARD => Some (push_key failedKeys k s)
  | SHARD_IN_PROGRESS =>
      match inProgressKeys with
      | Some p => Some (push_key p k s)
      | None =>
          if decide (0 < length (data r))%nat
          then Some (accept foundKeys k r s) else Some s
      end
  | MISSING_TOO_MUCH_DATA =>
      let s1 := with_world (addStatValue kRedirectForMissingData 1) s in
      match partialDataKeys with
      | Some p => Some (push_key p k (with_world (LOG LogRedirectRetry) s1))
      | None =>
          let s2 :=
            with_world
              (LOG (LogRedirectDisallowed (bool_decide (0 < length (data r))%nat))) s1 in
          if decide (0 < length (data r))%nat
          then Some (accept foundKeys k r s2) else Some s2
      end
  | BUCKET_NOT_FINALIZED => None
  end.

(** The loop over [i < min(res.results.size(), req.keys.size())], on the
    pairs [(req.keys[i], res.results[i])]. *)
Fixpoint processResults (foundKeys failedKeys : VecRef)
    (inProgressKeys partialDataKeys : option VecRef)
    (entries : list (Key * TimeSeriesData)) (s : ReadState) : option ReadState :=
  match entries with
  | [] => Some s
  | (k, r) :: rest =>
      s' ← classify foundKeys failedKeys inProgressKeys partialDataKeys k r s;
      processResults foundKeys failedKeys inProgressKeys partialDataKeys rest s'
  end.

(** The pairs of one entry of the request map that the loop visits. *)
Definition entryPairs (e : Host * (GetDataRequest * GetDataResult))
  : list (Key * TimeSeriesData) :=
  zip (keys e.2.1) (results e.2.2).

(** The loop over the entries of the request map. *)
Fixpoint processRequests (foundKeys failedKeys : VecRef)
    (inProgressKeys partialDataKeys : option VecRef)
    (requests : GetRequestMap) (s : ReadState) : option ReadState :=
  match requests with
  | [] => Some s
  | e :: rest =>
      let req := e.2.1 in
      let res := e.2.2 in
      let s1 :=
        if decide (length (keys req) ≠ length (results res))
        then with_world (LOG (LogMismatch (length (keys req)) (length (results res)))) s
        else s in
      s2 ← processResults foundKeys failedKeys inProgressKeys partialDataKeys
             (entryPairs e) s1;
      processRequests foundKeys failedKeys inProgressKeys partialDataKeys rest s2
  end.

Section Read.
Context {C : Type} `{!BeringeiNetworkClient C}.

(** The first half of [getWithClient]: split the keys into per-host
    requests, set the time range, perform the fetch. *)
Definition fetch (readClient : C) (request : GetDataRequest) : GetRequestMap * C :=
  let '(requests, c1) :=
    foldl (λ '(requests, c) k, addKeyToGetRequest k requests c)
      ([], readClient) (keys request) in
  let requests' :=
    (λ '(h, (req, res)),
       (h, (mkGetDataRequest (keys req) (begin_ request) (end_ request), res)))
      <$> requests in
  performGet requests' c1.

Definition getWithClient (readClient : C) (request : GetDataRequest)
    (foundKeys failedKeys : VecRef) (inProgressKeys partialDataKeys : option VecRef)
    (s : ReadState) : option (C * ReadState) :=
  let '(requests, c) := fetch readClient request in
  let s1 :=
    mkReadState (result s) (vecs s) (rworld s)
      (calls s ++ [mkGetCall (getServiceName readClient) (keys request) requests]) in
  s2 ← processRequests foundKeys failedKeys inProgressKeys partialDataKeys requests s1;
  Some (c, s2).

(** [keyShards]: the caller's shard id of every key name. *)
Definition buildKeyShards (ks : list Key) : gmap string Z :=
  foldl (λ m k, <[key k := shardId k]> m) ∅ ks.

Definition restoreShardId (keyShards : gmap string Z) (k : Key) : Key :=
  match keyShards !! key k with
  | Some id => mkKey (key k) id
  | None => k
  end.

(** How one turn of the loop over the read clients ends. *)
Inductive Step :=
| Break (s : ReadState)
| Continue (clientRequest : GetDataRequest) (s : ReadState)
| Throw (what : string) (s : ReadState)
| Abort.

Definition both_empty (s : ReadState) : bool :=
  vec_empty (failedKeys (vecs s)) && vec_empty (partialKeys (vecs s)).

(** The two pointer arguments [get] hands to [getWithClient]:
    [throwExceptionOnTransientFailure_ || !lastIteration ? &partialKeys : nullptr]
    and [!lastIteration ? &partialKeys : nullptr]. *)
Definition inProgressArg (throwExceptionOnTransientFailure_ lastIteration : bool)
  : option VecRef :=
  if throwExceptionOnTransientFailure_ || negb lastIteration
  then Some PartialKeys else None.

Definition partialDataArg (lastIteration : bool) : option VecRef :=
  if negb lastIteration then Some PartialKeys else None.

(** The start of a turn of the loop of [get]: fresh [failedKeys] and
    [partialKeys], and the fail-over statistic and log line from the second
    read client on. *)
Definition startIteration (i : nat) (readClient : C) (s : ReadState) : ReadState :=
  let s0 := mkReadState (result s) (mkKeyVectors (request_keys (vecs s)) [] [])
              (rworld s) (calls s) in
  if decide (0 < i)%nat
  then with_world (LOG (LogRetryingOther (getServiceName readClient)))
         (with_world (addStatValue kReadFailover 1) s0)
  else s0.

(** The retry within a service: [clientRequest.keys = std::move(failedKeys);
    failedKeys.clear()]. *)
Definition retryRequest (clientRequest : GetDataRequest) (s : ReadState) : GetDataRequest :=
  mkGetDataRequest (failedKeys (vecs s)) (begin_ clientRequest) (end_ clientRequest).

Definition retryState (s : ReadState) : ReadState :=
  mkReadState (result s)
    (mkKeyVectors (request_keys (vecs s)) [] (partialKeys (vecs s)))
    (rworld s) (calls s).

(** The request for the next read client: the failed keys, then the partial
    keys, with the caller's shard ids. *)
Definition nextRequest (keyShards : gmap string Z) (clientRequest : GetDataRequest)
    (s : ReadState) : GetDataRequest :=
  mkGetDataRequest
    (restoreShardId keyShards <$> (failedKeys (vecs s) ++ partialKeys (vecs s)))
    (begin_ clientRequest) (end_ clientRequest).

(** The end of a turn, from the second test of
    [failedKeys.empty() && partialKeys.empty()] on. *)
Definition finishIteration (throwExceptionOnTransientFailure_ : bool)
    (keyShards : gmap string Z) (lastIteration : bool)
    (clientRequest : GetDataRequest) (s : ReadState) : Step :=
  if both_empty s then Break s
  else if lastIteration && throwExceptionOnTransientFailure_
  then Throw "Failed reading data from gorilla" s
  else Continue (nextRequest keyShards clientRequest s) s.

(** The body of the loop of [get], for the read client at index [i] of [n]. *)
Definition getIteration (throwExceptionOnTransientFailure_ : bool)
    (keyShards : gmap string Z) (n i : nat) (readClient : C)
    (clientRequest : GetDataRequest) (s : ReadState) : Step :=
  let s1 := startIteration i readClient s in
  let lastIteration := bool_decide (i = n - 1)%nat in
  let inProgressKeys := inProgressArg throwExceptionOnTransientFailure_ lastIteration in
  let partialDataKeys := partialDataArg lastIteration in
  match getWithClient readClient clientRequest RequestKeys FailedKeys
          inProgressKeys partialDataKeys s1 with
  | None => Abort
  | Some (c1, s2) =>
      if both_empty s2 then Break s2
      else if negb (vec_empty (failedKeys (vecs s2))) then
        let invalidShardIds : gset Z := list_to_set (shardId <$> failedKeys (vecs s2)) in
        let c2 := invalidateCache invalidShardIds c1 in
        let clientRequest' := retryRequest clientRequest s2 in
        match getWithClient c2 clientRequest' RequestKeys FailedKeys
                inProgressKeys partialDataKeys (retryState s2) with
        | None => Abort
        | Some (_, s4) =>
            finishIteration throwExceptionOnTransientFailure_ keyShards lastIteration
              clientRequest' s4
        end
      else
        finishIteration throwExceptionOnTransientFailure_ keyShards lastIteration
          clientRequest s2
  end.

Inductive Outcome :=
| Returned (s : ReadState)
| Thrown (what : string) (s : ReadState)
| Aborted.

(** The loop of [get] over the read clients from index [i] on. *)
Fixpoint getLoop (strict : bool) (keyShards : gmap string Z) (n i : nat)
    (readClients : list C) (clientRequest : GetDataRequest) (s : ReadState)
  : Outcome :=
  match readClients with
  | [] => Returned s
  | readClient :: rest =>
      match getIteration strict keyShards n i readClient clientRequest s with
      | Break s' => Returned s'
      | Continue clientRequest' s' => getLoop strict keyShards n (S i) rest clientRequest' s'
      | Throw what s' => Thrown what s'
      | Abort => Aborted
      end
  end.

(** [get(GetDataRequest&, GetDataResult&, serviceOverride)] from its second
    line on, with the snapshot [readClientCopies] that [getAllReadClients]
    gave; [get] itself is defined below, after [getAllReadClients]. On return
    the caller's [request.keys] is [request_keys (vecs s)] and the caller's
    [result] is [result s]. *)
Definition getFromCopies (throwExceptionOnTransientFailure_ : bool)
    (readClientCopies : list C)
    (request : GetDataRequest) (result0 : GetDataResult) (w : World) : Outcome :=
  let keyShards := buildKeyShards (keys request) in
  let clientRequest := request in
  getLoop throwExceptionOnTransientFailure_ keyShards (length readClientCopies) 0
    readClientCopies clientRequest
    (mkReadState result0 (mkKeyVectors [] [] []) w []).

(** The result of [get(GetDataRequest&, GorillaResultVector&, serviceOverride)].
    [TimeSeries::getValues] decodes a block and appends to its out-vector. *)
Definition GorillaResultVector : Type := list (Key * list TimeValuePair).

Variable getValues : TimeSeriesBlock → list TimeValuePair → Z → Z → list TimeValuePair.

Definition resize (n : nat) (v : GorillaResultVector) : GorillaResultVector :=
  take n v ++ replicate (n - length v) (mkKey "" 0, []).

(** The loop over [i < gorillaResult.results.size()], from index [i] on:
    [ks] is [request.keys] from [i] on, [rs] the results from [i] on, [out]
    the vector from [i] on. Reading [request.keys[i]] or [result[i]] past the
    end is undefined: [None]. *)
Fixpoint fillValues (begin end' : Z) (ks : list Key) (rs : list TimeSeriesData)
    (out : GorillaResultVector) : option GorillaResultVector :=
  match rs with
  | [] => Some out
  | r :: rs' =>
      match ks, out with
      | k :: ks', (_, values) :: out' =>
          rest ← fillValues begin end' ks' rs' out';
          Some ((k, foldl (λ vs block, getValues block vs begin end') values (data r))
                  :: rest)
      | _, _ => None
      end
  end.

Inductive VectorOutcome :=
| VReturned (s : ReadState) (v : GorillaResultVector)
| VOutOfRange
| VThrown (what : string) (s : ReadState)
| VAborted.

End Read.

(** ** Read services and set-up *)

Definition kBadReadServices : string := "gorilla_client.bad_read_services".
Definition kNoWriterThreads : Z := -1.
Definition kNoReadServicesUpdates : Z := -1.

(** The flags that only the set-up reads. *)
Record SetupFlags := mkSetupFlags {
  gorilla_client_writer_threads : Z;
  gorilla_queue_capacity : Z;
  gorilla_queue_capacity_size_ratio : Z
}.

Definition defaultSetupFlags : SetupFlags := mkSetupFlags 0 1 500.

(** [BeringeiConfigurationAdapterIf], as far as this file calls it. The
    calls are queries: they do not change the client. *)
Class BeringeiConfigurationAdapterIf (A : Type) := {
  getReadServices : A → list string;
  getWriteServices : A → list string;
  getShadowServices : A → list string;
  isValidReadService : string → A → bool;
  getNearestReadService : A → string
}.

(** What a call gives that may throw a [std::exception]. *)
Inductive Try (T : Type) :=
| Made (v : T)
| Raised (what : string).
Arguments Made {T}.
Arguments Raised {T}.

(** What the set-up needs of [BeringeiNetworkClient] and of the header
    besides the calls above: the constructor, which is all that
    [createNetworkClient] and [createUniqueNetworkClient] call (with a service
    name, the adapter and the shadow flag), [isCorrespondingService], and the
    helper [getMaxNumShards] over a list of clients. *)
Class NetworkClientSetup (C A : Type) := {
  createNetworkClient : string → A → bool → Try C;
  isCorrespondingService : string → C → bool;
  getMaxNumShards : list C → Z
}.

(** The queue that the constructor of [WriteClient] makes from the queue
    capacity and the queue size. *)
Class WriteQueueSetup (Q : Type) := {
  newQueue : Z → Z → Q
}.

(** The members of [BeringeiClientImpl] that the read services use; the
    scheduler is kept as the interval the refresh is scheduled with, if it
    is. *)
Record ReadServices (C A : Type) := mkReadServices {
  configurationAdapter_ : A;
  readClients_ : list C;
  currentReadServices_ : list string;
  maxNumShards_ : Z;
  readServicesUpdateScheduler_ : option Z
}.
Arguments mkReadServices {C A}.
Arguments configurationAdapter_ {C A}.
Arguments readClients_ {C A}.
Arguments currentReadServices_ {C A}.
Arguments maxNumShards_ {C A}.
Arguments readServicesUpdateScheduler_ {C A}.

(** The world of the read services: the statistics and the log as before,
    and the lines [LOG(ERROR) << e.what()]. *)
Record Journal := mkJournal {
  j_world : World;
  j_errors : list string
}.

Definition badReadService (j : Journal) : Journal :=
  mkJournal (addStatValue kBadReadServices 1 (j_world j)) (j_errors j).

Definition logError (what : string) (j : Journal) : Journal :=
  mkJournal (j_world j) (j_errors j ++ [what]).

(** Division of two [int]: towards zero; undefined for a zero divisor and
    for the one quotient that does not fit. *)
Definition int_div (a b : Z) : option Z :=
  if decide (b = 0 ∨ (a = - 2 ^ 31 ∧ b = -1)) then None else Some (a ÷ b).

(** What [getAllReadClients] gives. With an override that one of the read
    clients corresponds to, the vector is assigned to inside the range-for
    that walks it, which invalidates the iterators of the loop: undefined. *)
Inductive ReadClientCopies (C : Type) :=
| Copies (readClientCopies : list C)
| CopiesRaised (what : string)
| CopiesUndefined.
Arguments Copies {C}.
Arguments CopiesRaised {C}.
Arguments CopiesUndefined {C}.

(** How [initialize] ends; the last component is the error lines. *)
Inductive Initialized (C Q A : Type) :=
| Ready (st : BeringeiClientImpl C Q) (rs : ReadServices C A) (errors : list string)
| InitRaised (what : string) (st : BeringeiClientImpl C Q) (rs : ReadServices C A)
    (errors : list string)
| InitUndefined.
Arguments Ready {C Q A}.
Arguments InitRaised {C Q A}.
Arguments InitUndefined {C Q A}.

Section Setup.
Context {C Q A : Type} `{!BeringeiNetworkClient C} `{!RequestBatchingQueue Q}
  `{!BeringeiConfigurationAdapterIf A} `{!NetworkClientSetup C A} `{!WriteQueueSetup Q}.

(** The constructor: the members of both records
    ([throwExceptionOnTransientFailure_] is an argument of [get]). *)
Definition BeringeiClientImpl_new (flags : Flags) (asyncClientAdapter : A) (w : World)
  : BeringeiClientImpl C Q * ReadServices C A :=
  (mkImpl [] [] []
     (mkMPMCQueue
        (Z.to_nat (Z.max (gorilla_retry_queue_capacity flags ÷ kRetryQueueCapacitySizeRatio)
                     kMinQueueSize)) [])
     0 w,
   mkReadServices asyncClientAdapter [] [] 0 None).

Definition setQueueCapacity (sflags : SetupFlags) (queueCapacity : Z) : Z :=
  if decide (queueCapacity ≠ 0) then queueCapacity else gorilla_queue_capacity sflags.

Definition setNumWriterThreads (sflags : SetupFlags) (writerThreads : Z) : Z :=
  if decide (writerThreads ≠ kNoWriterThreads) then
    if decide (writerThreads ≠ 0) then writerThreads
    else gorilla_client_writer_threads sflags
  else 0.

(** The loop of [initBeringeiNetworkClients] over the read services. *)
Fixpoint initLoop (a : A) (readServices : list string) (clients : list C) (j : Journal)
  : list C * Journal :=
  match readServices with
  | [] => (clients, j)
  | readService :: rest =>
      if negb (isValidReadService readService a)
      then initLoop a rest clients (badReadService j)
      else
        match createNetworkClient readService a false with
        | Made c => initLoop a rest (clients ++ [c]) j
        | Raised what => initLoop a rest clients (badReadService (logError what j))
        end
  end.

(** [initBeringeiNetworkClients]: the clients, or the exception of the
    construction of the client for the nearest service. *)
Definition initBeringeiNetworkClients (a : A) (clients : list C)
    (readServices : list string) (j : Journal) : Try (list C) * Journal :=
  let '(clients1, j1) := initLoop a readServices clients j in
  if vec_empty clients1 then
    let nearestReadService := getNearestReadService a in
    match createNetworkClient nearestReadService a false with
    | Made c => (Made (clients1 ++ [c]), j1)
    | Raised what => (Raised what, j1)
    end
  else (Made clients1, j1).

Definition selectReadServices (rs : ReadServices C A) : list string :=
  getReadServices (configurationAdapter_ rs).

(** [updateReadServices]: [Some what] when it throws. *)
Definition updateReadServices (rs : ReadServices C A) (j : Journal)
  : option string * ReadServices C A * Journal :=
  let readServices := selectReadServices rs in
  if decide (length readServices ≠ 0%nat ∧ readServices ≠ currentReadServices_ rs) then
    match initBeringeiNetworkClients (configurationAdapter_ rs) [] readServices j with
    | (Made readClients, j1) =>
        (None,
         mkReadServices (configurationAdapter_ rs) readClients readServices
           (getMaxNumShards readClients) (readServicesUpdateScheduler_ rs),
         j1)
    | (Raised what, j1) => (Some what, rs, j1)
    end
  else (None, rs, j).

(** [getAllReadClients]. *)
Definition getAllReadClients (serviceOverride : string) (rs : ReadServices C A)
    (j : Journal) : ReadClientCopies C * Journal :=
  let readClientCopies := readClients_ rs in
  if decide (serviceOverride ≠ "") then
    if existsb (isCorrespondingService serviceOverride) readClientCopies
    then (CopiesUndefined, j)
    else if negb (isValidReadService serviceOverride (configurationAdapter_ rs))
    then (Copies readClientCopies, badReadService j)
    else
      match createNetworkClient serviceOverride (configurationAdapter_ rs) false with
      | Made c => (Copies [c], j)
      | Raised what => (CopiesRaised what, j)
      end
  else (Copies readClientCopies, j).

(** [initializeTestClients]; [None] where the division is undefined. *)
Definition initializeTestClients (flags : Flags) (sflags : SetupFlags)
    (queueCapacity : Z) (readers writers : list C)
    (st : BeringeiClientImpl C Q) (rs : ReadServices C A)
  : option (BeringeiClientImpl C Q * ReadServices C A) :=
  let queueCapacity := setQueueCapacity sflags queueCapacity in
  let writerThreads :=
    setNumWriterThreads sflags
      (if vec_empty writers then kNoWriterThreads else Z.of_nat (length writers)) in
  quotient ← int_div queueCapacity (gorilla_queue_capacity_size_ratio sflags);
  let queueSize := Z.max quotient kMinQueueSize in
  let readClients := readClients_ rs ++ readers in
  let writeClients :=
    writeClients_ st
    ++ ((λ c, mkWriteClient c (newQueue queueCapacity queueSize)) <$> writers) in
  Some
    (startWriterThreads flags writerThreads
       (mkImpl writeClients (writers_ st) (retryWriters_ st) (retryQueue_ st)
          (numRetryQueuedDataPoints_ st) (world st)),
     mkReadServices (configurationAdapter_ rs) readClients (currentReadServices_ rs)
       (getMaxNumShards (client <$> writeClients)) (readServicesUpdateScheduler_ rs)).

(** The loops of [initialize] over the write services and over the shadow
    services: the write clients, and the exception if a construction threw. *)
Fixpoint addWriteClients (a : A) (shadow : bool) (queueCapacity queueSize : Z)
    (services : list string) (writeClients : list (WriteClient C Q))
  : option string * list (WriteClient C Q) :=
  match services with
  | [] => (None, writeClients)
  | service :: rest =>
      match createNetworkClient service a shadow with
      | Made c =>
          addWriteClients a shadow queueCapacity queueSize rest
            (writeClients ++ [mkWriteClient c (newQueue queueCapacity queueSize)])
      | Raised what => (Some what, writeClients)
      end
  end.

(** The statistics [initialize] starts with. The export types it registers
    are not part of what is modelled of the statistics. *)
Definition initializeCounters (writeClients : list (WriteClient C Q)) (w : World) : World :=
  foldl (λ w wc, addStatValue (String.append kQueueSizeKey (getServiceName (client wc))) 0 w)
    (addStatValue kRetryQueueSizeKey 0 w) writeClients.

Definition with_writeClients (wcs : list (WriteClient C Q)) (st : BeringeiClientImpl C Q)
  : BeringeiClientImpl C Q :=
  mkImpl wcs (writers_ st) (retryWriters_ st) (retryQueue_ st)
    (numRetryQueuedDataPoints_ st) (world st).

Definition with_world_of (w : World) (st : BeringeiClientImpl C Q)
  : BeringeiClientImpl C Q :=
  mkImpl (writeClients_ st) (writers_ st) (retryWriters_ st) (retryQueue_ st)
    (numRetryQueuedDataPoints_ st) w.

(** The end of [initialize], from [startWriterThreads] on. *)
Definition finishInitialize (flags : Flags) (writerThreads : Z)
    (st : BeringeiClientImpl C Q) : BeringeiClientImpl C Q :=
  let st1 := startWriterThreads flags writerThreads st in
  with_world_of (initializeCounters (writeClients_ st1) (world st1)) st1.

Definition initialize (flags : Flags) (sflags : SetupFlags)
    (queueCapacity writerThreads readServicesUpdateInterval : Z)
    (st : BeringeiClientImpl C Q) (rs : ReadServices C A) (errors : list string)
  : Initialized C Q A :=
  let queueCapacity := setQueueCapacity sflags queueCapacity in
  let writerThreads := setNumWriterThreads sflags writerThreads in
  match int_div queueCapacity (gorilla_queue_capacity_size_ratio sflags) with
  | None => InitUndefined
  | Some quotient =>
      let queueSize := Z.max quotient kMinQueueSize in
      if decide (writerThreads = 0) then
        match updateReadServices rs (mkJournal (world st) errors) with
        | (Some what, rs1, j1) =>
            InitRaised what (with_world_of (j_world j1) st) rs1 (j_errors j1)
        | (None, rs1, j1) =>
            let rs2 :=
              if decide (readServicesUpdateInterval ≠ kNoReadServicesUpdates)
              then mkReadServices (configurationAdapter_ rs1) (readClients_ rs1)
                     (currentReadServices_ rs1) (maxNumShards_ rs1)
                     (Some readServicesUpdateInterval)
              else rs1 in
            Ready (finishInitialize flags writerThreads (with_world_of (j_world j1) st))
              rs2 (j_errors j1)
        end
      else
        let a := configurationAdapter_ rs in
        match addWriteClients a false queueCapacity queueSize (getWriteServices a)
                (writeClients_ st) with
        | (Some what, wcs) => InitRaised what (with_writeClients wcs st) rs errors
        | (None, wcs) =>
            let rs1 :=
              mkReadServices a (readClients_ rs) (currentReadServices_ rs)
                (getMaxNumShards (client <$> wcs)) (readServicesUpdateScheduler_ rs) in
            match addWriteClients a true queueCapacity queueSize (getShadowServices a)
                    wcs with
            | (Some what, wcs') => InitRaised what (with_writeClients wcs' st) rs1 errors
            | (None, wcs') =>
                Ready (finishInitialize flags writerThreads (with_writeClients wcs' st))
                  rs1 errors
            end
        end
  end.
End Setup.

(** ** get *)

Section Get.
Context {C A : Type} `{!BeringeiNetworkClient C}
  `{!BeringeiConfigurationAdapterIf A} `{!NetworkClientSetup C A}.

(** The caller's request and result as long as [get] has not touched them. *)
Definition untouched (request : GetDataRequest) (result0 : GetDataResult) (w : World)
  : ReadState :=
  mkReadState result0 (mkKeyVectors (keys request) [] []) w [].

(** [get(GetDataRequest&, GetDataResult&, serviceOverride)]. The exception
    that [getAllReadClients] lets through goes to the caller before the
    request or the result is touched. [None]: [getAllReadClients] is
    undefined. The error lines of the journal are not written to. *)
Definition get (throwExceptionOnTransientFailure_ : bool) (rs : ReadServices C A)
    (request : GetDataRequest) (result0 : GetDataResult) (serviceOverride : string)
    (j : Journal) : option Outcome :=
  match getAllReadClients serviceOverride rs j with
  | (Copies readClientCopies, j1) =>
      Some (getFromCopies throwExceptionOnTransientFailure_ readClientCopies request
              result0 (j_world j1))
  | (CopiesRaised what, j1) => Some (Thrown what (untouched request result0 (j_world j1)))
  | (CopiesUndefined, _) => None
  end.

(** [get(GetDataRequest&, GorillaResultVector&, serviceOverride)]. *)
Definition getVector (getValues : TimeSeriesBlock → list TimeValuePair → Z → Z → list TimeValuePair)
    (throwExceptionOnTransientFailure_ : bool) (rs : ReadServices C A)
    (request : GetDataRequest) (result0 : GorillaResultVector) (serviceOverride : string)
    (j : Journal) : option VectorOutcome :=
  match get throwExceptionOnTransientFailure_ rs request (mkGetDataResult [])
          serviceOverride j with
  | None => None
  | Some (Returned s) =>
      let gorillaResult := result s in
      match fillValues getValues (begin_ request) (end_ request) (request_keys (vecs s))
              (results gorillaResult) (resize (length (results gorillaResult)) result0) with
      | Some v => Some (VReturned s v)
      | None => Some VOutOfRange
      end
  | Some (Thrown what s) => Some (VThrown what s)
  | Some Aborted => Some VAborted
  end.
End Get.

(** ** What the theorems talk about *)

(** All the keys of a request map. *)
Definition requestedKeys (m : GetRequestMap) : list Key :=
  concat ((λ e : Host * (GetDataRequest * GetDataResult), keys e.2.1) <$> m).

(** All the (key, answer) pairs [getWithClient] visits in a request map. *)
Definition visitedPairs (m : GetRequestMap) : list (Key * TimeSeriesData) :=
  concat (entryPairs <$> m).

(** The call [getWithClient] makes. *)
Definition theCall {C : Type} `{!BeringeiNetworkClient C}
    (readClient : C) (request : GetDataRequest) : GetCall :=
  mkGetCall (getServiceName readClient) (keys request) (fetch readClient request).1.

(** What happens to one answer when [getWithClient] is called the way [get]
    calls it (found keys to [request.keys], failed keys to [failedKeys], both
    optional pointers either null or [&partialKeys]); [ip] and [pd] say
    whether [inProgressKeys] and [partialDataKeys] are non-null. *)
Inductive Verdict := Accepted | Failed | Partial | Skipped.

#[global] Instance Verdict_eq_dec : EqDecision Verdict.
Proof. solve_decision. Defined.

Definition ptr (nonnull : bool) : option VecRef :=
  if nonnull then Some PartialKeys else None.

Definition verdict (ip pd : bool) (r : TimeSeriesData) : Verdict :=
  match status r with
  | OK => Accepted
  | KEY_MISSING => Skipped
  | RPC_FAIL | ZIPPY_STORAGE_FAIL | DONT_OWN_SHARD => Failed
  | SHARD_IN_PROGRESS =>
      if ip then Partial
      else if decide (0 < length (data r))%nat then Accepted else Skipped
  | MISSING_TOO_MUCH_DATA =>
      if pd then Partial
      else if decide (0 < length (data r))%nat then Accepted else Skipped
  | BUCKET_NOT_FINALIZED => Skipped
  end.

(** The visited pairs with a given verdict. *)
Definition withVerdict (v : Verdict) (ip pd : bool) (pairs : list (Key * TimeSeriesData))
  : list (Key * TimeSeriesData) :=
  filter (λ p, verdict ip pd p.2 = v) pairs.

(** [s'] is [s] after the pairs were visited: every vector and the result
    grew by the pairs with the matching verdict, in order. *)
Definition extends (ip pd : bool) (pairs : list (Key * TimeSeriesData))
    (s s' : ReadState) : Prop :=
  request_keys (vecs s') = request_keys (vecs s) ++ (withVerdict Accepted ip pd pairs).*1 ∧
  results (result s') = results (result s) ++ (withVerdict Accepted ip pd pairs).*2 ∧
  failedKeys (vecs s') = failedKeys (vecs s) ++ (withVerdict Failed ip pd pairs).*1 ∧
  partialKeys (vecs s') = partialKeys (vecs s) ++ (withVerdict Partial ip pd pairs).*1 ∧
  calls s' = calls s.

(** The names of the keys a call was answered KEY_MISSING for. *)
Definition missingNames (call : GetCall) : list string :=
  key <$> (filter (λ p : Key * TimeSeriesData, status p.2 = KEY_MISSING)
             (visitedPairs (call_requests call))).*1.

(** A call that neither was asked for the key name nor asked a server for it. *)
Definition quiet (name : string) (call : GetCall) : Prop :=
  ¬ (name ∈ key <$> call_keys call) ∧
  ¬ (name ∈ key <$> requestedKeys (call_requests call)).

(** A read client that asks the servers only for keys it was asked for:
    whatever [fetch] leaves in the request map is among the keys of the
    request. *)
Definition no_fabrication (C : Type) `{!BeringeiNetworkClient C} : Prop :=
  ∀ (c : C) (request : GetDataRequest),
    requestedKeys (fetch c request).1 ⊆ keys request.

(** A read client that asks for every key name at most as often as it was
    asked for it (it may change the shard id of a key and may leave keys
    out). *)
Definition no_duplication (C : Type) `{!BeringeiNetworkClient C} : Prop :=
  ∀ (c : C) (request : GetDataRequest),
    key <$> requestedKeys (fetch c request).1 ⊆+ key <$> keys request.

(** A read client that asks the servers only for key names it was asked
    for; the shard id it sends a key with is its own business. *)
Definition keeps_names (C : Type) `{!BeringeiNetworkClient C} : Prop :=
  ∀ (c : C) (request : GetDataRequest),
    key <$> requestedKeys (fetch c request).1 ⊆ key <$> keys request.

(** Whether the queue of a write client takes the batch. *)
Definition accepts {C Q : Type} `{!RequestBatchingQueue Q}
    (values : list DataPoint) (wc : WriteClient C Q) : bool :=
  (push values (queue wc)).1.1.

(** A result entry [get] accepts as a success. *)
Definition successful (r : TimeSeriesData) : Prop :=
  status r = OK ∨
  ((status r = SHARD_IN_PROGRESS ∨ status r = MISSING_TOO_MUCH_DATA) ∧ data r ≠ []).

(** The state a turn ends in, unless it aborts. *)
Definition stepState (step : Step) : option ReadState :=
  match step with
  | Break s | Continue _ s | Throw _ s => Some s
  | Abort => None
  end.

(** The key was sent in one of the calls and the answer came back for it. *)
Definition answered (cs : list GetCall) (k : Key) (r : TimeSeriesData) : Prop :=
  ∃ call, call ∈ cs ∧ (k, r) ∈ visitedPairs (call_requests call).

(** Some answer the call visits has the status BUCKET_NOT_FINALIZED. *)
Definition unfinalized (call : GetCall) : Prop :=
  Exists (λ p : Key * TimeSeriesData, status p.2 = BUCKET_NOT_FINALIZED)
    (visitedPairs (call_requests call)).

Definition finalized (call : GetCall) : Prop := ¬ unfinalized call.

(** From [s] to [s'] the found keys and the result grew in step, by answers
    of the new calls that count as successes. *)
Definition grows (s s' : ReadState) : Prop :=
  ∃ K R cs,
    request_keys (vecs s') = request_keys (vecs s) ++ K ∧
    results (result s') = results (result s) ++ R ∧
    calls s' = calls s ++ cs ∧
    Forall2 (λ k r, answered cs k r ∧ successful r) K R ∧
    Forall finalized cs.

(** States that agree on the found keys, the result and the calls. *)
Definition same_view (s s' : ReadState) : Prop :=
  request_keys (vecs s') = request_keys (vecs s) ∧
  results (result s') = results (result s) ∧
  calls s' = calls s.

(** All three key vectors hold keys of [X] only. *)
Definition within (X : list Key) (s : ReadState) : Prop :=
  request_keys (vecs s) ⊆ X ∧ failedKeys (vecs s) ⊆ X ∧ partialKeys (vecs s) ⊆ X.

(** Every key name a call was answered KEY_MISSING for stays out of all the
    calls after it. *)
Fixpoint retiring (cs : list GetCall) : Prop :=
  match cs with
  | [] => True
  | call :: post => (∀ x, x ∈ missingNames call → Forall (quiet x) post) ∧ retiring post
  end.

(** The names of the keys of a call, asked for or sent on, are among [names]. *)
Definition asks_within (names : list string) (call : GetCall) : Prop :=
  (key <$> call_keys call) ⊆ names ∧
  (key <$> requestedKeys (call_requests call)) ⊆ names.

(** The write client after its queue was pushed the batch. *)
Definition pushed {C Q : Type} `{!RequestBatchingQueue Q}
    (values : list DataPoint) (wc : WriteClient C Q) : WriteClient C Q :=
  mkWriteClient (client wc) (push values (queue wc)).2.

(** What [putDataPoints] records for one write client. *)
Definition enqueueStats {C Q : Type} `{!BeringeiNetworkClient C} `{!RequestBatchingQueue Q}
    (values : list DataPoint) (wc : WriteClient C Q) : list (string * StatValue) :=
  let service := getServiceName (client wc) in
  [(String.append (if accepts values wc then kEnqueuedKey else kEnqueueDroppedKey) service,
    Count (Z.of_nat (length values)));
   (String.append kQueueSizeKey service, Count (q_size (push values (queue wc)).2))].

(** The number of data points waiting in the retry queue. *)
Definition queuedPoints (q : MPMCQueue) : Z :=
  Z.of_nat (length (items q ≫= dataPoints)).

(** The data points of a list of retry operations. *)
Definition pointsOf (ops : list RetryOperation) : Z :=
  Z.of_nat (length (ops ≫= dataPoints)).

(** The retry queue after [n] non-blocking writes of the shutdown operation:
    only as many as there are free slots get in. *)
Definition withShutdowns (n : nat) (q : MPMCQueue) : MPMCQueue :=
  mkMPMCQueue (capacity q)
    (items q ++ replicate (n `min` (capacity q - length (items q))) shutdownOperation).

(** An operation a retry thread can work on: it has points and names a
    write client. *)
Definition workable {C Q : Type} (st : BeringeiClientImpl C Q) (op : RetryOperation) : Prop :=
  dataPoints op ≠ [] ∧ (op_client op < length (writeClients_ st))%nat.

(** The counter of retry-queued points says what is on the retry queue, and
    the retry queue holds no more operations than it has room for. *)
Definition counter_ok {C Q : Type} (st : BeringeiClientImpl C Q) : Prop :=
  numRetryQueuedDataPoints_ st = queuedPoints (retryQueue_ st) ∧
  (length (items (retryQueue_ st)) ≤ capacity (retryQueue_ st))%nat.

(** One operation on the client object: a call of the interface that
    returns; one of the two steps that [stopWriterThreads] takes before it
    joins threads, whether the joins return or not (the write queues are
    flushed, the shutdown operations are written); or one turn of a writer
    thread or of a retry thread. *)
Inductive operation {C Q : Type} `{!BeringeiNetworkClient C} `{!RequestBatchingQueue Q}
    (flags : Flags) : relation (BeringeiClientImpl C Q) :=
| op_put values st :
    operation flags st (putDataPoints values st).2
| op_start n st :
    operation flags st (startWriterThreads flags n st)
| op_stop fuel st st' :
    stopWriterThreads fuel flags st = Some (Returns st') → operation flags st st'
| op_flush fuel st st' :
    flushQueue fuel flags st = Some (Returns st') → operation flags st st'
| op_markers n st :
    operation flags st
      (mkImpl ((λ wc, mkWriteClient (client wc) (flush n (queue wc))) <$> writeClients_ st)
         (writers_ st) (retryWriters_ st) (retryQueue_ st)
         (numRetryQueuedDataPoints_ st) (world st))
| op_shutdowns st :
    operation flags st
      (mkImpl (writeClients_ st) (writers_ st) (retryWriters_ st)
         (writeShutdownOperations (retryWriters_ st) (retryQueue_ st))
         (numRetryQueuedDataPoints_ st) (world st))
| op_write idx keepWriting st st' :
    writeIteration flags idx st = Some (keepWriting, st') → operation flags st st'
| op_retry goOn st st' :
    retryIteration st = Some (goOn, st') → operation flags st st'.

(** The turn of a read client, told from the answers as the specification
    tells it: the call with the current request; the failed keys, if there
    are any, asked for once more after the cache was invalidated for their
    shard ids; what was accepted on the way, and the failed and the partial
    keys that are left. *)
Record Turn := mkTurn {
  turn_calls : list GetCall;
  turn_accepted : list (Key * TimeSeriesData);
  turn_failed : list Key;
  turn_partial : list Key
}.

Definition turnOf {C : Type} `{!BeringeiNetworkClient C}
    (ip pd : bool) (c : C) (cr : GetDataRequest) : Turn :=
  let call1 := theCall c cr in
  let pairs1 := visitedPairs (call_requests call1) in
  let failed1 := (withVerdict Failed ip pd pairs1).*1 in
  if vec_empty failed1 then
    mkTurn [call1] (withVerdict Accepted ip pd pairs1) []
      (withVerdict Partial ip pd pairs1).*1
  else
    let c2 := invalidateCache (list_to_set (shardId <$> failed1)) (fetch c cr).2 in
    let call2 := theCall c2 (mkGetDataRequest failed1 (begin_ cr) (end_ cr)) in
    let pairs2 := visitedPairs (call_requests call2) in
    mkTurn [call1; call2]
      (withVerdict Accepted ip pd pairs1 ++ withVerdict Accepted ip pd pairs2)
      (withVerdict Failed ip pd pairs2).*1
      ((withVerdict Partial ip pd pairs1).*1 ++ (withVerdict Partial ip pd pairs2).*1).

(** The keys a turn leaves for the next read client. *)
Definition residual (t : Turn) : list Key := turn_failed t ++ turn_partial t.

(** The turns of a read, told from the answers: the read clients are taken
    in order, each is asked for what the one before left, with the caller's
    shard ids, and the read ends with the first turn that leaves nothing.
    Keys in progress and keys with gaps are left for the next read client on
    all but the last read client; in strict mode keys in progress are left
    on the last one too. *)
Fixpoint readTurns {C : Type} `{!BeringeiNetworkClient C}
    (strict : bool) (keyShards : gmap string Z) (readClients : list C)
    (cr : GetDataRequest) : list (C * Turn) :=
  match readClients with
  | [] => []
  | c :: rest =>
      let last := vec_empty rest in
      let t := turnOf (strict || negb last) (negb last) c cr in
      (c, t) ::
        (if vec_empty (residual t) then []
         else readTurns strict keyShards rest
                (mkGetDataRequest (restoreShardId keyShards <$> residual t)
                   (begin_ cr) (end_ cr)))
  end.

(** The number of log lines that say that a thread shuts down. *)
Definition is_shutdown (l : LogLine) : bool :=
  match l with
  | LogWriterShutdown | LogRetryShutdown => true
  | _ => false
  end.

Definition shutdownLines (w : World) : nat :=
  length (filter (λ l, is_shutdown l = true) (logs w)).

(** An answer that settles its key at once: the data, or the word that the
    key does not exist. *)
Definition settled (p : Key * TimeSeriesData) : Prop :=
  status p.2 = OK ∨ status p.2 = KEY_MISSING.

(** The answers with the status OK. *)
Definition okPairs (pairs : list (Key * TimeSeriesData)) : list (Key * TimeSeriesData) :=
  filter (λ p, status p.2 = OK) pairs.

(** The services named in the fail-over lines of the log, and the number of
    times the fail-over statistic was recorded. *)
Definition failovers (w : World) : list string :=
  omap (λ l, match l with LogRetryingOther service => Some service | _ => None end)
    (logs w).

Definition failoverCount (w : World) : nat :=
  length (filter (λ e : string * StatValue, e.1 = kReadFailover) (stats w)).

(** The client [initBeringeiNetworkClients] gets for a read service, if it
    gets one: the service is valid and the construction does not throw. *)
Definition usable {C A : Type} `{!BeringeiConfigurationAdapterIf A} `{!NetworkClientSetup C A}
    (a : A) (service : string) : option C :=
  if isValidReadService service a then
    match createNetworkClient service a false with
    | Made c => Some c
    | Raised _ => None
    end
  else None.

(** The exception text of a valid read service whose construction throws. *)
Definition failure {C A : Type} `{!BeringeiConfigurationAdapterIf A} `{!NetworkClientSetup C A}
    (a : A) (service : string) : option string :=
  if isValidReadService service a then
    match createNetworkClient (C := C) service a false with
    | Made _ => None
    | Raised what => Some what
    end
  else None.

(** ** Test doubles *)

(** A scripted network client. Reads: all keys go to one host; every
    [performGet] answers from the next table of the script (a key that is not
    in the table is missing; with no table left the call fails). Writes: a
    point with a negative shard id is dropped when the request is built; the
    server drops the points whose key name is in [mock_rejects]; the client
    keeps what it sent, and when (in microseconds). *)
Record MockClient := mkMock {
  mock_name : string;
  mock_script : list (list (string * TimeSeriesData));
  mock_invalidated : list (list Z);
  mock_rejects : list string;
  mock_puts : list (Z * PutRequestMap)
}.

Definition mock_host : Host := ("host", 0).

Fixpoint mock_answer (table : list (string * TimeSeriesData)) (k : Key) : TimeSeriesData :=
  match table with
  | [] => mkTimeSeriesData [] KEY_MISSING
  | (name, r) :: rest => if decide (name = key k) then r else mock_answer rest k
  end.

Definition mock_addKey (k : Key) (m : GetRequestMap) (c : MockClient)
  : GetRequestMap * MockClient :=
  match m with
  | [] => ([(mock_host, (mkGetDataRequest [k] 0 0, mkGetDataResult []))], c)
  | (h, (req, res)) :: rest =>
      ((h, (mkGetDataRequest (keys req ++ [k]) (begin_ req) (end_ req), res)) :: rest, c)
  end.

Definition mock_performGet (m : GetRequestMap) (c : MockClient)
  : GetRequestMap * MockClient :=
  let answer :=
    match mock_script c with
    | [] => λ _, mkTimeSeriesData [] RPC_FAIL
    | table :: _ => mock_answer table
    end in
  ((λ '(h, (req, _)), (h, (req, mkGetDataResult (answer <$> keys req)))) <$> m,
   mkMock (mock_name c) (tail (mock_script c)) (mock_invalidated c) (mock_rejects c)
     (mock_puts c)).

Definition mock_invalidate (ids : gset Z) (c : MockClient) : MockClient :=
  mkMock (mock_name c) (mock_script c) (mock_invalidated c ++ [elements ids])
    (mock_rejects c) (mock_puts c).

Definition mock_addDataPoint (dp : DataPoint) (m : PutRequestMap) (c : MockClient)
  : (bool * bool * PutRequestMap) * MockClient :=
  if decide (shardId (dp_key dp) < 0) then (true, true, m, c)
  else
    match m with
    | [] => (true, false, [(mock_host, [dp])], c)
    | (h, dps) :: rest => (true, false, (h, dps ++ [dp]) :: rest, c)
    end.

Definition mock_performPut (m : PutRequestMap) (now : Z) (c : MockClient)
  : list DataPoint * MockClient :=
  (filter (λ dp, key (dp_key dp) ∈ mock_rejects c) (concat (snd <$> m)),
   mkMock (mock_name c) (mock_script c) (mock_invalidated c) (mock_rejects c)
     (mock_puts c ++ [(now, m)])).

#[global] Instance MockClient_client : BeringeiNetworkClient MockClient := {
  getServiceName := mock_name;
  addKeyToGetRequest := mock_addKey;
  performGet := mock_performGet;
  invalidateCache := mock_invalidate;
  addDataPointToRequest := mock_addDataPoint;
  performPut := mock_performPut
}.

(** Modelled from the spec: the bounded write queue ([RequestBatchingQueue]
    in the header, not part of this file). A queue of batches bounded by its
    number of slots; [push] does not block and reports success; [pop] hands
    the points of the batches to the visitor until the visitor says stop or
    the queue is empty, and blocks on an empty queue; [flush n] inserts [n]
    shutdown markers. *)
Record BoundedQueue := mkBoundedQueue {
  bq_slots : nat;
  bq_items : list (option (list DataPoint))     (* [None]: a shutdown marker *)
}.

Definition bq_push (points : list DataPoint) (q : BoundedQueue)
  : (bool * list DataPoint) * BoundedQueue :=
  if decide (length (bq_items q) < bq_slots q)%nat
  then (true, [], mkBoundedQueue (bq_slots q) (bq_items q ++ [Some points]))
  else (false, points, q).

Fixpoint bq_visit {S : Type} (visitor : DataPoint → S → bool * S)
    (points : list DataPoint) (s : S) : bool * S :=
  match points with
  | [] => (true, s)
  | dp :: rest =>
      let '(more, s1) := visitor dp s in
      let '(more', s2) := bq_visit visitor rest s1 in
      (more && more', s2)
  end.

Fixpoint bq_drain {S : Type} (visitor : DataPoint → S → bool * S)
    (items : list (option (list DataPoint))) (n : Z) (s : S)
  : (bool * Z) * S * list (option (list DataPoint)) :=
  match items with
  | [] => (true, n, s, [])
  | None :: rest => (false, n, s, rest)
  | Some points :: rest =>
      let '(more, s1) := bq_visit visitor points s in
      let n1 := n + Z.of_nat (length points) in
      if more then bq_drain visitor rest n1 s1 else (true, n1, s1, rest)
  end.

Definition bq_pop {S : Type} (visitor : DataPoint → S → bool * S) (s : S)
    (q : BoundedQueue) : option ((bool * Z) * S * BoundedQueue) :=
  match bq_items q with
  | [] => None
  | _ :: _ =>
      let '(r, s', rest) := bq_drain visitor (bq_items q) 0 s in
      Some (r, s', mkBoundedQueue (bq_slots q) rest)
  end.

#[global] Instance BoundedQueue_queue : RequestBatchingQueue BoundedQueue := {
  push := bq_push;
  pop := @bq_pop;
  flush := λ n q, mkBoundedQueue (bq_slots q) (bq_items q ++ replicate n None);
  q_size := λ q, Z.of_nat (length (bq_items q))
}.

Definition mock_writer (name : string) (rejects : list string) : MockClient :=
  mkMock name [] [] rejects [].

Definition dp_a0 : DataPoint := mkDataPoint (mkKey "a" 1) (mkTimeValuePair 0 1).
Definition dp_a60 : DataPoint := mkDataPoint (mkKey "a" 1) (mkTimeValuePair 60 2).
Definition dp_b0 : DataPoint := mkDataPoint (mkKey "b" 2) (mkTimeValuePair 0 7).
Definition dp_lost : DataPoint := mkDataPoint (mkKey "c" (-1)) (mkTimeValuePair 0 9).

(** A queue of ten slots with ten batches waiting. *)
Definition fullQueue : BoundedQueue := mkBoundedQueue 10 (replicate 10 (Some [dp_a0])).

(** A writer whose only queue has no free slot. *)
Definition fullWriter : BeringeiClientImpl MockClient BoundedQueue :=
  mkImpl [mkWriteClient (mock_writer "svc1" []) fullQueue]
    [WriterThread 0] [RetryThread] (mkMPMCQueue 10 []) 0 (mkWorld [] [] 0).

(** A writer with a full queue for [svc1] and room in the queue of the
    shadow service [svc2]. *)
Definition twoQueues : BeringeiClientImpl MockClient BoundedQueue :=
  mkImpl [mkWriteClient (mock_writer "svc1" []) fullQueue;
          mkWriteClient (mock_writer "svc2" []) (mkBoundedQueue 10 [])]
    [WriterThread 0; WriterThread 1] [RetryThread] (mkMPMCQueue 10 []) 0
    (mkWorld [] [] 0).

(** A writer with two write clients and one writer thread, nothing queued. *)
Definition fewThreads : BeringeiClientImpl MockClient BoundedQueue :=
  mkImpl [mkWriteClient (mock_writer "svc1" []) (mkBoundedQueue 10 []);
          mkWriteClient (mock_writer "svc2" []) (mkBoundedQueue 10 [])]
    [WriterThread 0] [] (mkMPMCQueue 10 []) 0 (mkWorld [] [] 0).

(** A reader: no write clients, no threads. *)
Definition readerOnly : BeringeiClientImpl MockClient BoundedQueue :=
  mkImpl [] [] [] (mkMPMCQueue 10 []) 0 (mkWorld [] [] 0).

(** A writer with one batch waiting: the point [dp_lost] has no shard, the
    server rejects the key ["b"]. *)
Definition busyWriter : BeringeiClientImpl MockClient BoundedQueue :=
  mkImpl [mkWriteClient (mock_writer "svc1" ["b"])
            (mkBoundedQueue 10 [Some [dp_a0; dp_lost; dp_b0]])]
    [WriterThread 0] [RetryThread] (mkMPMCQueue 10 []) 0 (mkWorld [] [] 100000000).

(** The same writer with a shutdown marker behind the batch. *)
Definition stoppingWriter : BeringeiClientImpl MockClient BoundedQueue :=
  mkImpl [mkWriteClient (mock_writer "svc1" ["b"])
            (mkBoundedQueue 10 [Some [dp_a0; dp_lost; dp_b0]; None])]
    [WriterThread 0] [RetryThread] (mkMPMCQueue 10 []) 0 (mkWorld [] [] 100000000).

(** The same writer later, with the two dropped points in the retry queue:
    at second 100 they are due at second 155. *)
Definition retryingWriter : BeringeiClientImpl MockClient BoundedQueue :=
  mkImpl [mkWriteClient (mock_writer "svc1" []) (mkBoundedQueue 10 [])]
    [WriterThread 0] [RetryThread]
    (mkMPMCQueue 10 [mkRetryOperation 0 [dp_lost; dp_b0] 155]) 2
    (mkWorld [] [] 100000000).

(** ... and much later: at second 200 the operation is too old. *)
Definition staleWriter : BeringeiClientImpl MockClient BoundedQueue :=
  mkImpl [mkWriteClient (mock_writer "svc1" []) (mkBoundedQueue 10 [])]
    [WriterThread 0] [RetryThread]
    (mkMPMCQueue 10 [mkRetryOperation 0 [dp_lost; dp_b0] 155]) 2
    (mkWorld [] [] 200000000).

(** Readers. *)
Definition mock_reader (name : string) (script : list (list (string * TimeSeriesData)))
  : MockClient :=
  mkMock name script [] [] [].

Definition k1 : Key := mkKey "k1" 1.
Definition k2 : Key := mkKey "k2" 2.
Definition block1 : TimeSeriesBlock := mkBlock 0 1 "x".
Definition answer (st : StatusCode) (blocks : list TimeSeriesBlock) : TimeSeriesData :=
  mkTimeSeriesData blocks st.

Definition twoKeys : GetDataRequest := mkGetDataRequest [k1; k2] 0 100.
Definition emptyResult : GetDataResult := mkGetDataResult [].
Definition world0 : World := mkWorld [] [] 0.
Definition state0 : ReadState := mkReadState emptyResult (mkKeyVectors [] [] []) world0 [].

(** Service A fails for [k1], also on the retry, and does not know [k2];
    service B has [k1]. *)
Definition readerA : MockClient :=
  mock_reader "A" [[("k1", answer RPC_FAIL []); ("k2", answer KEY_MISSING [])];
                   [("k1", answer RPC_FAIL [])]].
Definition readerB : MockClient := mock_reader "B" [[("k1", answer OK [block1])]].

(** A service that has [k2] and has [k1] with gaps. *)
Definition gapReader : MockClient :=
  mock_reader "S" [[("k1", answer MISSING_TOO_MUCH_DATA [block1]);
                    ("k2", answer OK [block1])]].

(** A service whose shard of [k1] is still loading. *)
Definition loadingReader : MockClient :=
  mock_reader "S" [[("k1", answer SHARD_IN_PROGRESS [block1]);
                    ("k2", answer OK [block1])]].

(** A service that answers BUCKET_NOT_FINALIZED for [k2]. *)
Definition unfinalizedReader : MockClient :=
  mock_reader "S" [[("k1", answer OK [block1]);
                    ("k2", answer BUCKET_NOT_FINALIZED [])]].

(** A writer with two services and no thread yet. *)
Definition idleWriter : BeringeiClientImpl MockClient BoundedQueue :=
  mkImpl [mkWriteClient (mock_writer "svc1" []) (mkBoundedQueue 10 []);
          mkWriteClient (mock_writer "svc2" []) (mkBoundedQueue 10 [])]
    [] [] (mkMPMCQueue 10 []) 0 (mkWorld [] [] 0).

(** The writer [retryingWriter] told to stop: a shutdown operation is queued
    behind the retry operation. *)
Definition drainingWriter : BeringeiClientImpl MockClient BoundedQueue :=
  mkImpl [mkWriteClient (mock_writer "svc1" []) (mkBoundedQueue 10 [])]
    [] []
    (mkMPMCQueue 10 [mkRetryOperation 0 [dp_lost; dp_b0] 155; shutdownOperation]) 2
    (mkWorld [] [] 100000000).

(** A writer whose retry queue has no free slot. *)
Definition jammedWriter : BeringeiClientImpl MockClient BoundedQueue :=
  mkImpl [mkWriteClient (mock_writer "svc1" []) (mkBoundedQueue 10 [])]
    [WriterThread 0] [RetryThread]
    (mkMPMCQueue 10 (replicate 10 (mkRetryOperation 0 [dp_b0] 155))) 10
    (mkWorld [] [] 100000000).

(** A scripted configuration adapter: the lists of services, the valid read
    services, the nearest one, and the services whose client cannot be
    constructed. *)
Record MockAdapter := mkAdapter {
  ad_read : list string;
  ad_write : list string;
  ad_shadow : list string;
  ad_valid : list string;
  ad_nearest : string;
  ad_down : list string
}.

#[global] Instance MockAdapter_adapter : BeringeiConfigurationAdapterIf MockAdapter := {
  getReadServices := ad_read;
  getWriteServices := ad_write;
  getShadowServices := ad_shadow;
  isValidReadService := λ service a, bool_decide (service ∈ ad_valid a);
  getNearestReadService := ad_nearest
}.

#[global] Instance MockClient_setup : NetworkClientSetup MockClient MockAdapter := {
  createNetworkClient := λ service a _,
    if decide (service ∈ ad_down a) then Raised "no route to service"
    else Made (mock_reader service []);
  isCorrespondingService := λ service c, bool_decide (mock_name c = service);
  getMaxNumShards := λ clients, if vec_empty clients then 0 else 100
}.

#[global] Instance BoundedQueue_setup : WriteQueueSetup BoundedQueue := {
  newQueue := λ _ queueSize, mkBoundedQueue (Z.to_nat queueSize) []
}.

(** Four read services, one of them not valid and one down; a write service
    and a shadow service. *)
Definition adapter3 : MockAdapter :=
  mkAdapter ["east"; "bogus"; "west"; "north"] ["w1"] ["shadow1"]
    ["east"; "west"; "north"] "east" ["west"].

(** No read service can be reached, the nearest one included. *)
Definition adapterDown : MockAdapter :=
  mkAdapter ["east"] [] [] ["east"] "east" ["east"].

Definition journal0 : Journal := mkJournal world0 [].

(** The read services of a client with the given read clients. *)
Definition readersOf {C : Type} (readClients : list C) : ReadServices C MockAdapter :=
  mkReadServices adapter3 readClients [] 0 None.

(** A network client with a shard cache of its own: it sends every key with
    the shard id [cache_shard], whatever shard id the caller gave the key. *)
Record CachingClient := mkCaching {
  cache_shard : Z;
  cached : MockClient
}.

Definition recache (c : CachingClient) {T : Type} (r : T * MockClient) : T * CachingClient :=
  (r.1, mkCaching (cache_shard c) r.2).

#[global] Instance CachingClient_client : BeringeiNetworkClient CachingClient := {
  getServiceName := λ c, mock_name (cached c);
  addKeyToGetRequest := λ k m c,
    recache c (mock_addKey (mkKey (key k) (cache_shard c)) m (cached c));
  performGet := λ m c, recache c (mock_performGet m (cached c));
  invalidateCache := λ ids c, mkCaching (cache_shard c) (mock_invalidate ids (cached c));
  addDataPointToRequest := λ dp m c, recache c (mock_addDataPoint dp m (cached c));
  performPut := λ m now c, recache c (mock_performPut m now (cached c))
}.

#[global] Instance CachingClient_setup : NetworkClientSetup CachingClient MockAdapter := {
  createNetworkClient := λ service a _,
    if decide (service ∈ ad_down a) then Raised "no route to service"
    else Made (mkCaching 0 (mock_reader service []));
  isCorrespondingService := λ service c, bool_decide (mock_name (cached c) = service);
  getMaxNumShards := λ clients, if vec_empty clients then 0 else 100
}.

(** Service B behind a shard cache that has shard 99 for every key. *)
Definition cachingB : CachingClient := mkCaching 99 readerB.

(** A result that holds an entry already when [get] is called. *)
Definition usedResult : GetDataResult := mkGetDataResult [answer KEY_MISSING []].

Definition services0 (a : MockAdapter) : ReadServices MockClient MockAdapter :=
  mkReadServices a [] [] 0 None.

(** The production writer: two threads for each of the write service and
    the shadow service. *)
Definition writerOf (a : MockAdapter)
  : Initialized MockClient BoundedQueue MockAdapter :=
  initialize defaultFlags defaultSetupFlags 1000 2 15
    (BeringeiClientImpl_new defaultFlags a world0).1
    (BeringeiClientImpl_new (Q := BoundedQueue) defaultFlags a world0).2 [].

(** * Properties *)

(** ** putDataPoints *)

Section PutProperties.
Context {C Q : Type} `{!BeringeiNetworkClient C} `{!RequestBatchingQueue Q}.

Lemma putLoop_result numPoints n wcs :
  ∀ i values all w,
    n = (i + length wcs)%nat →
    (putLoop numPoints n i wcs values all w).1.2
    = all || existsb (accepts values) wcs.
Proof.
  induction wcs as [|wc rest IH]; intros i values all w Hn; simpl.
  - by rewrite orb_false_r.
  - unfold putOne, accepts at 1.
    destruct (decide (i < n - 1)%nat) as [Hlt|Hge].
    + destruct (push values (queue wc)) as [[ok left] q'] eqn:Hp; simpl.
      specialize (IH (S i) values (if ok then true else all)
        (addStatValue (String.append kQueueSizeKey (getServiceName (client wc))) (q_size q')
           (if ok
            then addStatValue (String.append kEnqueuedKey (getServiceName (client wc))) numPoints w
            else addStatValue (String.append kEnqueueDroppedKey (getServiceName (client wc))) numPoints w))).
      destruct (putLoop _ _ _ _ _ _ _) as [[[rest' v''] all''] w''] eqn:Hl.
      simpl in *. rewrite IH by (simpl in Hn; lia).
      destruct ok, all; reflexivity.
    + assert (rest = []) as -> by (destruct rest; [done | simpl in Hn; lia]).
      destruct (push values (queue wc)) as [[ok left] q'] eqn:Hp; simpl.
      destruct ok, all; reflexivity.
Qed.

Lemma existsb_accepts values (wcs : list (WriteClient C Q)) :
  existsb (accepts values) wcs = true ↔ ∃ wc, wc ∈ wcs ∧ accepts values wc = true.
Proof.
  rewrite existsb_exists. split; intros (wc & Hin & Hacc); exists wc; split; auto.
  - by apply list_elem_of_In.
  - by apply list_elem_of_In.
Qed.

(** C9. [putDataPoints] on an empty vector returns true, touches no write
    queue and records no statistic (it only logs "Empty request"); the retry
    queue and its counter are untouched as well. *)
Theorem putDataPoints_empty (st : BeringeiClientImpl C Q) :
  let '(ret, values', st') := putDataPoints [] st in
  ret = true ∧ values' = [] ∧
  writeClients_ st' = writeClients_ st ∧
  stats (world st') = stats (world st) ∧
  logs (world st') = logs (world st) ++ [LogEmptyRequest] ∧
  retryQueue_ st' = retryQueue_ st ∧
  numRetryQueuedDataPoints_ st' = numRetryQueuedDataPoints_ st.
Proof. unfold putDataPoints. simpl. repeat split. Qed.

(** C1 (amended). For a non-empty batch, [putDataPoints] returns true
    exactly when the queue of at least one write client takes the batch; so
    it returns false when every queue refuses. *)
Theorem putDataPoints_true_iff_accepted
    (values : list DataPoint) (st : BeringeiClientImpl C Q) :
  values ≠ [] →
  (putDataPoints values st).1.1 = true
  ↔ ∃ wc, wc ∈ writeClients_ st ∧ accepts values wc = true.
Proof.
  intros Hne. unfold putDataPoints.
  destruct (decide (Z.of_nat (length values) = 0)) as [H0|_].
  { destruct values; [done | simpl in H0; lia]. }
  pose proof (putLoop_result (Z.of_nat (length values)) (length (writeClients_ st))
                (writeClients_ st) 0 values false (world st) eq_refl) as Hres.
  destruct (putLoop _ _ _ _ _ _ _) as [[[wcs v'] all] w] eqn:Hl.
  simpl in *. rewrite Hres. simpl. apply existsb_accepts.
Qed.
End PutProperties.

Lemma putDataPoints_true_iff_accepted_witness :
  [dp_a0; dp_a60] ≠ [] ∧
  ((putDataPoints [dp_a0; dp_a60] twoQueues).1.1 = true
   ↔ ∃ wc, wc ∈ writeClients_ twoQueues ∧ accepts [dp_a0; dp_a60] wc = true).
Proof.
  split; [discriminate|].
  apply (putDataPoints_true_iff_accepted [dp_a0; dp_a60] twoQueues). discriminate.
Defined.

Example putDataPoints_basic :
  (putDataPoints [dp_a0; dp_a60] twoQueues).1.1 = true ∧
  stats (world (putDataPoints [dp_a0; dp_a60] twoQueues).2)
  = [("gorilla_client.enqueue_dropped.svc1", Count 2);
     ("gorilla_client.queue_size.svc1", Count 10);
     ("gorilla_client.enqueued.svc2", Count 2);
     ("gorilla_client.queue_size.svc2", Count 1)].
Proof. split; reflexivity. Qed.

(** C1, as stated, fails on the empty batch: with the only queue full
    [putDataPoints] returns true although no queue takes the batch. *)
Lemma putDataPoints_empty_batch_counterexample :
  ¬ ((putDataPoints [] fullWriter).1.1 = true
     ↔ ∃ wc, wc ∈ writeClients_ fullWriter ∧ accepts [] wc = true).
Proof.
  intros [Hto _]. destruct (Hto eq_refl) as (wc & Hin & Hacc).
  apply list_elem_of_singleton in Hin. subst wc. vm_compute in Hacc. discriminate.
Qed.

(** ** Writer threads *)

Section ThreadProperties.
Context {C Q : Type} `{!BeringeiNetworkClient C} `{!RequestBatchingQueue Q}.

Lemma size_t_div_None a b : size_t_div a b = None ↔ b = 0%nat.
Proof. unfold size_t_div. destruct (decide (b = 0)%nat); split; intros; done. Qed.

Lemma stopWriters_defined fuel flags (st : BeringeiClientImpl C Q) :
  is_Some (stopWriters fuel flags st).
Proof.
  unfold stopWriters.
  destruct (decide (length (writeClients_ st) ≠ 0)%nat) as [Hne|Heq]; simpl.
  - unfold size_t_div. destruct (decide (length (writeClients_ st) = 0)%nat); [done|].
    simpl. destruct (joinWriterThreads _ _ _ _); eauto.
  - destruct (joinWriterThreads _ _ _ _); eauto.
Qed.

Lemma stopWriterThreads_defined fuel flags (st : BeringeiClientImpl C Q) :
  is_Some (stopWriterThreads fuel flags st).
Proof.
  unfold stopWriterThreads.
  destruct (stopWriters_defined fuel flags st) as [r ->]. simpl. eauto.
Qed.

(** C10. [flushQueue] divides by the number of write clients without a
    guard: it is undefined exactly when there is no write client, where the
    divisor is zero; [stopWriterThreads], which guards the same division, is
    always defined (it returns, or it waits for a thread that does not
    end). *)
Theorem flushQueue_undefined_iff_no_write_client
    (fuel : nat) (flags : Flags) (st : BeringeiClientImpl C Q) :
  (flushQueue fuel flags st = None ↔ writeClients_ st = []) ∧
  (size_t_div (length (writers_ st)) (length (writeClients_ st)) = None
   ↔ writeClients_ st = []) ∧
  is_Some (stopWriterThreads fuel flags st).
Proof.
  assert (Hdiv : size_t_div (length (writers_ st)) (length (writeClients_ st)) = None
                 ↔ writeClients_ st = []).
  { rewrite size_t_div_None. destruct (writeClients_ st); simpl; split; intros; done. }
  split; [|split; [exact Hdiv | apply stopWriterThreads_defined]].
  unfold flushQueue. split.
  - intros Hnone. apply Hdiv.
    destruct (size_t_div _ _) as [n|] eqn:Hd; [|done].
    simpl in Hnone. destruct (stopWriterThreads_defined fuel flags st) as [st' Hst'].
    rewrite Hst' in Hnone. done.
  - intros Hnil. apply Hdiv in Hnil. by rewrite Hnil.
Qed.
End ThreadProperties.

Example flushQueue_reader_undefined : flushQueue 1 defaultFlags readerOnly = None.
Proof. reflexivity. Qed.

Example stopWriterThreads_reader_defined :
  stopWriterThreads 1 defaultFlags readerOnly = Some (Returns readerOnly).
Proof. reflexivity. Qed.

(** Two writer threads and a retry thread are told to stop, end, and are
    started again: one writer thread for each write client and the retry
    threads of the flag. *)
Example flushQueue_writer_restarts :
  ∃ st', flushQueue 2 defaultFlags twoQueues = Some (Returns st') ∧
    writers_ st' = [WriterThread 0; WriterThread 1] ∧
    retryWriters_ st' = replicate 4 RetryThread ∧
    logs (world st') = [LogWriterShutdown; LogWriterShutdown; LogRetryShutdown].
Proof. eexists. split; [vm_compute; reflexivity|]. repeat split. Qed.

(** Fewer writer threads than write clients: the number of threads per
    write client is zero, the queues are flushed for no thread, the writer
    thread finds its queue empty and the call waits; so does [flushQueue]. *)
Example stopWriterThreads_waits :
  ∀ fuel, stopWriterThreads fuel defaultFlags fewThreads = Some Waits.
Proof. intros [|[|fuel]]; reflexivity. Qed.

Example flushQueue_waits :
  ∀ fuel, flushQueue fuel defaultFlags fewThreads = Some Waits.
Proof. intros [|[|fuel]]; reflexivity. Qed.

(** ** The write worker and the retry worker *)

Section WorkerProperties.
Context {C Q : Type} `{!BeringeiNetworkClient C} `{!RequestBatchingQueue Q}.

Lemma mod_2_64_small z : 0 ≤ z < 2 ^ 64 → z `mod` 2 ^ 64 = z.
Proof. intros. by apply Z.mod_small. Qed.

Ltac world_eq first :=
  cbv zeta; destruct first; simpl; case_decide; simpl; repeat split;
  rewrite <- ?app_assoc, ?app_nil_r; done.

(** C5. A turn of the write worker whose merged list of dropped points is
    not empty puts a [RetryOperation] due at now + the retry delay on the
    retry queue exactly when [pending + dropped < capacity] and the queue has
    room, and then increases the counter by the number of dropped points;
    otherwise queue and counter are unchanged, the drop is logged and the
    retry-queue-write-failures statistic is incremented. The counter and the
    capacity flag are taken to be non-negative and in the range of [size_t]. *)
Theorem writeIteration_retry_enqueue
    (flags : Flags) (idx : nat) (st : BeringeiClientImpl C Q) (wc : WriteClient C Q)
    (first : bool) (second : Z) (c1 : C) (requests : PutRequestMap)
    (locallyDropped : list DataPoint) (q1 : Q) :
  let serverDropped := (performPut requests (clock_us (world st)) c1).1 in
  let c2 := (performPut requests (clock_us (world st)) c1).2 in
  let merged := locallyDropped ++ serverDropped in
  let droppedCount := Z.of_nat (length merged) in
  let pending := numRetryQueuedDataPoints_ st in
  let rq := retryQueue_ st in
  let op := mkRetryOperation idx merged
              (time (world st) + gorilla_retry_delay_secs flags) in
  let shutdownLog := if first then [] else [LogWriterShutdown] in
  let putStats :=
    [(String.append kUsPerPut (getServiceName c2), Elapsed);
     (String.append kPutKey (getServiceName c2),
      Count (second - Z.of_nat (length serverDropped)))] in
  let queueStat :=
    [(String.append kQueueSizeKey (getServiceName c2), Count (q_size q1))] in
  writeClients_ st !! idx = Some wc →
  pop popVisitor (client wc, [], []) (queue wc)
  = Some (first, second, (c1, requests, locallyDropped), q1) →
  second ≠ 0 →
  merged ≠ [] →
  0 ≤ pending →
  0 ≤ gorilla_retry_queue_capacity flags < 2 ^ 64 →
  pending + droppedCount < 2 ^ 64 →
  ∃ st', writeIteration flags idx st = Some (first, st') ∧
    if decide (pending + droppedCount < gorilla_retry_queue_capacity flags
               ∧ (length (items rq) < capacity rq)%nat)
    then
      retryQueue_ st' = mkMPMCQueue (capacity rq) (items rq ++ [op]) ∧
      numRetryQueuedDataPoints_ st' = pending + droppedCount ∧
      logs (world st') = logs (world st) ++ shutdownLog ∧
      stats (world st')
      = stats (world st) ++ putStats
        ++ [(String.append kPutRetryKey (getServiceName c2), Count droppedCount);
            (kRetryQueueSizeKey, Count (pending + droppedCount))]
        ++ queueStat
    else
      retryQueue_ st' = rq ∧
      numRetryQueuedDataPoints_ st' = pending ∧
      logs (world st')
      = logs (world st) ++ shutdownLog
        ++ [LogDropping (droppedCount `mod` 2 ^ 32) (getServiceName c2)
              "retry queue is full"] ∧
      stats (world st')
      = stats (world st) ++ putStats
        ++ [(String.append kPutDroppedKey (getServiceName c2),
             Count (droppedCount `mod` 2 ^ 32));
            (kRetryQueueWriteFailures, Count 1)]
        ++ queueStat.
Proof.
  intros serverDropped c2 merged droppedCount pending rq op shutdownLog putStats queueStat
    Hwc Hpop Hsecond Hmerged Hpending Hcap Hsum.
  unfold writeIteration. rewrite Hwc. simpl. rewrite Hpop.
  destruct (decide (second = 0)) as [|_]; [done|].
  unfold putWithStats.
  replace (clock_us (if first then world st else LOG LogWriterShutdown (world st)))
    with (clock_us (world st)) by (by destruct first).
  destruct (performPut requests (clock_us (world st)) c1) as [dropped c2'] eqn:Hput.
  simpl in serverDropped, c2. subst serverDropped c2.
  fold merged.
  destruct (decide (0 < length merged)%nat) as [_|Hlen];
    [|destruct merged; [done | simpl in Hlen; lia]].
  unfold enqueueRetry. fold droppedCount. fold pending. fold rq.
  rewrite (mod_2_64_small (pending + droppedCount)) by lia.
  rewrite (mod_2_64_small (gorilla_retry_queue_capacity flags)) by lia.
  unfold mpmc_write. subst shutdownLog putStats queueStat.
  destruct (decide (pending + droppedCount >= gorilla_retry_queue_capacity flags))
    as [Hfull|Hroom].
  - eexists. split; [reflexivity|].
    destruct (decide (_ ∧ _)) as [[Hlt _]|_]; [lia|].
    world_eq first.
  - destruct (decide (length (items rq) < capacity rq)%nat) as [Hslot|Hnoslot].
    + eexists. split; [reflexivity|].
      destruct (decide (_ ∧ _)) as [_|Hno]; [|exfalso; apply Hno; split; [lia|done]].
      world_eq first.
    + eexists. split; [reflexivity|].
      destruct (decide (_ ∧ _)) as [[_ Hslot]|_]; [done|].
      world_eq first.
Qed.

Lemma time_addStatValue k v w : time (addStatValue k v w) = time w.
Proof. reflexivity. Qed.

Lemma time_addStatTimer k w : time (addStatTimer k w) = time w.
Proof. reflexivity. Qed.

Lemma time_LOG l w : time (LOG l w) = time w.
Proof. reflexivity. Qed.

Lemma time_logDroppedDataPoints (c : C) n msg w :
  time (logDroppedDataPoints c n msg w) = time w.
Proof. reflexivity. Qed.

Lemma time_sleep secs w : time (sleep secs w) = time w + secs.
Proof. unfold time, sleep. simpl. by rewrite Z.div_add. Qed.

(** C6. A retry worker that reads an operation with points: if the
    operation is due more than [kRetryThresholdSecs] seconds ago it is
    dropped with the log line "data points are too old", no client is
    touched and the clock is not advanced; otherwise the worker first sleeps
    until the operation is due (when that is in the future) and only then
    calls [performPut], once: the put is made at [sentAt], which is the
    second max(now, due), and that is where the clock stands when the turn
    ends; either way nothing goes back on the retry queue and the counter
    only goes down. *)
Theorem retryIteration_non_sentinel
    (st : BeringeiClientImpl C Q) (op : RetryOperation) (rq : MPMCQueue)
    (wc : WriteClient C Q) :
  let now := time (world st) in
  let n := Z.of_nat (length (dataPoints op)) in
  let pending := numRetryQueuedDataPoints_ st - n in
  let built := buildRetryRequest (dataPoints op) (client wc) [] 0 in
  let c1 := built.1.1 in
  let requestMap := built.1.2 in
  let locallyDropped := built.2 in
  let sentAt := clock_us (world st) + Z.max 0 (retryTimeSecs op - now) * 1000000 in
  let serverDropped := (performPut requestMap sentAt c1).1 in
  let c2 := (performPut requestMap sentAt c1).2 in
  let totalDropped := (locallyDropped + Z.of_nat (length serverDropped)) `mod` 2 ^ 32 in
  mpmc_blockingRead (retryQueue_ st) = Some (op, rq) →
  dataPoints op ≠ [] →
  writeClients_ st !! op_client op = Some wc →
  ∃ st', retryIteration st = Some (true, st') ∧
    retryQueue_ st' = rq ∧
    numRetryQueuedDataPoints_ st' = pending ∧
    if decide (retryTimeSecs op < now - kRetryThresholdSecs)
    then
      writeClients_ st' = writeClients_ st ∧
      clock_us (world st') = clock_us (world st) ∧
      logs (world st')
      = logs (world st)
        ++ [LogDropping (n `mod` 2 ^ 32) (getServiceName (client wc))
              "data points are too old"] ∧
      stats (world st')
      = stats (world st)
        ++ [(kRetryQueueSizeKey, Count pending);
            (String.append kPutDroppedKey (getServiceName (client wc)),
             Count (n `mod` 2 ^ 32))]
    else
      writeClients_ st'
      = <[op_client op := mkWriteClient c2 (queue wc)]> (writeClients_ st) ∧
      sentAt / 1000000 = Z.max now (retryTimeSecs op) ∧
      clock_us (world st') = sentAt ∧
      time (world st') = Z.max now (retryTimeSecs op) ∧
      logs (world st')
      = logs (world st)
        ++ (if decide (totalDropped > 0)
            then [LogDropping (totalDropped `mod` 2 ^ 32) (getServiceName c2)
                    "retry send failed"]
            else []) ∧
      stats (world st')
      = stats (world st)
        ++ [(kRetryQueueSizeKey, Count pending);
            (String.append kUsPerPut (getServiceName c2), Elapsed);
            (String.append kPutKey (getServiceName c2),
             Count (n - locallyDropped - Z.of_nat (length serverDropped)))]
        ++ (if decide (totalDropped > 0)
            then [(String.append kPutDroppedKey (getServiceName c2),
                   Count (totalDropped `mod` 2 ^ 32))]
            else []).
Proof.
  intros now n pending built c1 requestMap locallyDropped sentAt serverDropped c2
    totalDropped Hread Hne Hwc.
  assert (Hsent : sentAt / 1000000 = Z.max now (retryTimeSecs op)).
  { unfold sentAt, now, time. rewrite Z.div_add by done. fold (time (world st)). lia. }
  unfold retryIteration. rewrite Hread. simpl.
  assert (vec_empty (dataPoints op) = false) as -> by (by destruct (dataPoints op)).
  rewrite Hwc. simpl.
  change (time (addStatValue kRetryQueueSizeKey
            (numRetryQueuedDataPoints_ st - Z.of_nat (length (dataPoints op))) (world st)))
    with now.
  destruct (decide (retryTimeSecs op < now - kRetryThresholdSecs)) as [Hold|Hfresh].
  - eexists. split; [reflexivity|]. simpl. repeat split; by rewrite <- ?app_assoc.
  - unfold putWithStats.
    subst c1 requestMap locallyDropped serverDropped c2 totalDropped.
    destruct built as [[c1 requestMap] locallyDropped] eqn:Hbuilt. subst built.
    rewrite Hbuilt. simpl.
    set (w1 := addStatValue kRetryQueueSizeKey pending (world st)).
    assert (Hclock :
      clock_us (if decide (retryTimeSecs op > now)
                then sleep (retryTimeSecs op - now) w1 else w1) = sentAt).
    { unfold sentAt. destruct (decide (retryTimeSecs op > now)); simpl; [f_equal|]; lia. }
    unfold w1, pending, n in Hclock. rewrite Hclock.
    destruct (performPut requestMap sentAt c1) as [dropped c2] eqn:Hput. simpl.
    eexists. split; [reflexivity|]. simpl.
    split; [done|]. split; [done|]. split; [done|]. split; [exact Hsent|].
    match goal with
    | |- clock_us ?w = _ ∧ _ => assert (Hend : clock_us w = sentAt)
    end.
    { rewrite <- Hclock. by repeat case_decide. }
    split; [exact Hend|].
    split; [unfold time at 1; by rewrite Hend|].
    destruct (decide (retryTimeSecs op > now)); case_decide; simpl;
      split; rewrite <- ?app_assoc, ?app_nil_r; simpl; try done.
    all: repeat f_equal; lia.
Qed.
End WorkerProperties.

Lemma writeIteration_retry_enqueue_witness :
  ∃ st', writeIteration defaultFlags 0 busyWriter = Some (true, st') ∧
    retryQueue_ st' = mkMPMCQueue 10 [mkRetryOperation 0 [dp_lost; dp_b0] 155] ∧
    numRetryQueuedDataPoints_ st' = 2.
Proof.
  edestruct (writeIteration_retry_enqueue defaultFlags 0 busyWriter)
    as (st' & Hrun & Hres).
  - reflexivity.
  - vm_compute. reflexivity.
  - discriminate.
  - vm_compute. discriminate.
  - vm_compute. discriminate.
  - vm_compute. split; [discriminate | reflexivity].
  - vm_compute. reflexivity.
  - exists st'. split; [exact Hrun|].
    destruct (decide _) as [_|Hno] in Hres.
    + destruct Hres as (Hq & Hn & _). split; [exact Hq | exact Hn].
    + exfalso. apply Hno. vm_compute. split; [reflexivity | lia].
Defined.

Lemma retryIteration_non_sentinel_witness :
  ∃ st', retryIteration retryingWriter = Some (true, st') ∧
    clock_us (world st') = 155000000 ∧
    mock_puts ∘ client <$> writeClients_ st' = [[(155000000, [(mock_host, [dp_b0])])]] ∧
    retryQueue_ st' = mkMPMCQueue 10 [] ∧
    numRetryQueuedDataPoints_ st' = 0.
Proof.
  edestruct (retryIteration_non_sentinel retryingWriter) as (st' & Hrun & Hq & Hn & Hres).
  - reflexivity.
  - discriminate.
  - reflexivity.
  - exists st'. split; [exact Hrun|].
    destruct (decide _) as [Hold|_] in Hres.
    + exfalso. vm_compute in Hold. discriminate.
    + destruct Hres as (Hwcs & _ & Hclock & _).
      split; [exact Hclock|]. split; [by rewrite Hwcs|]. split; [exact Hq | exact Hn].
Defined.

(** A writer is stopped with a batch waiting: its writer thread sends the
    batch and hands the two dropped points to the retry queue, reads the
    marker and ends; the retry thread sends the two points again when they
    are due, drops what fails again, reads the shutdown operation and ends;
    then [stopWriterThreads] returns. *)
Example write_then_retry :
  ∃ st',
    stopWriterThreads 3 defaultFlags busyWriter = Some (Returns st') ∧
    writers_ st' = [] ∧ retryWriters_ st' = [] ∧
    retryQueue_ st' = mkMPMCQueue 10 [] ∧
    numRetryQueuedDataPoints_ st' = 0 ∧
    time (world st') = 155 ∧
    logs (world st')
    = [LogWriterShutdown; LogDropping 2 "svc1" "retry send failed"; LogRetryShutdown] ∧
    mock_puts ∘ client <$> writeClients_ st'
    = [[(100000000, [(mock_host, [dp_a0; dp_b0])]); (155100000, [(mock_host, [dp_b0])])]].
Proof. eexists. split; [vm_compute; reflexivity|]. repeat split. Qed.

Example retryIteration_too_old :
  retryIteration staleWriter
  = Some (true,
          mkImpl (writeClients_ staleWriter) [WriterThread 0] [RetryThread]
            (mkMPMCQueue 10 []) 0
            (mkWorld
               [("gorilla_client.retry_queue_size", Count 0);
                ("gorilla_client.put_dropped.svc1", Count 2)]
               [LogDropping 2 "svc1" "data points are too old"] 200000000)).
Proof. reflexivity. Qed.

(** ** The sequential read path: what one call of [getWithClient] does *)

Lemma extends_nil ip pd s : extends ip pd [] s s.
Proof. unfold extends, withVerdict. simpl. by rewrite !app_nil_r. Qed.

Lemma extends_app ip pd l1 l2 s s1 s2 :
  extends ip pd l1 s s1 → extends ip pd l2 s1 s2 → extends ip pd (l1 ++ l2) s s2.
Proof.
  unfold extends, withVerdict.
  intros (Hk1 & Hr1 & Hf1 & Hp1 & Hc1) (Hk2 & Hr2 & Hf2 & Hp2 & Hc2).
  rewrite !filter_app, !fmap_app, !app_assoc.
  rewrite Hk2, Hr2, Hf2, Hp2, Hc2, Hk1, Hr1, Hf1, Hp1, Hc1. done.
Qed.

Lemma extends_with_world ip pd l f s s' :
  extends ip pd l (with_world f s) s' → extends ip pd l s s'.
Proof. done. Qed.

Lemma classify_None fk ff ip pd k r s :
  classify fk ff ip pd k r s = None ↔ status r = BUCKET_NOT_FINALIZED.
Proof.
  unfold classify.
  destruct (status r), ip, pd; simpl; repeat case_decide; split; intros; done.
Qed.

Lemma classify_Some ip pd k r s s' :
  classify RequestKeys FailedKeys (ptr ip) (ptr pd) k r s = Some s' →
  status r ≠ BUCKET_NOT_FINALIZED ∧ extends ip pd [(k, r)] s s'.
Proof.
  unfold classify, extends, withVerdict, verdict. intros Hc.
  rewrite !filter_cons, !filter_nil. simpl.
  destruct (status r) eqn:Hs, ip, pd; simpl in Hc; repeat case_decide;
    simplify_eq; simpl; rewrite ?app_nil_r; done.
Qed.

Lemma processResults_None fk ff ip pd entries :
  ∀ s, processResults fk ff ip pd entries s = None
       ↔ Exists (λ p, status p.2 = BUCKET_NOT_FINALIZED) entries.
Proof.
  induction entries as [|[k r] rest IH]; intros s; simpl.
  - split; [done | by intros ?%Exists_nil].
  - rewrite Exists_cons. simpl.
    destruct (classify fk ff ip pd k r s) as [s1|] eqn:Hc; simpl.
    + rewrite IH. split; [by right|]. intros [Hb|?]; [|done].
      apply (classify_None fk ff ip pd k r s) in Hb. congruence.
    + apply classify_None in Hc. split; [by left | done].
Qed.

Lemma processResults_Some ip pd entries :
  ∀ s s', processResults RequestKeys FailedKeys (ptr ip) (ptr pd) entries s = Some s' →
          extends ip pd entries s s'.
Proof.
  induction entries as [|[k r] rest IH]; intros s s' Hp; simpl in Hp.
  - simplify_eq. apply extends_nil.
  - destruct (classify _ _ _ _ k r s) as [s1|] eqn:Hc; simpl in Hp; [|done].
    apply classify_Some in Hc as [_ Hext].
    apply (extends_app ip pd [(k, r)] rest s s1 s'); auto.
Qed.

Lemma processRequests_None fk ff ip pd requests :
  ∀ s, processRequests fk ff ip pd requests s = None
       ↔ Exists (λ p, status p.2 = BUCKET_NOT_FINALIZED) (visitedPairs requests).
Proof.
  unfold visitedPairs.
  induction requests as [|e rest IH]; intros s; simpl.
  - split; [done | by intros ?%Exists_nil].
  - rewrite Exists_app.
    destruct (processResults _ _ _ _ (entryPairs e) _) as [s2|] eqn:Hp; simpl.
    + rewrite IH. split; [by right|].
      intros [Hex|Hex]; [|done].
      epose proof (proj2 (processResults_None fk ff ip pd (entryPairs e) _) Hex) as Hn.
      by rewrite Hn in Hp.
    + apply processResults_None in Hp. split; [by left | done].
Qed.

Lemma processRequests_Some ip pd requests :
  ∀ s s', processRequests RequestKeys FailedKeys (ptr ip) (ptr pd) requests s = Some s' →
          extends ip pd (visitedPairs requests) s s'.
Proof.
  unfold visitedPairs.
  induction requests as [|e rest IH]; intros s s' Hp; simpl in Hp.
  - simplify_eq. apply extends_nil.
  - destruct (processResults _ _ _ _ (entryPairs e) _) as [s2|] eqn:Hr; simpl in Hp; [|done].
    apply processResults_Some in Hr. simpl.
    apply (extends_app ip pd (entryPairs e) _ s s2 s'); [|by apply IH].
    case_decide; [by eapply extends_with_world | done].
Qed.

Section ReadCalls.
Context {C : Type} `{!BeringeiNetworkClient C}.

Lemma getWithClient_None fk ff ip pd (c : C) request s :
  getWithClient c request fk ff ip pd s = None
  ↔ Exists (λ p, status p.2 = BUCKET_NOT_FINALIZED)
      (visitedPairs (call_requests (theCall c request))).
Proof.
  unfold getWithClient, theCall. simpl.
  destruct (fetch c request) as [requests c'] eqn:Hf. simpl.
  rewrite <- (processRequests_None fk ff ip pd requests
    (mkReadState (result s) (vecs s) (rworld s)
       (calls s ++ [mkGetCall (getServiceName c) (keys request) requests]))).
  destruct (processRequests _ _ _ _ _ _); simpl; split; intros; done.
Qed.

Lemma getWithClient_Some ip pd (c c' : C) request s s' :
  getWithClient c request RequestKeys FailedKeys (ptr ip) (ptr pd) s = Some (c', s') →
  c' = (fetch c request).2 ∧
  calls s' = calls s ++ [theCall c request] ∧
  extends ip pd (visitedPairs (call_requests (theCall c request)))
    (mkReadState (result s) (vecs s) (rworld s) (calls s ++ [theCall c request])) s'.
Proof.
  unfold getWithClient, theCall. simpl.
  destruct (fetch c request) as [requests c1] eqn:Hf. simpl.
  destruct (processRequests _ _ _ _ _ _) as [s2|] eqn:Hp; simpl; [|done].
  intros [= <- <-]. apply processRequests_Some in Hp.
  split; [done|]. split; [|done].
  by destruct Hp as (_ & _ & _ & _ & ->).
Qed.
End ReadCalls.

(** ** The anatomy of a turn of [get] *)

Section ReadIteration.
Context {C : Type} `{!BeringeiNetworkClient C}.

Lemma vec_empty_true {A} (l : list A) : vec_empty l = true ↔ l = [].
Proof. destruct l; simpl; split; intros; done. Qed.

Lemma both_empty_true s :
  both_empty s = true ↔ failedKeys (vecs s) = [] ∧ partialKeys (vecs s) = [].
Proof. unfold both_empty. by rewrite andb_true_iff, !vec_empty_true. Qed.

(** The anatomy of a turn that does not abort: one call, or a call and the
    retry on the same client with the failed keys. *)
Lemma getIteration_run strict ks n i (c : C) cr s step :
  let last := bool_decide (i = n - 1)%nat in
  let ip := strict || negb last in
  let pd := negb last in
  getIteration strict ks n i c cr s = step →
  step ≠ Abort →
  ∃ c1 s2,
    getWithClient c cr RequestKeys FailedKeys (ptr ip) (ptr pd) (startIteration i c s)
    = Some (c1, s2) ∧
    ((failedKeys (vecs s2) = [] ∧ step = finishIteration strict ks last cr s2)
     ∨ (failedKeys (vecs s2) ≠ [] ∧
        ∃ c3 s4,
          getWithClient
            (invalidateCache (list_to_set (shardId <$> failedKeys (vecs s2))) c1)
            (retryRequest cr s2) RequestKeys FailedKeys (ptr ip) (ptr pd) (retryState s2)
          = Some (c3, s4) ∧
          step = finishIteration strict ks last (retryRequest cr s2) s4)).
Proof.
  intros last ip pd Hstep Hna. unfold getIteration in Hstep.
  change (inProgressArg strict (bool_decide (i = n - 1)%nat)) with (ptr ip) in Hstep.
  change (partialDataArg (bool_decide (i = n - 1)%nat)) with (ptr pd) in Hstep.
  destruct (getWithClient c cr _ _ _ _ _) as [[c1 s2]|] eqn:H1; [|congruence].
  exists c1, s2. split; [done|].
  destruct (both_empty s2) eqn:Hbe.
  - left. apply both_empty_true in Hbe as Hbe'. destruct Hbe' as [Hf Hp].
    split; [done|]. unfold finishIteration. by rewrite Hbe.
  - destruct (vec_empty (failedKeys (vecs s2))) eqn:Hve; simpl in Hstep.
    + left. by apply vec_empty_true in Hve.
    + right. split; [intros Hnil; by rewrite Hnil in Hve|].
      destruct (getWithClient _ (retryRequest cr s2) _ _ _ _ _) as [[c3 s4]|] eqn:H2;
        [|congruence].
      by exists c3, s4.
Qed.

Lemma finishIteration_stepState strict ks last cr s :
  stepState (finishIteration strict ks last cr s) = Some s.
Proof. unfold finishIteration. destruct (both_empty s), (last && strict); done. Qed.

Lemma finishIteration_state strict ks last cr s step :
  finishIteration strict ks last cr s = step →
  match step with
  | Break s' => s' = s ∧ both_empty s = true
  | Continue cr' s' =>
      s' = s ∧ both_empty s = false ∧ last && strict = false ∧ cr' = nextRequest ks cr s
  | Throw _ s' => s' = s ∧ both_empty s = false ∧ last = true ∧ strict = true
  | Abort => False
  end.
Proof.
  unfold finishIteration. intros <-.
  destruct (both_empty s); [done|].
  destruct last, strict; done.
Qed.

(** The state a turn ends in is the state after its last call. *)
Lemma getIteration_end strict ks n i (c : C) cr s s' :
  let last := bool_decide (i = n - 1)%nat in
  let ip := strict || negb last in
  let pd := negb last in
  stepState (getIteration strict ks n i c cr s) = Some s' →
  ∃ c1 s2,
    getWithClient c cr RequestKeys FailedKeys (ptr ip) (ptr pd) (startIteration i c s)
    = Some (c1, s2) ∧
    ((failedKeys (vecs s2) = [] ∧ s' = s2)
     ∨ (failedKeys (vecs s2) ≠ [] ∧
        ∃ c3,
          getWithClient
            (invalidateCache (list_to_set (shardId <$> failedKeys (vecs s2))) c1)
            (retryRequest cr s2) RequestKeys FailedKeys (ptr ip) (ptr pd) (retryState s2)
          = Some (c3, s'))).
Proof.
  intros last ip pd Hst.
  destruct (getIteration_run strict ks n i c cr s _ eq_refl) as (c1 & s2 & H1 & Hrest).
  { intros Hab. by rewrite Hab in Hst. }
  exists c1, s2. split; [done|].
  destruct Hrest as [[Hf Hstep]|(Hf & c3 & s4 & H2 & Hstep)];
    rewrite Hstep, finishIteration_stepState in Hst; simplify_eq.
  - by left.
  - right. split; [done|]. by exists c3.
Qed.

Lemma getIteration_Continue strict ks n i (c : C) cr s cr' s' :
  getIteration strict ks n i c cr s = Continue cr' s' →
  both_empty s' = false ∧
  bool_decide (i = n - 1)%nat && strict = false ∧
  keys cr' = restoreShardId ks <$> (failedKeys (vecs s') ++ partialKeys (vecs s')).
Proof.
  intros Hit.
  destruct (getIteration_run strict ks n i c cr s _ Hit) as (c1 & s2 & H1 & Hrest); [done|].
  destruct Hrest as [[_ Hstep]|(_ & c3 & s4 & H2 & Hstep)];
    symmetry in Hstep; apply finishIteration_state in Hstep as (-> & Hbe & Hl & ->); done.
Qed.
End ReadIteration.

(** ** The result grows in step with the found keys *)

Lemma grows_refl s : grows s s.
Proof. exists [], [], []. rewrite !app_nil_r. repeat split; constructor. Qed.

Lemma answered_mono cs cs' k r :
  cs ⊆ cs' → answered cs k r → answered cs' k r.
Proof. intros Hsub (call & Hin & Hp). exists call. split; [by apply Hsub | done]. Qed.

Lemma grows_trans s1 s2 s3 : grows s1 s2 → grows s2 s3 → grows s1 s3.
Proof.
  intros (K1 & R1 & cs1 & Hk1 & Hr1 & Hc1 & Ha1 & Hf1)
         (K2 & R2 & cs2 & Hk2 & Hr2 & Hc2 & Ha2 & Hf2).
  exists (K1 ++ K2), (R1 ++ R2), (cs1 ++ cs2).
  rewrite Hk2, Hr2, Hc2, Hk1, Hr1, Hc1, !app_assoc.
  repeat split; [|by apply Forall_app].
  apply Forall2_app.
  - eapply Forall2_impl; [exact Ha1|]. intros k r [Ha Hs]. split; [|done].
    eapply answered_mono; [|exact Ha]. intros x Hx. apply elem_of_app. by left.
  - eapply Forall2_impl; [exact Ha2|]. intros k r [Ha Hs]. split; [|done].
    eapply answered_mono; [|exact Ha]. intros x Hx. apply elem_of_app. by right.
Qed.

Lemma grows_same_view_l s0 s s' : same_view s0 s → grows s s' → grows s0 s'.
Proof.
  intros (Hk & Hr & Hc) (K & R & cs & Hk' & Hr' & Hc' & Ha & Hf).
  exists K, R, cs. by rewrite Hk', Hr', Hc', Hk, Hr, Hc.
Qed.

Lemma verdict_Accepted_successful ip pd r : verdict ip pd r = Accepted → successful r.
Proof.
  unfold verdict, successful.
  destruct (status r) eqn:Hs, ip, pd; repeat case_decide; try done; intros _; eauto.
  all: right; split; eauto; destruct (data r); simpl in *; [lia | done].
Qed.

Lemma Forall2_withVerdict_Accepted ip pd (P : list (Key * TimeSeriesData)) Q :
  (∀ p, p ∈ P → Q p.1 p.2) →
  Forall2 (λ k r, Q k r ∧ successful r)
    (withVerdict Accepted ip pd P).*1 (withVerdict Accepted ip pd P).*2.
Proof.
  intros HQ. unfold withVerdict.
  apply Forall2_fmap, Forall_Forall2_diag, Forall_forall.
  intros [k r] [Hv Hin]%list_elem_of_filter. simpl in *. split.
  - by apply (HQ (k, r)).
  - by eapply verdict_Accepted_successful.
Qed.

Section ReadGrowth.
Context {C : Type} `{!BeringeiNetworkClient C}.

Lemma getWithClient_grows ip pd (c c' : C) request s s' :
  getWithClient c request RequestKeys FailedKeys (ptr ip) (ptr pd) s = Some (c', s') →
  grows s s'.
Proof.
  intros Hg.
  assert (Hfin : finalized (theCall c request)).
  { intros Hex. apply (getWithClient_None RequestKeys FailedKeys (ptr ip) (ptr pd) c request s) in Hex. congruence. }
  apply getWithClient_Some in Hg as (_ & Hc & Hk & Hr & _ & _ & _).
  simpl in Hk, Hr.
  eexists _, _, [theCall c request]. split; [exact Hk|]. split; [exact Hr|].
  split; [exact Hc|]. split; [|by constructor].
  apply Forall2_withVerdict_Accepted. intros [k r] Hin.
  exists (theCall c request). split; [by apply list_elem_of_singleton | done].
Qed.

Lemma startIteration_same_view i (c : C) s : same_view s (startIteration i c s).
Proof. unfold startIteration, same_view. by case_decide. Qed.

Lemma retryState_same_view s : same_view s (retryState s).
Proof. done. Qed.

Lemma getIteration_grows strict ks n i (c : C) cr s s' :
  stepState (getIteration strict ks n i c cr s) = Some s' → grows s s'.
Proof.
  intros Hst.
  destruct (getIteration_run strict ks n i c cr s _ eq_refl) as (c1 & s2 & H1 & Hrest).
  { intros Habort. by rewrite Habort in Hst. }
  apply getWithClient_grows in H1.
  apply (grows_same_view_l s) in H1; [|apply startIteration_same_view].
  destruct Hrest as [[_ Hstep]|(_ & c3 & s4 & H2 & Hstep)];
    rewrite Hstep, finishIteration_stepState in Hst; simplify_eq; [done|].
  apply getWithClient_grows in H2.
  eapply grows_trans; [exact H1|].
  eapply grows_same_view_l; [apply retryState_same_view | exact H2].
Qed.

Lemma getLoop_grows strict ks n clients :
  ∀ i cr s s',
    (getLoop strict ks n i clients cr s = Returned s'
     ∨ ∃ what, getLoop strict ks n i clients cr s = Thrown what s') →
    grows s s'.
Proof.
  induction clients as [|c rest IH]; intros i cr s s' Hout; simpl in Hout.
  - destruct Hout as [[= <-]|[what [=]]]. apply grows_refl.
  - pose proof (getIteration_grows strict ks n i c cr s) as Hit.
    destruct (getIteration strict ks n i c cr s) as [s1|cr1 s1|what1 s1|]; simpl in Hit.
    + destruct Hout as [[= <-]|[what [=]]]. by apply Hit.
    + eapply grows_trans; [by apply Hit|]. by eapply IH.
    + destruct Hout as [[=]|[what [= _ <-]]]. by apply Hit.
    + destruct Hout as [[=]|[what [=]]].
Qed.
End ReadGrowth.

(** ** The turns of a read *)

Lemma vec_empty_app {A} (l1 l2 : list A) :
  vec_empty (l1 ++ l2) = vec_empty l1 && vec_empty l2.
Proof. by destruct l1. Qed.

Lemma bind_nil {A B} (f : A → list B) : [] ≫= f = [].
Proof. done. Qed.

Lemma failovers_LOG l w :
  failovers (LOG l w)
  = failovers w ++ match l with LogRetryingOther service => [service] | _ => [] end.
Proof. unfold failovers, LOG. simpl. rewrite omap_app. by destruct l. Qed.

Lemma failoverCount_LOG l w : failoverCount (LOG l w) = failoverCount w.
Proof. done. Qed.

Lemma failovers_addStatValue k v w : failovers (addStatValue k v w) = failovers w.
Proof. done. Qed.

Lemma failoverCount_addStatValue k v w :
  failoverCount (addStatValue k v w)
  = (failoverCount w + if decide (k = kReadFailover) then 1 else 0)%nat.
Proof.
  unfold failoverCount, addStatValue. simpl. rewrite filter_app, length_app.
  rewrite filter_cons. simpl. by destruct (decide (k = kReadFailover)).
Qed.

Lemma classify_failovers fk ff ip pd k r s s' :
  classify fk ff ip pd k r s = Some s' →
  failovers (rworld s') = failovers (rworld s) ∧
  failoverCount (rworld s') = failoverCount (rworld s).
Proof.
  unfold classify. intros Hc.
  destruct (status r); try done; try (by simplify_eq).
  - destruct ip; [by simplify_eq|]. destruct (decide _); by simplify_eq.
  - destruct pd as [p|].
    + simplify_eq. simpl. rewrite failovers_LOG, failoverCount_LOG, app_nil_r.
      rewrite failovers_addStatValue, failoverCount_addStatValue.
      rewrite decide_False by (by compute). split; [done | lia].
    + assert (∀ b, failovers (LOG (LogRedirectDisallowed b)
                      (addStatValue kRedirectForMissingData 1 (rworld s)))
                   = failovers (rworld s)
                   ∧ failoverCount (LOG (LogRedirectDisallowed b)
                       (addStatValue kRedirectForMissingData 1 (rworld s)))
                     = failoverCount (rworld s)) as Hw.
      { intros b. rewrite failovers_LOG, failoverCount_LOG, app_nil_r.
        rewrite failovers_addStatValue, failoverCount_addStatValue.
        rewrite decide_False by (by compute). split; [done | lia]. }
      destruct (decide _); simplify_eq; simpl; apply Hw.
Qed.

Lemma processResults_failovers fk ff ip pd entries :
  ∀ s s', processResults fk ff ip pd entries s = Some s' →
          failovers (rworld s') = failovers (rworld s) ∧
          failoverCount (rworld s') = failoverCount (rworld s).
Proof.
  induction entries as [|[k r] entries IH]; intros s s' Hp; simpl in Hp;
    [by simplify_eq|].
  destruct (classify fk ff ip pd k r s) as [s1|] eqn:Hc; [|done]. simpl in Hp.
  destruct (IH s1 s' Hp) as [-> ->]. by eapply classify_failovers.
Qed.

Lemma processRequests_failovers fk ff ip pd requests :
  ∀ s s', processRequests fk ff ip pd requests s = Some s' →
          failovers (rworld s') = failovers (rworld s) ∧
          failoverCount (rworld s') = failoverCount (rworld s).
Proof.
  induction requests as [|e requests IH]; intros s s' Hp; [simpl in Hp; by simplify_eq|].
  cbn [processRequests] in Hp.
  destruct (processResults _ _ _ _ _ _) as [s1|] eqn:Hr; [|done]. simpl in Hp.
  destruct (IH s1 s' Hp) as [-> ->].
  destruct (processResults_failovers _ _ _ _ _ _ _ Hr) as [-> ->].
  destruct (decide _); [|done]. simpl.
  by rewrite failovers_LOG, failoverCount_LOG, app_nil_r.
Qed.

Section ReadTurnsTold.
Context {C : Type} `{!BeringeiNetworkClient C}.

Lemma getWithClient_failovers fk ff ip pd (c c' : C) request s s' :
  getWithClient c request fk ff ip pd s = Some (c', s') →
  failovers (rworld s') = failovers (rworld s) ∧
  failoverCount (rworld s') = failoverCount (rworld s).
Proof.
  unfold getWithClient. intros Hg.
  destruct (fetch c request) as [requests c1].
  destruct (processRequests _ _ _ _ _ _) as [s2|] eqn:Hp; [|done].
  simpl in Hg. simplify_eq. by apply processRequests_failovers in Hp.
Qed.

Lemma startIteration_failovers i (c : C) s :
  failovers (rworld (startIteration i c s))
  = failovers (rworld s) ++ (if decide (0 < i)%nat then [getServiceName c] else []) ∧
  failoverCount (rworld (startIteration i c s))
  = (failoverCount (rworld s) + if decide (0 < i)%nat then 1 else 0)%nat.
Proof.
  unfold startIteration. destruct (decide (0 < i)%nat); simpl.
  - rewrite failovers_LOG, failoverCount_LOG.
    rewrite failovers_addStatValue, failoverCount_addStatValue.
    by rewrite decide_True.
  - rewrite app_nil_r. split; [done | lia].
Qed.

Lemma getIteration_failovers strict ks n i (c : C) cr s s' :
  stepState (getIteration strict ks n i c cr s) = Some s' →
  failovers (rworld s')
  = failovers (rworld s) ++ (if decide (0 < i)%nat then [getServiceName c] else []) ∧
  failoverCount (rworld s')
  = (failoverCount (rworld s) + if decide (0 < i)%nat then 1 else 0)%nat.
Proof.
  intros Hstep.
  destruct (getIteration_end strict ks n i c cr s s' Hstep) as (c1 & s2 & Hg1 & Hrest).
  destruct (getWithClient_failovers _ _ _ _ _ _ _ _ _ Hg1) as [Hf1 Hn1].
  destruct (startIteration_failovers i c s) as [Hf0 Hn0].
  destruct Hrest as [[_ ->]|(_ & c3 & Hg2)].
  - by rewrite Hf1, Hn1.
  - destruct (getWithClient_failovers _ _ _ _ _ _ _ _ _ Hg2) as [Hf2 Hn2].
    simpl in Hf2, Hn2. by rewrite Hf2, Hn2, Hf1, Hn1.
Qed.

Lemma turnOf_calls ip pd (c : C) cr :
  ∃ rest, turn_calls (turnOf ip pd c cr) = theCall c cr :: rest ∧ (length rest ≤ 1)%nat.
Proof.
  unfold turnOf. destruct (vec_empty _); simpl; eexists; split; try done; simpl; lia.
Qed.

Lemma turnOf_accepted ip pd (c : C) cr :
  Forall2 (λ k r, answered (turn_calls (turnOf ip pd c cr)) k r ∧ successful r)
    (turn_accepted (turnOf ip pd c cr)).*1 (turn_accepted (turnOf ip pd c cr)).*2.
Proof.
  unfold turnOf. destruct (vec_empty _); simpl.
  - apply Forall2_withVerdict_Accepted. intros [k r] Hin.
    eexists. split; [by apply list_elem_of_singleton | done].
  - rewrite !fmap_app. apply Forall2_app; apply Forall2_withVerdict_Accepted.
    + intros [k r] Hin. eexists. split; [by left | done].
    + intros [k r] Hin. eexists. split; [right; by left | done].
Qed.

(** A turn of the loop of [get] is the turn told from the answers. *)
Lemma getIteration_turnOf strict ks n i (c : C) cr s :
  let last := bool_decide (i = n - 1)%nat in
  let t := turnOf (strict || negb last) (negb last) c cr in
  (Exists unfinalized (turn_calls t) ∧ getIteration strict ks n i c cr s = Abort)
  ∨ (Forall finalized (turn_calls t) ∧
     ∃ s',
       request_keys (vecs s') = request_keys (vecs s) ++ (turn_accepted t).*1 ∧
       results (result s') = results (result s) ++ (turn_accepted t).*2 ∧
       failedKeys (vecs s') = turn_failed t ∧
       partialKeys (vecs s') = turn_partial t ∧
       calls s' = calls s ++ turn_calls t ∧
       getIteration strict ks n i c cr s
       = if vec_empty (residual t) then Break s'
         else if last && strict then Throw "Failed reading data from gorilla" s'
         else Continue (mkGetDataRequest (restoreShardId ks <$> residual t)
                          (begin_ cr) (end_ cr)) s').
Proof.
  intros last t. subst t.
  set (ip := strict || negb last). set (pd := negb last).
  assert (Hstart : vecs (startIteration i c s) = mkKeyVectors (request_keys (vecs s)) [] []
                   ∧ calls (startIteration i c s) = calls s
                   ∧ result (startIteration i c s) = result s).
  { unfold startIteration. by case_decide. }
  destruct Hstart as (Hv0 & Hc0 & Hr0).
  unfold getIteration. fold last.
  change (inProgressArg strict last) with (ptr ip).
  change (partialDataArg last) with (ptr pd).
  destruct (getWithClient c cr RequestKeys FailedKeys (ptr ip) (ptr pd) (startIteration i c s))
    as [[c1 s2]|] eqn:H1.
  2:{ left. split; [|done]. apply getWithClient_None in H1.
      destruct (turnOf_calls ip pd c cr) as (rest & -> & _). by left. }
  assert (Hfin1 : finalized (theCall c cr)).
  { intros Hun.
    apply (getWithClient_None RequestKeys FailedKeys (ptr ip) (ptr pd) c cr
             (startIteration i c s)) in Hun. congruence. }
  destruct (getWithClient_Some ip pd c c1 cr _ s2 H1) as (Hc1 & Hcalls1 & Hext1).
  destruct Hext1 as (Hk1 & Hres1 & Hf1 & Hp1 & _).
  cbn [vecs result] in Hk1, Hres1, Hf1, Hp1.
  rewrite Hv0 in Hk1, Hf1, Hp1. rewrite Hr0 in Hres1. rewrite Hc0 in Hcalls1.
  cbn [request_keys failedKeys partialKeys app] in Hk1, Hf1, Hp1.
  unfold turnOf.
  set (pairs1 := visitedPairs (call_requests (theCall c cr))) in *.
  set (failed1 := (withVerdict Failed ip pd pairs1).*1) in *.
  destruct (vec_empty failed1) eqn:Hve.
  - (* no failed key after the first call *)
    right. unfold residual. cbn [turn_calls turn_accepted turn_failed turn_partial app].
    split; [by constructor|].
    exists s2. split; [done|]. split; [done|].
    apply vec_empty_true in Hve. split; [by rewrite Hf1, Hve|]. split; [done|].
    split; [done|].
    unfold both_empty. rewrite Hf1, Hp1, Hve. simpl.
    destruct (vec_empty (withVerdict Partial ip pd pairs1).*1) eqn:Hvp; [done|].
    unfold finishIteration, both_empty. rewrite Hf1, Hp1, Hve. simpl. rewrite Hvp.
    unfold nextRequest. by rewrite Hf1, Hp1, Hve.
  - (* the retry *)
    assert (Hbe : both_empty s2 = false).
    { unfold both_empty. by rewrite Hf1, Hve. }
    rewrite Hbe, Hf1, Hve. cbn [negb].
    assert (Hreq : retryRequest cr s2 = mkGetDataRequest failed1 (begin_ cr) (end_ cr)).
    { unfold retryRequest. by rewrite Hf1. }
    rewrite Hreq, Hc1.
    set (c2 := invalidateCache (list_to_set (shardId <$> failed1)) (fetch c cr).2).
    set (cr2 := mkGetDataRequest failed1 (begin_ cr) (end_ cr)).
    unfold residual. cbn [turn_calls turn_accepted turn_failed turn_partial].
    destruct (getWithClient c2 cr2 RequestKeys FailedKeys (ptr ip) (ptr pd) (retryState s2))
      as [[c3 s4]|] eqn:H2.
    2:{ left. split; [|done]. apply getWithClient_None in H2. right. by left. }
    assert (Hfin2 : finalized (theCall c2 cr2)).
    { intros Hun.
      apply (getWithClient_None RequestKeys FailedKeys (ptr ip) (ptr pd) c2 cr2
               (retryState s2)) in Hun. congruence. }
    destruct (getWithClient_Some ip pd c2 c3 cr2 _ s4 H2) as (_ & Hcalls2 & Hext2).
    destruct Hext2 as (Hk2 & Hres2 & Hf2 & Hp2 & _).
    cbn [retryState vecs result calls request_keys failedKeys partialKeys app]
      in Hk2, Hres2, Hf2, Hp2, Hcalls2.
    right. split; [by repeat constructor|].
    exists s4.
    split; [by rewrite Hk2, Hk1, fmap_app, app_assoc|].
    split; [by rewrite Hres2, Hres1, fmap_app, app_assoc|].
    split; [done|]. split; [by rewrite Hp2, Hp1|].
    split; [by rewrite Hcalls2, Hcalls1, <- app_assoc|].
    unfold finishIteration, both_empty, nextRequest.
    rewrite Hf2, Hp2, Hp1, <- vec_empty_app. simpl. done.
Qed.

(** The shape of the turns: they go through the read clients in order, all
    but the last turn leave keys, and a last turn that leaves keys is the
    turn of the last read client. *)
Lemma readTurns_shape strict ks (clients : list C) :
  ∀ cr,
    let T := readTurns strict ks clients cr in
    T.*1 `prefix_of` clients ∧
    (clients ≠ [] → T ≠ []) ∧
    (∀ ct, last T = Some ct → residual ct.2 ≠ [] → T.*1 = clients) ∧
    Forall (λ ct, ∃ call rest, turn_calls ct.2 = call :: rest ∧
                    call_service call = getServiceName ct.1 ∧ (length rest ≤ 1)%nat) T.
Proof.
  induction clients as [|c rest IH]; intros cr T; subst T.
  - simpl. split; [done|]. split; [done|]. split; [done | constructor].
  - cbn [readTurns].
    set (t := turnOf _ _ c cr).
    assert (Hhead : ∃ call more, turn_calls t = call :: more ∧
              call_service call = getServiceName c ∧ (length more ≤ 1)%nat).
    { destruct (turnOf_calls (strict || negb (vec_empty rest)) (negb (vec_empty rest)) c cr)
        as (more & Hcalls & Hlen).
      exists (theCall c cr), more. done. }
    destruct (vec_empty (residual t)) eqn:Hve.
    + simpl. split; [by apply prefix_cons, prefix_nil|]. split; [done|].
      split; [|by repeat constructor].
      intros ct [= <-] Hres. apply vec_empty_true in Hve. done.
    + destruct (IH (mkGetDataRequest (restoreShardId ks <$> residual t)
                      (begin_ cr) (end_ cr))) as (Hpre & Hne & Hlast & Hall).
      rewrite fmap_cons. split; [by apply prefix_cons|]. split; [done|].
      split; [|by constructor].
      intros ct Hl Hres.
      destruct rest as [|c' rest'].
      * simpl in *. by simplify_eq.
      * destruct (readTurns strict ks (c' :: rest') _) as [|ct' T'] eqn:HT.
        { exfalso. by apply Hne. }
        f_equal. apply (Hlast ct); [|done]. by rewrite last_cons_cons in Hl.
Qed.

(** The loop of [get] runs the turns told from the answers. *)
Lemma getLoop_readTurns strict ks (clients : list C) :
  ∀ n i cr s,
    n = (i + length clients)%nat →
    let T := readTurns strict ks clients cr in
    (Exists unfinalized (T ≫= turn_calls ∘ snd) ∧
     getLoop strict ks n i clients cr s = Aborted)
    ∨ (Forall finalized (T ≫= turn_calls ∘ snd) ∧
       ∃ s',
         request_keys (vecs s')
         = request_keys (vecs s) ++ (T ≫= turn_accepted ∘ snd).*1 ∧
         results (result s') = results (result s) ++ (T ≫= turn_accepted ∘ snd).*2 ∧
         calls s' = calls s ++ (T ≫= turn_calls ∘ snd) ∧
         match last T with
         | None => s' = s
         | Some ct =>
             failedKeys (vecs s') = turn_failed ct.2 ∧
             partialKeys (vecs s') = turn_partial ct.2
         end ∧
         failovers (rworld s')
         = failovers (rworld s)
           ++ (getServiceName <$> (if decide (0 < i)%nat then T.*1 else tail T.*1)) ∧
         failoverCount (rworld s')
         = (failoverCount (rworld s)
            + if decide (0 < i)%nat then length T else length T - 1)%nat ∧
         getLoop strict ks n i clients cr s
         = if strict && negb (vec_empty (default [] (residual ∘ snd <$> last T)))
           then Thrown "Failed reading data from gorilla" s'
           else Returned s').
Proof.
  induction clients as [|c rest IH]; intros n i cr s Hn T; subst T.
  - right. simpl. split; [constructor|]. exists s.
    rewrite !app_nil_r, andb_false_r.
    split_and!; try done; by destruct (decide (0 < i)%nat); simpl; try lia; rewrite ?app_nil_r.
  - cbn [readTurns getLoop].
    assert (Hlast : bool_decide (i = n - 1)%nat = vec_empty rest).
    { destruct rest; simpl in *.
      - apply bool_decide_eq_true_2. lia.
      - apply bool_decide_eq_false_2. lia. }
    pose proof (getIteration_turnOf strict ks n i c cr s) as Hturn.
    cbv zeta in Hturn. rewrite Hlast in Hturn.
    set (t := turnOf (strict || negb (vec_empty rest)) (negb (vec_empty rest)) c cr) in *.
    clearbody t.
    destruct Hturn as [[Hun Hab]|(Hfin & s1 & Hk1 & Hr1 & Hf1 & Hp1 & Hc1 & Hit)].
    { left. rewrite Hab. split; [|done]. rewrite bind_cons. apply Exists_app. by left. }
    assert (Hfo : failovers (rworld s1)
                  = failovers (rworld s)
                    ++ (if decide (0 < i)%nat then [getServiceName c] else []) ∧
                  failoverCount (rworld s1)
                  = (failoverCount (rworld s) + if decide (0 < i)%nat then 1 else 0)%nat).
    { apply (getIteration_failovers strict ks n i c cr s s1). rewrite Hit.
      destruct (vec_empty (residual t)); [done|]. by destruct (_ && _). }
    destruct Hfo as [Hfo Hfc].
    rewrite Hit.
    destruct (vec_empty (residual t)) eqn:Hve.
    + (* the turn settles everything *)
      right. rewrite bind_cons, bind_nil. simpl. rewrite !app_nil_r, Hve, andb_false_r.
      split; [done|]. exists s1.
      split; [done|]. split; [done|]. split; [done|]. split; [done|].
      split; [rewrite Hfo; by destruct (decide (0 < i)%nat)|].
      split; [|done].
      rewrite Hfc. destruct (decide (0 < i)%nat); simpl; lia.
    + destruct rest as [|c' rest'].
      * (* the last read client leaves keys *)
        right. cbn [readTurns]. rewrite bind_cons, bind_nil. simpl.
        rewrite !app_nil_r, Hve.
        split; [done|]. exists s1.
        split; [done|]. split; [done|]. split; [done|]. split; [done|].
        split; [rewrite Hfo; by destruct (decide (0 < i)%nat)|].
        split; [rewrite Hfc; destruct (decide (0 < i)%nat); simpl; lia|].
        by destruct strict.
      * (* on to the next read client *)
        cbn [vec_empty negb andb] in Hit |- *.
        set (cr1 := mkGetDataRequest (restoreShardId ks <$> residual t) (begin_ cr) (end_ cr))
          in *.
        destruct (IH n (S i) cr1 s1)
          as [[Hun Hab]|(Hfin' & s' & Hk & Hr & Hc & Hl & Hf & Hn' & Hloop)].
        { simpl in Hn |- *. lia. }
        { left. split; [|done]. rewrite bind_cons. apply Exists_app. by right. }
        right. rewrite bind_cons. split; [by apply Forall_app|].
        exists s'.
        destruct (decide (0 < S i)%nat) as [_|Hno]; [|lia].
        pose proof (readTurns_shape strict ks (c' :: rest') cr1) as (_ & Hne & _).
        remember (readTurns strict ks (c' :: rest') cr1) as T1 eqn:HT in *.
        destruct T1 as [|ct T']; [exfalso; by apply Hne|].
        rewrite last_cons_cons, !(bind_cons _ (c, t)), !fmap_app.
        split; [by rewrite Hk, Hk1, <- !app_assoc|].
        split; [by rewrite Hr, Hr1, <- !app_assoc|].
        split; [by rewrite Hc, Hc1, <- !app_assoc|].
        split.
        { destruct (last (ct :: T')) eqn:Hl'; [done|]. by apply last_None in Hl'. }
        split.
        { rewrite Hf, Hfo, <- app_assoc. by destruct (decide (0 < i)%nat). }
        split; [|done].
        rewrite Hn', Hfc. destruct (decide (0 < i)%nat); cbn [length]; lia.
Qed.
End ReadTurnsTold.

(** ** How [get] ends *)

Section ReadOutcome.
Context {C A : Type} `{!BeringeiNetworkClient C}
  `{!BeringeiConfigurationAdapterIf A} `{!NetworkClientSetup C A}.

Lemma getIteration_finish strict ks n i (c : C) cr s :
  getIteration strict ks n i c cr s = Abort ∨
  ∃ cr' s', getIteration strict ks n i c cr s
            = finishIteration strict ks (bool_decide (i = n - 1)%nat) cr' s'.
Proof.
  destruct (getIteration strict ks n i c cr s) as [s1|cr1 s1|what1 s1|] eqn:Hit; [..|by left].
  all: right.
  all: destruct (getIteration_run strict ks n i c cr s _ Hit) as (c1 & s2 & H1 & Hrest);
    [done|].
  all: destruct Hrest as [[_ Hstep]|(_ & c3 & s4 & H2 & Hstep)]; rewrite Hstep; eauto.
Qed.

Lemma getIteration_last_strict ks n i (c : C) cr s :
  i = (n - 1)%nat →
  match getIteration true ks n i c cr s with
  | Break s' => both_empty s' = true
  | Throw _ s' => both_empty s' = false
  | Continue _ _ => False
  | Abort => True
  end.
Proof.
  intros Hi.
  destruct (getIteration_finish true ks n i c cr s) as [->|(cr' & s' & ->)]; [done|].
  rewrite bool_decide_eq_true_2 by done.
  unfold finishIteration. by destruct (both_empty s') eqn:Hbe.
Qed.

Lemma getIteration_continue_not_last_strict ks n i (c : C) cr s cr' s' :
  getIteration true ks n i c cr s = Continue cr' s' → i ≠ (n - 1)%nat.
Proof.
  intros Hit Hi. pose proof (getIteration_last_strict ks n i c cr s Hi) as Hl.
  by rewrite Hit in Hl.
Qed.

Lemma getIteration_strict_state ks n i (c : C) cr s :
  match getIteration true ks n i c cr s with
  | Break s' => both_empty s' = true
  | Throw _ s' => both_empty s' = false
  | _ => True
  end.
Proof.
  destruct (getIteration_finish true ks n i c cr s) as [->|(cr' & s' & ->)]; [done|].
  unfold finishIteration. destruct (both_empty s') eqn:Hbe; [done|].
  by destruct (bool_decide _).
Qed.

Lemma getLoop_strict ks n clients :
  ∀ i cr s,
    n = (i + length clients)%nat →
    (clients = [] → both_empty s = true) →
    match getLoop true ks n i clients cr s with
    | Returned s' => both_empty s' = true
    | Thrown _ s' => both_empty s' = false
    | Aborted => True
    end.
Proof.
  induction clients as [|c rest IH]; intros i cr s Hn Hnil; simpl.
  - by apply Hnil.
  - pose proof (getIteration_strict_state ks n i c cr s) as Hst.
    destruct (getIteration true ks n i c cr s) as [s1|cr1 s1|what1 s1|] eqn:Hit; try done.
    apply IH; [simpl in Hn; lia|].
    intros ->. apply getIteration_continue_not_last_strict in Hit. simpl in Hn. lia.
Qed.

Lemma getIteration_lenient_no_throw ks n i (c : C) cr s what s' :
  getIteration false ks n i c cr s ≠ Throw what s'.
Proof.
  destruct (getIteration_finish false ks n i c cr s) as [->|(cr' & s1 & ->)]; [done|].
  unfold finishIteration. destruct (both_empty s1); [done|].
  by rewrite andb_false_r.
Qed.

Lemma getLoop_lenient_no_throw ks n clients :
  ∀ i cr s what s', getLoop false ks n i clients cr s ≠ Thrown what s'.
Proof.
  induction clients as [|c rest IH]; intros i cr s what s'; simpl; [done|].
  pose proof (getIteration_lenient_no_throw ks n i c cr s) as Hnt.
  destruct (getIteration false ks n i c cr s) as [s1|cr1 s1|what1 s1|];
    [done | apply IH | by destruct (Hnt what1 s1) | done].
Qed.

Lemma getAllReadClients_world serviceOverride (rs : ReadServices C A) j r j1 :
  getAllReadClients serviceOverride rs j = (r, j1) →
  logs (j_world j1) = logs (j_world j) ∧
  failoverCount (j_world j1) = failoverCount (j_world j) ∧
  j_errors j1 = j_errors j.
Proof.
  unfold getAllReadClients. intros Hall.
  assert (Hbad : logs (j_world (badReadService j)) = logs (j_world j) ∧
                 failoverCount (j_world (badReadService j)) = failoverCount (j_world j) ∧
                 j_errors (badReadService j) = j_errors j).
  { unfold badReadService. simpl. rewrite failoverCount_addStatValue.
    rewrite decide_False by (by compute). split; [done|]. split; [lia | done]. }
  destruct (decide (serviceOverride ≠ "")); [|by simplify_eq].
  destruct (existsb _ _); [by simplify_eq|].
  destruct (negb _); [by simplify_eq|].
  destruct (createNetworkClient _ _ _); by simplify_eq.
Qed.

(** [get] is the loop on the snapshot when [getAllReadClients] gives one,
    and throws at once when [getAllReadClients] lets an exception through. *)
Lemma get_Some strict (rs : ReadServices C A) request result0 serviceOverride j o :
  get strict rs request result0 serviceOverride j = Some o →
  (∃ readClientCopies j1,
     getAllReadClients serviceOverride rs j = (Copies readClientCopies, j1) ∧
     o = getFromCopies strict readClientCopies request result0 (j_world j1))
  ∨ (∃ what j1,
       getAllReadClients serviceOverride rs j = (CopiesRaised what, j1) ∧
       o = Thrown what (untouched request result0 (j_world j1))).
Proof.
  unfold get. intros Hget.
  destruct (getAllReadClients serviceOverride rs j) as [[copies|what|] j1]; simplify_eq.
  - left. by exists copies, j1.
  - right. by exists what, j1.
Qed.

Lemma get_Copies strict (rs : ReadServices C A) request result0 serviceOverride j
    readClientCopies j1 :
  getAllReadClients serviceOverride rs j = (Copies readClientCopies, j1) →
  get strict rs request result0 serviceOverride j
  = Some (getFromCopies strict readClientCopies request result0 (j_world j1)).
Proof. unfold get. by intros ->. Qed.

(** What [get] leaves when it returns or throws, by the way it ended. *)
Lemma get_ended strict (rs : ReadServices C A) request result0 serviceOverride j s :
  (get strict rs request result0 serviceOverride j = Some (Returned s)
   ∨ ∃ what, get strict rs request result0 serviceOverride j = Some (Thrown what s)) →
  (∃ readClientCopies j1,
     getAllReadClients serviceOverride rs j = (Copies readClientCopies, j1) ∧
     (getFromCopies strict readClientCopies request result0 (j_world j1) = Returned s
      ∨ ∃ what, getFromCopies strict readClientCopies request result0 (j_world j1)
                = Thrown what s))
  ∨ (∃ what j1,
       getAllReadClients serviceOverride rs j = (CopiesRaised what, j1) ∧
       s = untouched request result0 (j_world j1)).
Proof.
  intros [Hget|[what Hget]];
    apply get_Some in Hget as [(copies & j1 & Hall & Ho)|(what' & j1 & Hall & Ho)].
  - left. exists copies, j1. split; [done|]. by left.
  - done.
  - left. exists copies, j1. split; [done|]. right. by exists what.
  - right. exists what', j1. by simplify_eq.
Qed.

Lemma getFromCopies_readTurns strict (readClientCopies : list C) request result0 w :
  let T := readTurns strict (buildKeyShards (keys request)) readClientCopies request in
  (Exists unfinalized (T ≫= turn_calls ∘ snd) ∧
   getFromCopies strict readClientCopies request result0 w = Aborted)
  ∨ (Forall finalized (T ≫= turn_calls ∘ snd) ∧
     ∃ s,
       request_keys (vecs s) = (T ≫= turn_accepted ∘ snd).*1 ∧
       results (result s) = results result0 ++ (T ≫= turn_accepted ∘ snd).*2 ∧
       calls s = T ≫= turn_calls ∘ snd ∧
       failedKeys (vecs s) ++ partialKeys (vecs s)
       = default [] (residual ∘ snd <$> last T) ∧
       failovers (rworld s) = failovers w ++ (getServiceName <$> tail T.*1) ∧
       failoverCount (rworld s) = (failoverCount w + (length T - 1))%nat ∧
       getFromCopies strict readClientCopies request result0 w
       = if strict && negb (vec_empty (default [] (residual ∘ snd <$> last T)))
         then Thrown "Failed reading data from gorilla" s
         else Returned s).
Proof.
  intros T. unfold getFromCopies.
  destruct (getLoop_readTurns strict (buildKeyShards (keys request)) readClientCopies
              (length readClientCopies) 0 request
              (mkReadState result0 (mkKeyVectors [] [] []) w []) eq_refl)
    as [Hab|(Hfin & s & Hk & Hr & Hc & Hl & Hf & Hn & Hloop)]; [by left|].
  right. split; [done|]. exists s. fold T in Hk, Hr, Hc, Hl, Hf, Hn, Hloop |- *.
  split; [done|]. split; [done|]. split; [done|]. split; [|done].
  destruct (last T) as [ct|]; simpl.
  - destruct Hl as [-> ->]. done.
  - by subst s.
Qed.

Lemma readTurns_accepted strict ks (clients : list C) :
  ∀ cr,
    let T := readTurns strict ks clients cr in
    Forall2 (λ k r, answered (T ≫= turn_calls ∘ snd) k r ∧ successful r)
      (T ≫= turn_accepted ∘ snd).*1 (T ≫= turn_accepted ∘ snd).*2.
Proof.
  induction clients as [|c rest IH]; intros cr T; subst T; [constructor|].
  cbn [readTurns].
  set (t := turnOf _ _ c cr).
  pose proof (turnOf_accepted (strict || negb (vec_empty rest)) (negb (vec_empty rest)) c cr)
    as Ht. fold t in Ht. clearbody t.
  assert (Hmono : ∀ (cs cs' : list GetCall) K R,
            cs ⊆ cs' →
            Forall2 (λ k r, answered cs k r ∧ successful r) K R →
            Forall2 (λ k r, answered cs' k r ∧ successful r) K R).
  { intros cs cs' K R Hsub Hall. eapply Forall2_impl; [exact Hall|].
    intros k r [Ha Hs]. split; [|done]. by eapply answered_mono. }
  rewrite !bind_cons, !fmap_app. apply Forall2_app.
  - eapply Hmono; [|exact Ht]. intros x Hx. apply elem_of_app. by left.
  - destruct (vec_empty (residual t)); [constructor|].
    eapply Hmono; [|apply IH]. intros x Hx. apply elem_of_app. by right.
Qed.

Lemma Forall_finalized_check (cs : list GetCall) :
  forallb (λ call,
      forallb (λ p : Key * TimeSeriesData,
                 negb (bool_decide (status p.2 = BUCKET_NOT_FINALIZED)))
        (visitedPairs (call_requests call))) cs = true →
  Forall finalized cs.
Proof.
  intros Hall. apply Forall_forall. intros call Hin Hun.
  apply Exists_exists in Hun as (p & Hp & Hst).
  rewrite forallb_forall in Hall. apply list_elem_of_In in Hin.
  specialize (Hall call Hin). rewrite forallb_forall in Hall.
  apply list_elem_of_In in Hp. specialize (Hall p Hp).
  by rewrite bool_decide_eq_true_2 in Hall.
Qed.

(** C4. [get] runs the turns of the read clients, each with its retry within
    the service, and how it ends is decided by the keys that the last turn
    leaves: if the answers of the last read client, those to the retry
    included, leave failed or partial keys, then in strict mode the whole
    call throws; without strict mode the call returns, and either way the
    caller's keys are the keys of the accepted answers, every one a success
    that a service sent for that key, and the result holds these answers and
    nothing of the keys that are left. When no key is left [get] returns in
    both modes. (The read clients are the snapshot that [getAllReadClients]
    gave, and no answer is BUCKET_NOT_FINALIZED.) *)
Theorem get_residual_keys
    (strict : bool) (rs : ReadServices C A) (request : GetDataRequest)
    (result0 : GetDataResult) (serviceOverride : string) (j j1 : Journal)
    (readClientCopies : list C) :
  let T := readTurns strict (buildKeyShards (keys request)) readClientCopies request in
  let answers := T ≫= turn_accepted ∘ snd in
  let left := default [] (residual ∘ snd <$> last T) in
  getAllReadClients serviceOverride rs j = (Copies readClientCopies, j1) →
  Forall finalized (T ≫= turn_calls ∘ snd) →
  ∃ s,
    get strict rs request result0 serviceOverride j
    = Some (if strict && negb (vec_empty left)
            then Thrown "Failed reading data from gorilla" s
            else Returned s) ∧
    (left ≠ [] → T.*1 = readClientCopies) ∧
    failedKeys (vecs s) ++ partialKeys (vecs s) = left ∧
    calls s = T ≫= turn_calls ∘ snd ∧
    request_keys (vecs s) = answers.*1 ∧
    results (result s) = results result0 ++ answers.*2 ∧
    Forall2 (λ k r, answered (calls s) k r ∧ successful r) answers.*1 answers.*2.
Proof.
  intros T answers left Hall Hfin.
  rewrite (get_Copies strict rs request result0 serviceOverride j _ j1 Hall).
  destruct (getFromCopies_readTurns strict readClientCopies request result0 (j_world j1))
    as [[Hun _]|(_ & s & Hk & Hr & Hc & Hl & _ & _ & Hget)].
  { exfalso. apply Exists_exists in Hun as (call & Hin & Hun).
    rewrite Forall_forall in Hfin. by apply (Hfin call Hin). }
  fold T in Hk, Hr, Hc, Hl, Hget. fold answers in Hk, Hr. fold left in Hl, Hget.
  exists s. split; [by destruct (strict && _); rewrite Hget|].
  split.
  { intros Hleft. subst left.
    pose proof (readTurns_shape strict (buildKeyShards (keys request)) readClientCopies
                  request) as (_ & _ & Hlast & _).
    fold T in Hlast. destruct (last T) as [ct|]; [|done].
    by apply (Hlast ct). }
  split; [done|]. split; [done|]. split; [done|]. split; [done|].
  rewrite Hc. apply readTurns_accepted.
Qed.

Lemma getIteration_Abort strict ks n i (c : C) cr s :
  let last := bool_decide (i = n - 1)%nat in
  let ip := inProgressArg strict last in
  let pd := partialDataArg last in
  getIteration strict ks n i c cr s = Abort
  ↔ unfinalized (theCall c cr) ∨
    ∃ c1 s2,
      getWithClient c cr RequestKeys FailedKeys ip pd (startIteration i c s) = Some (c1, s2) ∧
      failedKeys (vecs s2) ≠ [] ∧
      unfinalized
        (theCall (invalidateCache (list_to_set (shardId <$> failedKeys (vecs s2))) c1)
           (retryRequest cr s2)).
Proof.
  intros last ip pd. unfold getIteration. fold last. fold ip. fold pd.
  destruct (getWithClient c cr _ _ _ _ _) as [[c1 s2]|] eqn:H1.
  - split.
    + intros Hab. right. exists c1, s2. split; [done|].
      destruct (both_empty s2) eqn:Hbe; [done|].
      destruct (vec_empty (failedKeys (vecs s2))) eqn:Hve; simpl in Hab.
      { pose proof (finishIteration_stepState strict ks last cr s2) as Hs.
        by rewrite Hab in Hs. }
      split; [intros Hnil; by rewrite Hnil in Hve|].
      destruct (getWithClient _ (retryRequest cr s2) _ _ _ _ _) as [[c3 s4]|] eqn:H2.
      * pose proof (finishIteration_stepState strict ks last (retryRequest cr s2) s4) as Hs.
        by rewrite Hab in Hs.
      * by apply getWithClient_None in H2.
    + intros [Hun|(c1' & s2' & [= <- <-] & Hne & Hun)].
      { apply (getWithClient_None RequestKeys FailedKeys ip pd c cr (startIteration i c s))
          in Hun. congruence. }
      destruct (both_empty s2) eqn:Hbe.
      { apply both_empty_true in Hbe as [Hf _]. done. }
      destruct (vec_empty (failedKeys (vecs s2))) eqn:Hve.
      { by apply vec_empty_true in Hve. }
      simpl.
      eapply (getWithClient_None RequestKeys FailedKeys ip pd) in Hun. by rewrite Hun.
  - split; [|done]. intros _. left. by eapply getWithClient_None.
Qed.

Lemma getLoop_no_abort strict ks n clients :
  (∀ (c : C) req, finalized (theCall c req)) →
  ∀ i cr s, getLoop strict ks n i clients cr s ≠ Aborted.
Proof.
  intros Hfin. induction clients as [|c rest IH]; intros i cr s; simpl; [done|].
  destruct (getIteration strict ks n i c cr s) as [s1|cr1 s1|what1 s1|] eqn:Hit;
    [done | apply IH | done |].
  apply getIteration_Abort in Hit as [Hun|(c1 & s2 & _ & _ & Hun)];
    by apply Hfin in Hun.
Qed.

(** C7. The classification of an answer aborts exactly when its status is
    BUCKET_NOT_FINALIZED; so [getWithClient] aborts exactly when the answers
    it visits have one, a turn of [get] aborts exactly when its call or its
    retry gets one, a [get] that returns or throws has seen none (it has made
    no call at all when it throws what [getAllReadClients] let through), and
    [get] does not abort when no answer of any call has that status. *)
Theorem bucket_not_finalized_aborts
    (strict : bool) (rs : ReadServices C A) (request : GetDataRequest)
    (result0 : GetDataResult) (serviceOverride : string) (j : Journal) :
  (∀ fk ff ip pd k r s,
     classify fk ff ip pd k r s = None ↔ status r = BUCKET_NOT_FINALIZED) ∧
  (∀ (c : C) req fk ff ip pd s,
     getWithClient c req fk ff ip pd s = None ↔ unfinalized (theCall c req)) ∧
  (∀ ks n i (c : C) cr s,
     getIteration strict ks n i c cr s = Abort
     ↔ unfinalized (theCall c cr) ∨
       ∃ c1 s2,
         getWithClient c cr RequestKeys FailedKeys
           (inProgressArg strict (bool_decide (i = n - 1)%nat))
           (partialDataArg (bool_decide (i = n - 1)%nat)) (startIteration i c s)
         = Some (c1, s2) ∧
         failedKeys (vecs s2) ≠ [] ∧
         unfinalized
           (theCall (invalidateCache (list_to_set (shardId <$> failedKeys (vecs s2))) c1)
              (retryRequest cr s2))) ∧
  match get strict rs request result0 serviceOverride j with
  | Some (Returned s) | Some (Thrown _ s) => Forall finalized (calls s)
  | Some Aborted | None => True
  end ∧
  ((∀ (c : C) req, finalized (theCall c req)) →
   get strict rs request result0 serviceOverride j ≠ Some Aborted).
Proof.
  split; [apply classify_None|]. split.
  { intros. apply getWithClient_None. }
  split; [intros; apply getIteration_Abort|]. split.
  - destruct (get strict rs request result0 serviceOverride j) as [o|] eqn:Hget; [|done].
    apply get_Some in Hget as [(copies & j1 & _ & ->)|(what & j1 & _ & ->)];
      [|constructor].
    unfold getFromCopies.
    destruct (getLoop _ _ _ _ _ _ _) as [s|what s|] eqn:Hloop; [| |done].
    + destruct (getLoop_grows _ _ _ _ _ _ _ _ (or_introl Hloop))
        as (_ & _ & cs & _ & _ & Hc & _ & Hf). by rewrite Hc.
    + destruct (getLoop_grows _ _ _ _ _ _ _ _ (or_intror (ex_intro _ what Hloop)))
        as (_ & _ & cs & _ & _ & Hc & _ & Hf). by rewrite Hc.
  - intros Hfin Hget.
    apply get_Some in Hget as [(copies & j1 & _ & Ho)|(what & j1 & _ & Ho)]; [|done].
    symmetry in Ho. by apply getLoop_no_abort in Ho.
Qed.
End ReadOutcome.

(** ** The keys stay within the request *)

Lemma entryPairs_requested e k r : (k, r) ∈ entryPairs e → k ∈ keys e.2.1.
Proof.
  unfold entryPairs. generalize (results e.2.2).
  induction (keys e.2.1) as [|k' ks IH]; intros [|r' rs] Hin; simpl in Hin;
    try by apply elem_of_nil in Hin.
  apply elem_of_cons in Hin as [[= -> ->]|Hin]; [by left|].
  right. by eapply IH.
Qed.

Lemma elem_of_concat {A} (x : A) (ls : list (list A)) :
  x ∈ concat ls ↔ ∃ l, x ∈ l ∧ l ∈ ls.
Proof.
  induction ls as [|l ls IH]; simpl.
  - split; [by intros ?%elem_of_nil | by intros (l & _ & ?%elem_of_nil)].
  - rewrite elem_of_app, IH. split.
    + intros [Hx|(l' & Hx & Hl')]; [exists l | exists l']; split; auto; by constructor.
    + intros (l' & Hx & [->|Hl']%elem_of_cons); [by left | right; by exists l'].
Qed.

Lemma visitedPairs_requested m k r : (k, r) ∈ visitedPairs m → k ∈ requestedKeys m.
Proof.
  unfold visitedPairs, requestedKeys. intros Hin.
  apply elem_of_concat in Hin as (l & Hk & Hl).
  apply list_elem_of_fmap in Hl as (e & -> & He).
  apply elem_of_concat. exists (keys e.2.1). split.
  - by eapply entryPairs_requested.
  - apply list_elem_of_fmap. by exists e.
Qed.

Lemma withVerdict_keys v ip pd P k :
  k ∈ (withVerdict v ip pd P).*1 → ∃ r, (k, r) ∈ P.
Proof.
  intros Hin. apply list_elem_of_fmap in Hin as ([k' r] & -> & Hin).
  apply list_elem_of_filter in Hin as [_ Hin]. by exists r.
Qed.

Lemma buildKeyShards_lookup ks name id :
  buildKeyShards ks !! name = Some id → mkKey name id ∈ ks.
Proof.
  unfold buildKeyShards.
  assert (Hgen : ∀ m : gmap string Z,
            foldl (λ m k, <[key k := shardId k]> m) m ks !! name = Some id →
            m !! name = Some id ∨ mkKey name id ∈ ks).
  { induction ks as [|k ks IH]; intros m Hl; simpl in Hl; [by left|].
    apply IH in Hl as [Hl|Hin]; [|right; by right].
    rewrite lookup_insert in Hl. case_decide as Hk.
    - destruct k as [kn ki]. simpl in *. simplify_eq. right. by left.
    - by left. }
  intros Hl. by apply Hgen in Hl as [Hl|Hin].
Qed.

Lemma restoreShardId_in ks k : k ∈ ks → restoreShardId (buildKeyShards ks) k ∈ ks.
Proof.
  intros Hin. unfold restoreShardId.
  destruct (buildKeyShards ks !! key k) as [id|] eqn:Hl; [|done].
  by apply buildKeyShards_lookup.
Qed.

Lemma restoreShardId_key ks k : key (restoreShardId ks k) = key k.
Proof. unfold restoreShardId. by destruct (ks !! key k). Qed.

Section ReadKeys.
Context {C : Type} `{!BeringeiNetworkClient C}.

Lemma getWithClient_within ip pd (c c' : C) req s s' X :
  no_fabrication C →
  getWithClient c req RequestKeys FailedKeys (ptr ip) (ptr pd) s = Some (c', s') →
  keys req ⊆ X → within X s → within X s'.
Proof.
  intros Hnf Hg Hreq (Hk & Hf & Hp).
  apply getWithClient_Some in Hg as (_ & _ & Hk' & _ & Hf' & Hp' & _).
  simpl in Hk', Hf', Hp'.
  assert (Hin : ∀ v k, k ∈ (withVerdict v ip pd
                              (visitedPairs (call_requests (theCall c req)))).*1 → k ∈ X).
  { intros v k [r Hr]%withVerdict_keys. apply Hreq, (Hnf c req).
    by eapply visitedPairs_requested. }
  unfold within. rewrite Hk', Hf', Hp'.
  repeat split; intros k [?|?]%elem_of_app; eauto.
Qed.

Lemma startIteration_within X i (c : C) s :
  request_keys (vecs s) ⊆ X → within X (startIteration i c s).
Proof.
  intros Hk. unfold within, startIteration. case_decide; simpl.
  all: repeat split; [done|..]; by intros ? ?%elem_of_nil.
Qed.

Lemma getIteration_within strict orig n i (c : C) cr s :
  no_fabrication C →
  keys cr ⊆ orig → request_keys (vecs s) ⊆ orig →
  match getIteration strict (buildKeyShards orig) n i c cr s with
  | Break s' | Throw _ s' => within orig s'
  | Continue cr' s' => within orig s' ∧ keys cr' ⊆ orig
  | Abort => True
  end.
Proof.
  intros Hnf Hcr Hk.
  assert (Hend : ∀ s', stepState (getIteration strict (buildKeyShards orig) n i c cr s)
                       = Some s' → within orig s').
  { intros s' Hst. apply getIteration_end in Hst as (c1 & s2 & H1 & Hrest).
    eapply getWithClient_within in H1; [|done|done|by apply startIteration_within].
    destruct Hrest as [[_ ->]|(_ & c3 & H2)]; [done|].
    eapply getWithClient_within in H2; [done|done|apply H1|].
    destruct H1 as (? & ? & ?). repeat split; [done| |done]. by intros ? ?%elem_of_nil. }
  destruct (getIteration strict (buildKeyShards orig) n i c cr s) as [s'|cr' s'|what s'|] eqn:Hit;
    [by apply Hend|
     |by apply Hend|done].
  pose proof (Hend s' eq_refl) as Hw. split; [done|].
  apply getIteration_Continue in Hit as (_ & _ & ->).
  destruct Hw as (_ & Hf & Hp).
  intros k (k0 & -> & [Hin|Hin]%elem_of_app)%list_elem_of_fmap;
    apply restoreShardId_in; auto.
Qed.

Lemma getLoop_within strict orig n clients :
  no_fabrication C →
  ∀ i cr s s',
    keys cr ⊆ orig → request_keys (vecs s) ⊆ orig →
    getLoop strict (buildKeyShards orig) n i clients cr s = Returned s' →
    request_keys (vecs s') ⊆ orig.
Proof.
  intros Hnf. induction clients as [|c rest IH]; intros i cr s s' Hcr Hk Hloop;
    simpl in Hloop; [by simplify_eq|].
  pose proof (getIteration_within strict orig n i c cr s Hnf Hcr Hk) as Hw.
  destruct (getIteration strict (buildKeyShards orig) n i c cr s) as [s1|cr1 s1|what1 s1|];
    [|..|done].
  - simplify_eq. apply Hw.
  - destruct Hw as [Hw Hcr1]. eapply IH; [exact Hcr1 | apply Hw | exact Hloop].
  - done.
Qed.
End ReadKeys.

Section ReadResult.
Context {C A : Type} `{!BeringeiNetworkClient C}
  `{!BeringeiConfigurationAdapterIf A} `{!NetworkClientSetup C A}.

Lemma fillValues_defined getValues b e ks :
  ∀ rs out,
    length ks = length rs → length out = length rs →
    ∃ v, fillValues getValues b e ks rs out = Some v ∧ v.*1 = ks ∧ length v = length rs.
Proof.
  induction ks as [|k ks IH]; intros [|r rs] [|[k0 vs] out] Hks Hout; simplify_eq/=.
  - by exists [].
  - destruct (IH rs out) as (v & -> & Hv & Hlen); [lia | lia |].
    simpl. eexists. split; [done|]. simpl. split; [by f_equal | by f_equal].
Qed.

Lemma length_resize n v : length (resize n v) = n.
Proof. unfold resize. rewrite length_app, length_take, length_replicate. lia. Qed.

Lemma turnOf_names ip pd (c : C) cr :
  keeps_names C →
  key <$> (turn_accepted (turnOf ip pd c cr)).*1 ⊆ key <$> keys cr ∧
  key <$> residual (turnOf ip pd c cr) ⊆ key <$> keys cr.
Proof.
  intros Hkeeps.
  assert (Hin : ∀ v (c' : C) cr' x,
            x ∈ key <$> (withVerdict v ip pd
                           (visitedPairs (call_requests (theCall c' cr')))).*1 →
            x ∈ key <$> keys cr').
  { intros v c' cr' x (k & -> & Hk)%list_elem_of_fmap.
    apply withVerdict_keys in Hk as [r Hr]. apply (Hkeeps c' cr').
    apply list_elem_of_fmap_2. by eapply visitedPairs_requested. }
  assert (Hfailed : key <$> (withVerdict Failed ip pd
                               (visitedPairs (call_requests (theCall c cr)))).*1
                    ⊆ key <$> keys cr).
  { intros x Hx. by eapply Hin. }
  unfold turnOf, residual.
  destruct (vec_empty _); cbn [turn_accepted turn_failed turn_partial app].
  - split; intros x Hx; exact (Hin _ c cr x Hx).
  - rewrite !fmap_app. split; intros x Hx.
    + apply elem_of_app in Hx as [Hx|Hx]; [exact (Hin _ c cr x Hx)|].
      apply Hfailed. exact (Hin _ _ _ _ Hx).
    + apply elem_of_app in Hx as [Hx|Hx]; [apply Hfailed; exact (Hin _ _ _ _ Hx)|].
      apply elem_of_app in Hx as [Hx|Hx]; [exact (Hin _ c cr x Hx)|].
      apply Hfailed. exact (Hin _ _ _ _ Hx).
Qed.

Lemma readTurns_names strict ks (clients : list C) :
  keeps_names C →
  ∀ cr, key <$> (readTurns strict ks clients cr ≫= turn_accepted ∘ snd).*1
        ⊆ key <$> keys cr.
Proof.
  intros Hkeeps. induction clients as [|c rest IH]; intros cr; [by intros ? ?%elem_of_nil|].
  cbn [readTurns].
  destruct (turnOf_names (strict || negb (vec_empty rest)) (negb (vec_empty rest)) c cr
              Hkeeps) as [Hacc Hres].
  set (t := turnOf _ _ c cr) in *. clearbody t.
  rewrite bind_cons, !fmap_app. intros x [Hx|Hx]%elem_of_app; [by apply Hacc|].
  destruct (vec_empty (residual t)); [by apply elem_of_nil in Hx|].
  apply IH in Hx. simpl in Hx. rewrite <- list_fmap_compose in Hx.
  apply Hres. apply list_elem_of_fmap in Hx as (k & -> & Hk).
  simpl. rewrite restoreShardId_key. by apply list_elem_of_fmap_2.
Qed.

Lemma Forall2_lookup_offset {K V} (P : K → V → Prop) (ks : list K) (old new : list V) :
  Forall2 P ks new →
  ∀ i k, ks !! i = Some k →
         ∃ r, (old ++ new) !! (length old + i)%nat = Some r ∧ P k r.
Proof.
  intros Hall i k Hk.
  destruct (Forall2_lookup_l _ _ _ _ _ Hall Hk) as (r & Hr & HP).
  exists r. split; [|done]. by rewrite lookup_app_r, Nat.add_comm, Nat.add_sub by lia.
Qed.

(** C8 (amended). What a [get] that returns writes back into the request's
    key vector are keys as the read clients sent them to the servers, each
    with an answer that came back for it: its name is the name of a key of
    the original request whenever the read clients ask only for key names
    they were asked for, but its shard id is the one the read client sent,
    which need not be the caller's. The answers are appended to the result
    the caller passed: the answer for the i-th key of the vector is the i-th
    entry behind the entries that were there, so it is the i-th entry of the
    result when the result was empty on entry, as it is in the overload that
    fills a [GorillaResultVector], which finds a key for every entry and
    pairs the i-th decoded entry with the i-th key. With read clients that
    put only keys they were given into their requests, shard id and all, the
    keys are keys of the original request. *)
Theorem get_no_fabrication
    (strict : bool) (rs : ReadServices C A) (request : GetDataRequest)
    (result0 : GetDataResult) (serviceOverride : string) (j : Journal) (s : ReadState) :
  get strict rs request result0 serviceOverride j = Some (Returned s) →
  (∃ R, results (result s) = results result0 ++ R ∧
        Forall2 (answered (calls s)) (request_keys (vecs s)) R) ∧
  (∀ i k, request_keys (vecs s) !! i = Some k →
          ∃ r, results (result s) !! (length (results result0) + i)%nat = Some r ∧
               answered (calls s) k r) ∧
  (results result0 = [] →
   Forall2 (answered (calls s)) (request_keys (vecs s)) (results (result s))) ∧
  (keeps_names C → ∀ k, k ∈ request_keys (vecs s) → key k ∈ key <$> keys request) ∧
  (no_fabrication C → ∀ k, k ∈ request_keys (vecs s) → k ∈ keys request) ∧
  (∀ getValues result1,
     match getVector getValues strict rs request result1 serviceOverride j with
     | Some (VReturned s' v) =>
         v.*1 = request_keys (vecs s') ∧ length v = length (results (result s')) ∧
         Forall2 (answered (calls s')) v.*1 (results (result s'))
     | Some VOutOfRange | None => False
     | Some (VThrown _ _) | Some VAborted => True
     end).
Proof.
  intros Hget.
  apply get_Some in Hget as Hsome.
  destruct Hsome as [(copies & j1 & Hall & Ho)|(what & j1 & _ & Ho)]; [|done].
  symmetry in Ho.
  assert (Haligned : ∃ R, results (result s) = results result0 ++ R ∧
                          Forall2 (answered (calls s)) (request_keys (vecs s)) R).
  { destruct (getLoop_grows _ _ _ _ _ _ _ _ (or_introl Ho))
      as (K & R & cs & Hk & Hr & Hc & Ha & _).
    simpl in Hk, Hr, Hc. exists R. split; [done|].
    rewrite Hk, Hc. eapply Forall2_impl; [exact Ha|]. by intros k r [? _]. }
  split; [exact Haligned|].
  split.
  { destruct Haligned as (R & -> & Ha). by apply Forall2_lookup_offset. }
  split.
  { intros Hempty. destruct Haligned as (R & -> & Ha). by rewrite Hempty. }
  split.
  { intros Hkeeps k Hk.
    destruct (getFromCopies_readTurns strict copies request result0 (j_world j1))
      as [[_ Hab]|(_ & s' & Hkeys & _ & _ & _ & _ & _ & Hres)]; [congruence|].
    rewrite Ho in Hres.
    assert (s' = s) as -> by (destruct (strict && _); by simplify_eq).
    apply (readTurns_names strict (buildKeyShards (keys request)) copies Hkeeps request).
    rewrite <- Hkeys. by apply list_elem_of_fmap_2. }
  split.
  { intros Hnf. unfold getFromCopies in Ho.
    eapply (getLoop_within strict (keys request)) in Ho; [exact Ho | done | done |].
    by intros ? ?%elem_of_nil. }
  intros getValues result1. unfold getVector.
  rewrite (get_Copies strict rs request (mkGetDataResult []) serviceOverride j _ j1 Hall).
  destruct (getFromCopies strict copies request (mkGetDataResult []) (j_world j1))
    as [s'|what s'|] eqn:Hget'; [|done|done].
  destruct (getLoop_grows _ _ _ _ _ _ _ _ (or_introl Hget'))
    as (K & R & cs & Hk & Hr & Hc & Ha & _).
  simpl in Hk, Hr, Hc.
  destruct (fillValues_defined getValues (begin_ request) (end_ request)
              (request_keys (vecs s')) (results (result s'))
              (resize (length (results (result s'))) result1))
    as (v & -> & Hv & Hlen);
    [rewrite Hk, Hr; by eapply Forall2_length | apply length_resize |].
  split; [done|]. split; [done|].
  rewrite Hv, Hk, Hr, Hc. eapply Forall2_impl; [exact Ha|]. by intros k r [? _].
Qed.
End ReadResult.

(** ** Keys in progress *)

Lemma verdict_in_progress ip pd r :
  status r = SHARD_IN_PROGRESS ∨ status r = MISSING_TOO_MUCH_DATA →
  verdict ip pd r
  = if (if decide (status r = SHARD_IN_PROGRESS) then ip else pd) then Partial
    else if vec_empty (data r) then Skipped else Accepted.
Proof.
  unfold verdict. intros [Hs|Hs]; rewrite Hs; simpl.
  - destruct ip; [done|]. destruct (data r); simpl; repeat case_decide; simpl in *; (done || lia).
  - destruct pd; [done|]. destruct (data r); simpl; repeat case_decide; simpl in *; (done || lia).
Qed.

Section ReadPartial.
Context {C : Type} `{!BeringeiNetworkClient C}.

Lemma getWithClient_partial ip pd (c c' : C) req s s' :
  getWithClient c req RequestKeys FailedKeys (ptr ip) (ptr pd) s = Some (c', s') →
  partialKeys (vecs s) ⊆ partialKeys (vecs s') ∧
  ∀ k r, (k, r) ∈ visitedPairs (call_requests (theCall c req)) →
         verdict ip pd r = Partial → k ∈ partialKeys (vecs s').
Proof.
  intros Hg. apply getWithClient_Some in Hg as (_ & _ & _ & _ & _ & Hp & _).
  simpl in Hp. rewrite Hp. split.
  - intros k Hk. apply elem_of_app. by left.
  - intros k r Hin Hv. apply elem_of_app. right.
    apply list_elem_of_fmap. exists (k, r). split; [done|].
    apply list_elem_of_filter. by split.
Qed.

Lemma getIteration_partial strict ks n i (c : C) cr s s' :
  let last := bool_decide (i = n - 1)%nat in
  stepState (getIteration strict ks n i c cr s) = Some s' →
  ∃ new, calls s' = calls s ++ new ∧
    ∀ call k r, call ∈ new → (k, r) ∈ visitedPairs (call_requests call) →
                verdict (strict || negb last) (negb last) r = Partial →
                k ∈ partialKeys (vecs s').
Proof.
  intros last Hst. apply getIteration_end in Hst as (c1 & s2 & H1 & Hrest).
  pose proof (getWithClient_partial _ _ _ _ _ _ _ H1) as [_ Hp1].
  pose proof (getWithClient_Some _ _ _ _ _ _ _ H1) as (_ & Hc1 & _).
  destruct (startIteration_same_view i c s) as (_ & _ & Hc0).
  rewrite Hc0 in Hc1.
  destruct Hrest as [[_ ->]|(_ & c3 & H2)].
  - exists [theCall c cr]. split; [exact Hc1|].
    intros call k r ->%list_elem_of_singleton. apply Hp1.
  - pose proof (getWithClient_partial _ _ _ _ _ _ _ H2) as [Hsub Hp2].
    pose proof (getWithClient_Some _ _ _ _ _ _ _ H2) as (_ & Hc2 & _).
    simpl in Hc2. rewrite Hc1, <- app_assoc in Hc2.
    eexists. split; [exact Hc2|].
    intros call k r [Heq|Heq%list_elem_of_singleton]%elem_of_cons Hin Hv; subst call.
    + apply Hsub. simpl. by eapply Hp1.
    + by eapply Hp2.
Qed.

(** C3 (amended). A key answered SHARD_IN_PROGRESS or MISSING_TOO_MUCH_DATA
    is recorded as partial on every read client but the last, and then the
    turn goes on to the next read client with a request that holds the key.
    On the last read client a MISSING_TOO_MUCH_DATA answer is accepted exactly
    when it has data, in strict mode too; a SHARD_IN_PROGRESS answer is
    accepted exactly when it has data if strict mode is off, and is recorded
    as partial, so that the call throws, if strict mode is on. *)
Theorem in_progress_keys
    (strict : bool) (ks : gmap string Z) (n i : nat) (c : C)
    (cr : GetDataRequest) (s : ReadState) (k : Key) (r : TimeSeriesData) :
  let last := bool_decide (i = n - 1)%nat in
  let recorded := negb last || (strict && bool_decide (status r = SHARD_IN_PROGRESS)) in
  status r = SHARD_IN_PROGRESS ∨ status r = MISSING_TOO_MUCH_DATA →
  (∃ s1, classify RequestKeys FailedKeys (inProgressArg strict last) (partialDataArg last)
           k r s = Some s1 ∧
     if recorded then
       partialKeys (vecs s1) = partialKeys (vecs s) ++ [k] ∧
       request_keys (vecs s1) = request_keys (vecs s) ∧
       results (result s1) = results (result s)
     else if vec_empty (data r) then
       vecs s1 = vecs s ∧ results (result s1) = results (result s)
     else
       request_keys (vecs s1) = request_keys (vecs s) ++ [k] ∧
       results (result s1) = results (result s) ++ [r] ∧
       partialKeys (vecs s1) = partialKeys (vecs s)) ∧
  (∀ s', stepState (getIteration strict ks n i c cr s) = Some s' →
     ∃ new, calls s' = calls s ++ new ∧
       ∀ call, call ∈ new → (k, r) ∈ visitedPairs (call_requests call) →
         recorded = true →
         k ∈ partialKeys (vecs s') ∧
         if last
         then getIteration strict ks n i c cr s
              = Throw "Failed reading data from gorilla" s'
         else ∃ cr', getIteration strict ks n i c cr s = Continue cr' s' ∧
                     restoreShardId ks k ∈ keys cr' ∧
                     ∀ rest, getLoop strict ks n i (c :: rest) cr s
                             = getLoop strict ks n (S i) rest cr' s').
Proof.
  intros last recorded Hst.
  assert (Hv : verdict (strict || negb last) (negb last) r
               = if recorded then Partial
                 else if vec_empty (data r) then Skipped else Accepted).
  { rewrite verdict_in_progress by done. subst recorded.
    destruct Hst as [Hs|Hs]; rewrite Hs; simpl; destruct last, strict; done. }
  split.
  - destruct (classify RequestKeys FailedKeys (inProgressArg strict last)
                (partialDataArg last) k r s) as [s1|] eqn:Hc.
    2:{ apply classify_None in Hc. destruct Hst; congruence. }
    exists s1. split; [done|].
    apply (classify_Some (strict || negb last) (negb last)) in Hc
      as (_ & Hk & Hr & Hf & Hp & _).
    unfold withVerdict in *. rewrite !filter_cons, !filter_nil in *. simpl in *.
    rewrite Hv in *. destruct recorded; [|destruct (vec_empty (data r))];
      repeat case_decide; try done; simpl in *; rewrite ?app_nil_r in *; try done.
    split; [|done]. destruct (vecs s1), (vecs s); simpl in *; congruence.
  - intros s' Hs'.
    destruct (getIteration_partial strict ks n i c cr s s' Hs') as (new & Hnew & Hp).
    exists new. split; [done|]. intros call Hcall Hin Hrec.
    assert (Hk : k ∈ partialKeys (vecs s')).
    { eapply Hp; [done | done |]. fold last. by rewrite Hv, Hrec. }
    split; [done|].
    assert (Hbe : both_empty s' = false).
    { apply not_true_is_false. intros [_ Hnil]%both_empty_true.
      rewrite Hnil in Hk. by apply elem_of_nil in Hk. }
    destruct (getIteration_finish strict ks n i c cr s) as [Hab|(cr0 & s0 & Hfin)].
    { by rewrite Hab in Hs'. }
    rewrite Hfin in Hs'. rewrite finishIteration_stepState in Hs'.
    injection Hs' as Heq. subst s0.
    fold last in Hfin. rewrite Hfin. unfold finishIteration. rewrite Hbe.
    assert (Hstrict : last = true → strict = true).
    { subst recorded. intros Hl. rewrite Hl in Hrec. simpl in Hrec.
      by apply andb_true_iff in Hrec as [? _]. }
    destruct last eqn:Hlast.
    + by rewrite Hstrict.
    + simpl. eexists. split; [done|]. split.
      * simpl. apply list_elem_of_fmap. exists k. split; [done|].
        apply elem_of_app. by right.
      * intros rest. simpl. rewrite Hfin. unfold finishIteration. by rewrite Hbe.
Qed.
End ReadPartial.

(** ** Missing keys are not asked for again *)

Lemma submseteq_insert_middle {A} (x : A) l1 l2 k :
  l1 ++ l2 ⊆+ k → l1 ++ x :: l2 ⊆+ x :: k.
Proof. intros H. rewrite <- Permutation_middle. by apply submseteq_skip. Qed.

Lemma verdict_missing ip pd r : status r = KEY_MISSING → verdict ip pd r = Skipped.
Proof. unfold verdict. by intros ->. Qed.

Lemma withVerdict_partition ip pd (P : list (Key * TimeSeriesData)) :
  withVerdict Accepted ip pd P ++ withVerdict Failed ip pd P
  ++ withVerdict Partial ip pd P
  ++ filter (λ p : Key * TimeSeriesData, status p.2 = KEY_MISSING) P ⊆+ P.
Proof.
  unfold withVerdict. induction P as [|p P IH]; [done|].
  rewrite !filter_cons.
  destruct (decide (status p.2 = KEY_MISSING)) as [Hm|Hm].
  - rewrite (verdict_missing ip pd _ Hm).
    repeat (case_decide; [done|]).
    rewrite !app_assoc. apply submseteq_insert_middle. by rewrite <- !app_assoc.
  - destruct (verdict ip pd p.2) eqn:Hv; repeat (case_decide; try done); simpl.
    + by apply submseteq_skip.
    + by apply submseteq_insert_middle.
    + rewrite (app_assoc _ _ (_ :: _)).
      apply submseteq_insert_middle. by rewrite <- app_assoc.
    + by apply submseteq_cons.
Qed.

Lemma entryPairs_sublist e : (entryPairs e).*1 `sublist_of` keys e.2.1.
Proof.
  unfold entryPairs. generalize (results e.2.2).
  induction (keys e.2.1) as [|k ks IH]; intros [|r rs]; simpl;
    try apply sublist_nil_l.
  apply sublist_skip, IH.
Qed.

Lemma visitedPairs_sublist m : (visitedPairs m).*1 `sublist_of` requestedKeys m.
Proof.
  unfold visitedPairs, requestedKeys. induction m as [|e m IH]; simpl; [done|].
  rewrite fmap_app. apply sublist_app; [apply entryPairs_sublist | apply IH].
Qed.



Section ReadNames.
Context {C : Type} `{!BeringeiNetworkClient C}.

Lemma getWithClient_names ip pd (c c' : C) req s s' :
  no_duplication C →
  getWithClient c req RequestKeys FailedKeys (ptr ip) (ptr pd) s = Some (c', s') →
  ∃ nf nl np,
    request_keys (vecs s') = request_keys (vecs s) ++ nf ∧
    failedKeys (vecs s') = failedKeys (vecs s) ++ nl ∧
    partialKeys (vecs s') = partialKeys (vecs s) ++ np ∧
    calls s' = calls s ++ [theCall c req] ∧
    (key <$> nf) ++ (key <$> nl) ++ (key <$> np) ++ missingNames (theCall c req)
    ⊆+ key <$> keys req.
Proof.
  intros Hnd Hg.
  apply getWithClient_Some in Hg as (_ & Hc & Hk & _ & Hf & Hp & _).
  simpl in Hk, Hf, Hp.
  eexists _, _, _. split; [exact Hk|]. split; [exact Hf|]. split; [exact Hp|].
  split; [exact Hc|].
  unfold missingNames. rewrite <- !fmap_app.
  etrans; [|apply (Hnd c req)].
  apply fmap_submseteq. etrans; [|apply sublist_submseteq, visitedPairs_sublist].
  apply fmap_submseteq, withVerdict_partition.
Qed.

Lemma startIteration_vecs i (c : C) s :
  vecs (startIteration i c s) = mkKeyVectors (request_keys (vecs s)) [] [] ∧
  calls (startIteration i c s) = calls s.
Proof. unfold startIteration. by case_decide. Qed.

Lemma getIteration_names strict ks n i (c : C) cr s s' :
  no_duplication C →
  NoDup (key <$> keys cr) →
  stepState (getIteration strict ks n i c cr s) = Some s' →
  ∃ nf new,
    request_keys (vecs s') = request_keys (vecs s) ++ nf ∧
    calls s' = calls s ++ new ∧
    (key <$> nf) ++ (key <$> failedKeys (vecs s')) ++ (key <$> partialKeys (vecs s'))
    ++ concat (missingNames <$> new) ⊆+ key <$> keys cr ∧
    Forall (asks_within (key <$> keys cr)) new ∧
    retiring new.
Proof.
  intros Hnd Hcr Hst. apply getIteration_end in Hst as (c1 & s2 & H1 & Hrest).
  destruct (getWithClient_names _ _ _ _ _ _ _ Hnd H1)
    as (nf1 & nl1 & np1 & Hk1 & Hf1 & Hp1 & Hc1 & M1).
  destruct (startIteration_vecs i c s) as [Hv0 Hc0].
  rewrite Hv0 in Hk1, Hf1, Hp1. rewrite Hc0 in Hc1. simpl in Hk1, Hf1, Hp1.
  assert (Hcall1 : asks_within (key <$> keys cr) (theCall c cr)).
  { split; [done|]. intros x Hx. eapply elem_of_submseteq; [exact Hx | apply (Hnd c cr)]. }
  destruct Hrest as [[_ ->]|(_ & c3 & H2)].
  - exists nf1, [theCall c cr]. split; [done|]. split; [done|].
    split; [|split; [by constructor|]].
    + rewrite Hf1, Hp1. simpl. by rewrite app_nil_r.
    + simpl. split; [|done]. intros; constructor.
  - destruct (getWithClient_names _ _ _ _ _ _ _ Hnd H2)
      as (nf2 & nl2 & np2 & Hk2 & Hf2 & Hp2 & Hc2 & M2).
    set (call2 := theCall _ (retryRequest cr s2)) in *.
    assert (Hreq2 : key <$> requestedKeys (call_requests call2)
                    ⊆+ key <$> failedKeys (vecs s2)) by apply Hnd.
    simpl in Hk2, Hf2, Hp2, Hc2, M2. rewrite Hf1 in M2, Hreq2.
    assert (Hnl1 : (key <$> nl1) ⊆ (key <$> keys cr)).
    { intros x Hx. eapply elem_of_submseteq; [|exact M1].
      apply elem_of_app. right. apply elem_of_app. by left. }
    exists (nf1 ++ nf2), [theCall c cr; call2].
    split; [by rewrite Hk2, Hk1, app_assoc|].
    split; [by rewrite Hc2, Hc1, <- app_assoc|].
    split; [|split].
    + rewrite Hf2, Hp2, Hp1, !fmap_app. simpl. rewrite app_nil_r.
      trans ((key <$> nf1)
             ++ ((key <$> nf2) ++ (key <$> nl2) ++ (key <$> np2) ++ missingNames call2)
             ++ (key <$> np1) ++ missingNames (theCall c cr)); [solve_submseteq|].
      etrans; [|exact M1].
      by apply submseteq_skips_l, submseteq_skips_r.
    + constructor; [done|]. constructor; [|done]. split.
      * simpl. by rewrite Hf1.
      * intros x Hx. apply Hnl1. by eapply elem_of_submseteq.
    + simpl. split; [|split; [intros; constructor | done]].
      intros x Hx. constructor; [|done].
      assert (Hnot : x ∉ key <$> nl1).
      { assert (Hnd1 : NoDup ((key <$> nl1) ++ missingNames (theCall c cr))).
        { apply submseteq_Permutation in M1 as [rest Hperm]. rewrite Hperm in Hcr.
          assert (Hperm' : ((key <$> nf1) ++ (key <$> nl1) ++ (key <$> np1)
                            ++ missingNames (theCall c cr)) ++ rest
                           ≡ₚ ((key <$> nl1) ++ missingNames (theCall c cr))
                              ++ (key <$> nf1) ++ (key <$> np1) ++ rest)
            by solve_Permutation.
          rewrite Hperm' in Hcr. by apply NoDup_app in Hcr as [? _]. }
        apply NoDup_app in Hnd1 as (_ & Hdis & _). intros Hin. by apply (Hdis x). }
      split.
      * simpl. by rewrite Hf1.
      * intros Hin. apply Hnot. by eapply elem_of_submseteq.
Qed.
End ReadNames.

Lemma submseteq_NoDup {A} (l1 l2 : list A) : l1 ⊆+ l2 → NoDup l2 → NoDup l1.
Proof.
  intros [k Hperm]%submseteq_Permutation Hnd. rewrite Hperm in Hnd.
  by apply NoDup_app in Hnd as [? _].
Qed.

Lemma restoreShardId_names ks (l : list Key) : key <$> (restoreShardId ks <$> l) = key <$> l.
Proof.
  rewrite <- list_fmap_compose. apply list_fmap_ext. intros _ k _. simpl.
  apply restoreShardId_key.
Qed.


(** What a turn's sub-multiset bound gives, for found names [F], the names
    [a], [b], [c] the turn put in the three vectors, and the names [m] it was
    answered KEY_MISSING for. *)
Lemma names_bound (F a b c m R : list string) :
  NoDup (F ++ R) →
  a ++ b ++ c ++ m ⊆+ R →
  NoDup ((F ++ a) ++ b ++ c) ∧
  a ⊆ R ∧ b ⊆ R ∧ c ⊆ R ∧
  ∀ x, x ∈ m → (x ∉ F ++ a) ∧ (x ∉ b) ∧ (x ∉ c).
Proof.
  intros Hnd M.
  assert (Hall : NoDup (m ++ F ++ a ++ b ++ c)).
  { eapply submseteq_NoDup; [|exact Hnd].
    trans (F ++ a ++ b ++ c ++ m); [solve_submseteq|]. by apply submseteq_skips_l. }
  split; [|split; [|split; [|split]]].
  - apply NoDup_app in Hall as (_ & _ & Hall). by rewrite <- app_assoc.
  - intros x Hx. eapply elem_of_submseteq; [|exact M]. apply elem_of_app. by left.
  - intros x Hx. eapply elem_of_submseteq; [|exact M].
    apply elem_of_app. right. apply elem_of_app. by left.
  - intros x Hx. eapply elem_of_submseteq; [|exact M].
    apply elem_of_app. right. apply elem_of_app. right. apply elem_of_app. by left.
  - intros x Hx. apply NoDup_app in Hall as (_ & Hdis & _). specialize (Hdis x Hx).
    rewrite !not_elem_of_app in Hdis. rewrite !not_elem_of_app. tauto.
Qed.

Section ReadLoopNames.
Context {C A : Type} `{!BeringeiNetworkClient C}
  `{!BeringeiConfigurationAdapterIf A} `{!NetworkClientSetup C A}.



End ReadLoopNames.

(** ** The scripted client keeps to the keys it is given *)

Lemma mock_performGet_requested m c :
  requestedKeys (mock_performGet m c).1 = requestedKeys m.
Proof.
  unfold mock_performGet, requestedKeys. simpl.
  rewrite <- list_fmap_compose. f_equal. apply list_fmap_ext.
  by intros _ [h [req res]] _.
Qed.

Lemma mock_addKeys_requested ks :
  ∀ m c,
    (length m ≤ 1)%nat →
    requestedKeys
      (foldl (λ '(requests, c) k, mock_addKey k requests c) (m, c) ks).1
    = requestedKeys m ++ ks.
Proof.
  induction ks as [|k ks IH]; intros m c Hm; simpl.
  - by rewrite app_nil_r.
  - destruct m as [|[h [req res]] [|e m]]; simpl in *; [| |lia].
    + rewrite IH by (simpl; lia). done.
    + rewrite IH by (simpl; lia). unfold requestedKeys. simpl.
      by rewrite !app_nil_r, <- app_assoc.
Qed.

Lemma mock_fetch_requested (c : MockClient) (request : GetDataRequest) :
  requestedKeys (fetch c request).1 = keys request.
Proof.
  unfold fetch. simpl.
  pose proof (mock_addKeys_requested (keys request) [] c) as Hadd.
  destruct (foldl _ _ _) as [requests c1]. simpl in Hadd.
  rewrite mock_performGet_requested. rewrite <- Hadd by lia.
  unfold requestedKeys. rewrite <- list_fmap_compose. f_equal.
  apply list_fmap_ext. by intros _ [h [req res]] _.
Qed.

Lemma mock_no_fabrication : no_fabrication MockClient.
Proof. intros c request. by rewrite mock_fetch_requested. Qed.

Lemma mock_no_duplication : no_duplication MockClient.
Proof. intros c request. by rewrite mock_fetch_requested. Qed.

Lemma mock_keeps_names : keeps_names MockClient.
Proof. intros c request. by rewrite mock_fetch_requested. Qed.

Lemma caching_addKeys_requested ks :
  ∀ m (c : CachingClient),
    (length m ≤ 1)%nat →
    requestedKeys
      (foldl (λ '(requests, c) k, addKeyToGetRequest k requests c) (m, c) ks).1
    = requestedKeys m ++ ((λ k, mkKey (key k) (cache_shard c)) <$> ks) ∧
    cache_shard
      (foldl (λ '(requests, c) k, addKeyToGetRequest k requests c) (m, c) ks).2
    = cache_shard c.
Proof.
  induction ks as [|k ks IH]; intros m c Hm.
  - simpl. by rewrite app_nil_r.
  - destruct m as [|[h [req res]] [|e m]]; simpl in Hm; [| |lia].
    + destruct (IH [(mock_host, (mkGetDataRequest [mkKey (key k) (cache_shard c)] 0 0,
                                 mkGetDataResult []))]
                  (mkCaching (cache_shard c) (cached c))) as [Hreq Hshard];
        [simpl; lia|].
      split; [|exact Hshard]. etrans; [exact Hreq|]. done.
    + destruct (IH [(h, (mkGetDataRequest (keys req ++ [mkKey (key k) (cache_shard c)])
                           (begin_ req) (end_ req), res))]
                  (mkCaching (cache_shard c) (cached c))) as [Hreq Hshard];
        [simpl; lia|].
      split; [|exact Hshard]. etrans; [exact Hreq|].
      unfold requestedKeys. simpl. by rewrite !app_nil_r, <- app_assoc.
Qed.

Lemma caching_fetch_requested (c : CachingClient) (request : GetDataRequest) :
  requestedKeys (fetch c request).1
  = (λ k, mkKey (key k) (cache_shard c)) <$> keys request.
Proof.
  unfold fetch.
  destruct (caching_addKeys_requested (keys request) [] c) as [Hadd _]; [simpl; lia|].
  destruct (foldl _ _ _) as [requests c1]. simpl in Hadd.
  unfold performGet, CachingClient_client, recache. cbn [fst].
  rewrite mock_performGet_requested. rewrite <- Hadd.
  unfold requestedKeys. rewrite <- list_fmap_compose. f_equal.
  apply list_fmap_ext. by intros _ [h [req res]] _.
Qed.

Lemma caching_keeps_names : keeps_names CachingClient.
Proof.
  intros c request. rewrite caching_fetch_requested, <- list_fmap_compose. done.
Qed.

(** ** The theorems at work *)


Example read_failover :
  ∃ s, get false (readersOf [readerA; readerB]) twoKeys emptyResult "" journal0
       = Some (Returned s) ∧
    request_keys (vecs s) = [k1] ∧
    results (result s) = [answer OK [block1]] ∧
    (call_service <$> calls s) = ["A"; "A"; "B"] ∧
    (call_keys <$> calls s) = [[k1; k2]; [k1]; [k1]] ∧
    stats (rworld s) = [("gorilla_client.read_failover", Count 1)].
Proof. eexists. split; [vm_compute; reflexivity|]. repeat split. Qed.

(** The last read client still fails for [k1] after the retry: in strict
    mode the call throws. *)
Lemma get_residual_keys_witness :
  ∃ s, get true (readersOf [readerA]) twoKeys emptyResult "" journal0
       = Some (Thrown "Failed reading data from gorilla" s) ∧
    failedKeys (vecs s) ++ partialKeys (vecs s) = [k1] ∧
    (call_keys <$> calls s) = [[k1; k2]; [k1]] ∧
    request_keys (vecs s) = [] ∧ results (result s) = [].
Proof.
  destruct (get_residual_keys true (readersOf [readerA]) twoKeys emptyResult "" journal0
              journal0 [readerA])
    as (s & Hget & _ & Hleft & Hcalls & Hkeys & Hres & _).
  - reflexivity.
  - apply Forall_finalized_check. vm_compute. reflexivity.
  - exists s. split; [exact Hget|]. split; [exact Hleft|].
    split; [by rewrite Hcalls|]. split; [exact Hkeys | exact Hres].
Defined.

(** A read client with a shard cache of its own, and a result that is not
    empty when [get] is called: the key that comes back has the name of a
    requested key and the shard id of the cache, and its answer is the entry
    behind the one that was there. *)
Lemma get_no_fabrication_witness :
  ∃ s, get false (readersOf [cachingB]) twoKeys usedResult "" journal0
       = Some (Returned s) ∧
    request_keys (vecs s) = [mkKey "k1" 99] ∧
    (status <$> results (result s)) = [KEY_MISSING; OK] ∧
    (∀ k, k ∈ request_keys (vecs s) → key k ∈ key <$> keys twoKeys) ∧
    (∀ i k, request_keys (vecs s) !! i = Some k →
            ∃ r, results (result s) !! (1 + i)%nat = Some r ∧ answered (calls s) k r).
Proof.
  eexists. split; [vm_compute; reflexivity|].
  split; [reflexivity|]. split; [reflexivity|].
  edestruct (get_no_fabrication false (readersOf [cachingB]) twoKeys usedResult ""
               journal0) as (_ & Hidx & _ & Hnames & _).
  - vm_compute. reflexivity.
  - split; [exact (Hnames caching_keeps_names) | exact Hidx].
Defined.

(** C8, as stated, fails on both counts with that read client and that
    result: the key that comes back is no key of the original request, for
    the caller gave [k1] the shard id 1; and the first entry of the result is
    not the answer for the first key of the vector, the result has one entry
    more than there are keys. *)
Lemma get_shard_override_counterexample :
  ∃ s, get false (readersOf [cachingB]) twoKeys usedResult "" journal0
       = Some (Returned s) ∧
    ¬ (∀ k, k ∈ request_keys (vecs s) → k ∈ keys twoKeys) ∧
    ¬ Forall2 (answered (calls s)) (request_keys (vecs s)) (results (result s)).
Proof.
  eexists. split; [vm_compute; reflexivity|]. split.
  - intros Hall. specialize (Hall (mkKey "k1" 99) ltac:(by left)).
    apply elem_of_cons in Hall as [Heq|Hall]; [discriminate|].
    apply list_elem_of_singleton in Hall. discriminate.
  - intros Hall. apply Forall2_length in Hall. discriminate.
Qed.

Lemma in_progress_keys_witness :
  ∃ s1, classify RequestKeys FailedKeys (inProgressArg false false) (partialDataArg false)
          k1 (answer SHARD_IN_PROGRESS [block1]) state0 = Some s1 ∧
        partialKeys (vecs s1) = [k1] ∧ request_keys (vecs s1) = [] ∧
        results (result s1) = [].
Proof.
  destruct (in_progress_keys false ∅ 2 0 loadingReader twoKeys state0 k1
              (answer SHARD_IN_PROGRESS [block1])) as [(s1 & Hc & Hrec) _].
  - by left.
  - exists s1. split; [exact Hc | exact Hrec].
Defined.

(** C3, as stated, fails in strict mode on the last read client for a key
    answered MISSING_TOO_MUCH_DATA with data: the key is accepted, not
    recorded as partial, and [get] returns. *)
Lemma strict_gap_counterexample :
  ¬ (∀ s1, classify RequestKeys FailedKeys (inProgressArg true true) (partialDataArg true)
             k1 (answer MISSING_TOO_MUCH_DATA [block1]) state0 = Some s1 →
           partialKeys (vecs s1) = [k1] ∧ results (result s1) = []).
Proof. intros H. destruct (H _ eq_refl) as [Hp _]. discriminate Hp. Qed.

Example strict_gap_returns :
  ∃ s, get true (readersOf [gapReader]) twoKeys emptyResult "" journal0
       = Some (Returned s) ∧
    request_keys (vecs s) = [k1; k2] ∧ partialKeys (vecs s) = [] ∧
    (status <$> results (result s)) = [MISSING_TOO_MUCH_DATA; OK].
Proof. eexists. split; [vm_compute; reflexivity|]. repeat split. Qed.

Example strict_loading_throws :
  ∃ s, get true (readersOf [loadingReader]) twoKeys emptyResult "" journal0
       = Some (Thrown "Failed reading data from gorilla" s) ∧
    request_keys (vecs s) = [k2] ∧ partialKeys (vecs s) = [k1].
Proof. eexists. split; [vm_compute; reflexivity|]. repeat split. Qed.

Example lenient_loading_returns :
  ∃ s, get false (readersOf [loadingReader]) twoKeys emptyResult "" journal0
       = Some (Returned s) ∧
    request_keys (vecs s) = [k1; k2] ∧
    (status <$> results (result s)) = [SHARD_IN_PROGRESS; OK].
Proof. eexists. split; [vm_compute; reflexivity|]. repeat split. Qed.

Example lenient_failure_returns :
  ∃ s, get false (readersOf [readerA]) twoKeys emptyResult "" journal0
       = Some (Returned s) ∧
    failedKeys (vecs s) = [k1] ∧ request_keys (vecs s) = [] ∧
    results (result s) = [].
Proof. eexists. split; [vm_compute; reflexivity|]. repeat split. Qed.

Example unfinalized_aborts :
  get false (readersOf [unfinalizedReader; readerB]) twoKeys emptyResult "" journal0
  = Some Aborted.
Proof. vm_compute. reflexivity. Qed.

(** An override that names a valid service which is not among the read
    clients and cannot be reached: [get] throws what the construction of
    the client threw, in either mode, and has touched nothing. *)
Example override_throws :
  ∀ strict,
    get strict (readersOf [readerA]) twoKeys emptyResult "west" journal0
    = Some (Thrown "no route to service" (untouched twoKeys emptyResult world0)).
Proof. intros []; reflexivity. Qed.

(** An override that names one of the read clients: the vector is assigned
    to inside the loop that walks it. *)
Example override_found_undefined :
  get false (readersOf [readerA; readerB]) twoKeys emptyResult "B" journal0 = None.
Proof. reflexivity. Qed.

(** ** putDataPoints: what is pushed and what is recorded *)

Section PutEffects.
Context {C Q : Type} `{!BeringeiNetworkClient C} `{!RequestBatchingQueue Q}.

Lemma putLoop_spec numPoints n wcs :
  ∀ i values all w,
    n = (i + length wcs)%nat →
    numPoints = Z.of_nat (length values) →
    let r := putLoop numPoints n i wcs values all w in
    r.1.1.1 = pushed values <$> wcs ∧
    r.1.1.2 = match last wcs with
              | None => values
              | Some wc => (push values (queue wc)).1.2
              end ∧
    stats r.2 = stats w ++ (wcs ≫= enqueueStats values) ∧
    logs r.2 = logs w ∧ clock_us r.2 = clock_us w.
Proof.
  induction wcs as [|wc rest IH]; intros i values all w Hn Hnum.
  - simpl. by rewrite app_nil_r.
  - simpl in Hn. cbn [putLoop]. unfold putOne.
    rewrite fmap_cons, bind_cons.
    assert (Hstat : ∀ ok : bool,
      stats (addStatValue (String.append kQueueSizeKey (getServiceName (client wc)))
               (q_size (push values (queue wc)).2)
               (if ok
                then addStatValue (String.append kEnqueuedKey (getServiceName (client wc)))
                       numPoints w
                else addStatValue (String.append kEnqueueDroppedKey
                                     (getServiceName (client wc))) numPoints w))
      = stats w ++
        [(String.append (if ok then kEnqueuedKey else kEnqueueDroppedKey)
            (getServiceName (client wc)), Count (Z.of_nat (length values)));
         (String.append kQueueSizeKey (getServiceName (client wc)),
          Count (q_size (push values (queue wc)).2))]).
    { intros ok. subst numPoints. destruct ok; simpl; by rewrite <- app_assoc. }
    unfold pushed at 1, enqueueStats at 1, accepts.
    destruct (decide (i < n - 1)%nat) as [Hlt|Hge].
    + destruct (push values (queue wc)) as [[ok left] q'] eqn:Hp.
      cbn [fst snd] in Hstat |- *.
      specialize (IH (S i) values (if ok then true else all)
        (addStatValue (String.append kQueueSizeKey (getServiceName (client wc))) (q_size q')
           (if ok
            then addStatValue (String.append kEnqueuedKey (getServiceName (client wc)))
                   numPoints w
            else addStatValue (String.append kEnqueueDroppedKey (getServiceName (client wc)))
                   numPoints w))
        ltac:(lia) Hnum).
      destruct (putLoop _ _ _ _ _ _ _) as [[[rest' v''] all''] w''] eqn:Hl.
      cbn [fst snd] in IH |- *. destruct IH as (Hw & Hv & Hs & Hlg & Hc).
      subst rest'. split; [done|]. split.
      { destruct rest as [|wc2 rest]; [simpl in Hn; lia|]. rewrite Hv. done. }
      rewrite Hs, Hlg, Hc, Hstat, <- app_assoc. by destruct ok.
    + assert (rest = []) as -> by (destruct rest; [done | simpl in Hn; lia]).
      destruct (push values (queue wc)) as [[ok left] q'] eqn:Hp.
      cbn [fst snd putLoop last] in Hstat |- *. rewrite Hp.
      rewrite Hstat, app_nil_r. by destruct ok.
Qed.

Lemma putLoop_of_putDataPoints (values : list DataPoint) (st : BeringeiClientImpl C Q) :
  values ≠ [] →
  putDataPoints values st
  = let r := putLoop (Z.of_nat (length values)) (length (writeClients_ st)) 0
               (writeClients_ st) values false (world st) in
    (r.1.2, r.1.1.2,
     mkImpl r.1.1.1 (writers_ st) (retryWriters_ st) (retryQueue_ st)
       (numRetryQueuedDataPoints_ st) r.2).
Proof.
  intros Hne. unfold putDataPoints.
  destruct (decide (Z.of_nat (length values) = 0)) as [H0|_].
  { destruct values; [done | cbn [length] in H0; lia]. }
  by destruct (putLoop _ _ _ _ _ _ _) as [[[wcs v'] all] w].
Qed.

(** X1. For a batch with points [putDataPoints] pushes the batch to the queue
    of every write client, once each and in order, and touches nothing else of
    the client object: not the clients, the threads, the retry queue or its
    counter. The caller's vector is handed to the last queue only (the others
    get copies): what the last push leaves of it is what the caller has
    afterwards, and without a write client the vector stays as it is. *)
Theorem putDataPoints_fans_out (values : list DataPoint) (st : BeringeiClientImpl C Q) :
  values ≠ [] →
  let st' := (putDataPoints values st).2 in
  writeClients_ st' = pushed values <$> writeClients_ st ∧
  (putDataPoints values st).1.2
    = match last (writeClients_ st) with
      | None => values
      | Some wc => (push values (queue wc)).1.2
      end ∧
  writers_ st' = writers_ st ∧ retryWriters_ st' = retryWriters_ st ∧
  retryQueue_ st' = retryQueue_ st ∧
  numRetryQueuedDataPoints_ st' = numRetryQueuedDataPoints_ st.
Proof.
  intros Hne. rewrite (putLoop_of_putDataPoints values st Hne). cbv zeta.
  pose proof (putLoop_spec (Z.of_nat (length values)) (length (writeClients_ st))
                (writeClients_ st) 0 values false (world st) eq_refl eq_refl) as Hspec.
  cbv zeta in Hspec. destruct Hspec as (Hw & Hv & _). by repeat split.
Qed.

(** X2. For a batch with points [putDataPoints] records, for every write
    client in order, the number of points of the batch under the enqueued key
    of the service when its queue took the batch and under the enqueue-dropped
    key when it did not, and then the size of its queue; it records nothing
    else and logs nothing. *)
Theorem putDataPoints_statistics (values : list DataPoint) (st : BeringeiClientImpl C Q) :
  values ≠ [] →
  let st' := (putDataPoints values st).2 in
  stats (world st') = stats (world st) ++ (writeClients_ st ≫= enqueueStats values) ∧
  logs (world st') = logs (world st) ∧
  clock_us (world st') = clock_us (world st).
Proof.
  intros Hne. rewrite (putLoop_of_putDataPoints values st Hne). cbv zeta.
  pose proof (putLoop_spec (Z.of_nat (length values)) (length (writeClients_ st))
                (writeClients_ st) 0 values false (world st) eq_refl eq_refl) as Hspec.
  cbv zeta in Hspec. destruct Hspec as (_ & _ & Hs & Hlg & Hc). by repeat split.
Qed.

Lemma putDataPoints_retry_unchanged values (st : BeringeiClientImpl C Q) :
  retryQueue_ (putDataPoints values st).2 = retryQueue_ st ∧
  numRetryQueuedDataPoints_ (putDataPoints values st).2 = numRetryQueuedDataPoints_ st.
Proof.
  unfold putDataPoints. destruct (decide _); [done|].
  by destruct (putLoop _ _ _ _ _ _ _) as [[[wcs v'] all] w].
Qed.
End PutEffects.

Lemma putDataPoints_fans_out_witness :
  let st' := (putDataPoints [dp_a0; dp_a60] twoQueues).2 in
  writeClients_ st' = pushed [dp_a0; dp_a60] <$> writeClients_ twoQueues ∧
  (putDataPoints [dp_a0; dp_a60] twoQueues).1.2
    = match last (writeClients_ twoQueues) with
      | None => [dp_a0; dp_a60]
      | Some wc => (push [dp_a0; dp_a60] (queue wc)).1.2
      end ∧
  writers_ st' = writers_ twoQueues ∧ retryWriters_ st' = retryWriters_ twoQueues ∧
  retryQueue_ st' = retryQueue_ twoQueues ∧
  numRetryQueuedDataPoints_ st' = numRetryQueuedDataPoints_ twoQueues.
Proof.
  apply (putDataPoints_fans_out [dp_a0; dp_a60] twoQueues). discriminate.
Defined.

Lemma putDataPoints_statistics_witness :
  let st' := (putDataPoints [dp_a0; dp_a60] twoQueues).2 in
  stats (world st')
  = stats (world twoQueues) ++ (writeClients_ twoQueues ≫= enqueueStats [dp_a0; dp_a60]) ∧
  logs (world st') = logs (world twoQueues) ∧
  clock_us (world st') = clock_us (world twoQueues).
Proof.
  apply (putDataPoints_statistics [dp_a0; dp_a60] twoQueues). discriminate.
Defined.

(** ** Writer threads: what starting does *)

Section ThreadEffects.
Context {C Q : Type} `{!BeringeiNetworkClient C} `{!RequestBatchingQueue Q}.

Lemma writeShutdownOperations_withShutdowns (threads : list Thread) :
  ∀ q, writeShutdownOperations threads q = withShutdowns (length threads) q.
Proof.
  unfold writeShutdownOperations.
  induction threads as [|t rest IH]; intros q.
  - unfold withShutdowns. simpl. rewrite app_nil_r. by destruct q.
  - cbn [foldl length]. rewrite IH. unfold withShutdowns, mpmc_write.
    destruct (decide (length (items q) < capacity q)%nat) as [Hlt|Hge];
      cbn [snd capacity items].
    + f_equal. rewrite length_app. cbn [length]. rewrite <- app_assoc. f_equal.
      replace (S (length rest) `min` (capacity q - length (items q)))%nat
        with (S (length rest `min` (capacity q - (length (items q) + 1))))%nat by lia.
      done.
    + f_equal. f_equal.
      replace (length rest `min` (capacity q - length (items q)))%nat with 0%nat by lia.
      replace (S (length rest) `min` (capacity q - length (items q)))%nat with 0%nat by lia.
      done.
Qed.

Lemma length_flat_map_replicate {T} (f : nat → T) n (l : list nat) :
  length (flat_map (λ j, replicate n (f j)) l) = (n * length l)%nat.
Proof.
  induction l as [|x l IH]; simpl; [lia|].
  rewrite length_app, length_replicate, IH. lia.
Qed.

Lemma startWriterThreads_fresh flags n (st : BeringeiClientImpl C Q) :
  writers_ st = [] → retryWriters_ st = [] →
  let st' := startWriterThreads flags n st in
  writeClients_ st' = writeClients_ st ∧
  writers_ st'
  = flat_map (λ j, replicate (Z.to_nat n) (WriterThread j))
      (seq 0 (length (writeClients_ st))) ∧
  length (writers_ st') = (Z.to_nat n * length (writeClients_ st))%nat ∧
  retryWriters_ st'
  = (if decide (n > 0) then replicate (gorilla_write_retry_threads flags) RetryThread
     else []) ∧
  retryQueue_ st' = retryQueue_ st ∧
  numRetryQueuedDataPoints_ st' = numRetryQueuedDataPoints_ st ∧
  world st' = world st.
Proof.
  intros Hw Hr. unfold startWriterThreads.
  destruct (decide (n > 0)) as [Hpos|Hneg]; simpl.
  - rewrite Hw, Hr. simpl. rewrite length_flat_map_replicate, length_seq. done.
  - rewrite Hw, Hr. replace (Z.to_nat n) with 0%nat by lia. simpl.
    assert (flat_map (λ _ : nat, @nil Thread) (seq 0 (length (writeClients_ st))) = [])
      as ->; [|done].
    induction (seq 0 (length (writeClients_ st))); simpl; done.
Qed.

Lemma startWriterThreads_retry_unchanged flags n (st : BeringeiClientImpl C Q) :
  retryQueue_ (startWriterThreads flags n st) = retryQueue_ st ∧
  numRetryQueuedDataPoints_ (startWriterThreads flags n st) = numRetryQueuedDataPoints_ st.
Proof. unfold startWriterThreads. by destruct (decide _). Qed.
End ThreadEffects.

(** ** The workers: what a thread touches, and how the threads end *)

Section WorkerEffects.
Context {C Q : Type} `{!BeringeiNetworkClient C} `{!RequestBatchingQueue Q}.

Lemma pointsOf_cons op ops :
  pointsOf (op :: ops) = Z.of_nat (length (dataPoints op)) + pointsOf ops.
Proof. unfold pointsOf. rewrite bind_cons, length_app. lia. Qed.

Lemma retryIteration_shutdown (st : BeringeiClientImpl C Q) op rest :
  items (retryQueue_ st) = op :: rest → dataPoints op = [] →
  retryIteration st
  = Some (false,
          mkImpl (writeClients_ st) (writers_ st) (retryWriters_ st)
            (mkMPMCQueue (capacity (retryQueue_ st)) rest)
            (numRetryQueuedDataPoints_ st)
            (LOG LogRetryShutdown
               (addStatValue kRetryQueueSizeKey (numRetryQueuedDataPoints_ st) (world st)))).
Proof.
  intros Hitems Hempty. unfold retryIteration, mpmc_blockingRead.
  rewrite Hitems. simpl. rewrite Hempty. simpl. by rewrite Z.sub_0_r.
Qed.

Lemma retryIteration_work (st : BeringeiClientImpl C Q) op rest :
  items (retryQueue_ st) = op :: rest → workable st op →
  ∃ st', retryIteration st = Some (true, st') ∧
    retryQueue_ st' = mkMPMCQueue (capacity (retryQueue_ st)) rest ∧
    numRetryQueuedDataPoints_ st'
    = numRetryQueuedDataPoints_ st - Z.of_nat (length (dataPoints op)) ∧
    length (writeClients_ st') = length (writeClients_ st) ∧
    queue <$> writeClients_ st' = queue <$> writeClients_ st ∧
    writers_ st' = writers_ st ∧ retryWriters_ st' = retryWriters_ st.
Proof.
  intros Hitems [Hne Hidx]. unfold retryIteration, mpmc_blockingRead.
  rewrite Hitems. simpl.
  assert (vec_empty (dataPoints op) = false) as -> by (by destruct (dataPoints op)).
  destruct (lookup_lt_is_Some_2 (writeClients_ st) (op_client op) Hidx) as [wc Hwc].
  rewrite Hwc. simpl.
  destruct (decide (retryTimeSecs op < _)) as [Hold|Hfresh].
  - eexists. split; [reflexivity|]. simpl. by repeat split.
  - destruct (buildRetryRequest _ _ _ _) as [[c1 requestMap] totalDropped] eqn:Hb.
    unfold putWithStats.
    destruct (performPut requestMap _ c1) as [dropped c2] eqn:Hput.
    eexists. split; [reflexivity|]. simpl.
    split; [done|]. split; [done|]. split; [by rewrite length_insert|].
    split; [|done].
    rewrite list_fmap_insert. simpl. apply list_insert_id.
    by rewrite list_lookup_fmap, Hwc.
Qed.

Lemma retryThread_Some (fuel : nat) (st : BeringeiClientImpl C Q)
    (ops : list RetryOperation) (stop : RetryOperation) (rest : list RetryOperation) :
  items (retryQueue_ st) = ops ++ stop :: rest →
  dataPoints stop = [] →
  Forall (workable st) ops →
  (length ops < fuel)%nat →
  ∃ st', retryThread fuel st = Some st' ∧
    retryQueue_ st' = mkMPMCQueue (capacity (retryQueue_ st)) rest ∧
    numRetryQueuedDataPoints_ st' = numRetryQueuedDataPoints_ st - pointsOf ops ∧
    last (logs (world st')) = Some LogRetryShutdown ∧
    length (writeClients_ st') = length (writeClients_ st) ∧
    queue <$> writeClients_ st' = queue <$> writeClients_ st ∧
    writers_ st' = writers_ st ∧ retryWriters_ st' = retryWriters_ st.
Proof.
  revert fuel st. induction ops as [|op ops IH]; intros fuel st Hitems Hstop Hops Hfuel.
  - destruct fuel as [|fuel]; [simpl in Hfuel; lia|].
    simpl in Hitems. cbn [retryThread].
    rewrite (retryIteration_shutdown st stop rest Hitems Hstop). simpl.
    eexists. split; [reflexivity|]. simpl. unfold pointsOf. simpl.
    repeat split; try done; [lia|]. by rewrite last_snoc.
  - destruct fuel as [|fuel]; [simpl in Hfuel; lia|].
    apply Forall_cons in Hops as [Hop Hops].
    destruct (retryIteration_work st op (ops ++ stop :: rest) Hitems Hop)
      as (st1 & Hit & Hrq & Hnum & Hlen & Hq & Hw & Hr).
    cbn [retryThread]. rewrite Hit. simpl.
    destruct (IH fuel st1) as (st' & Hrun & Hrq' & Hnum' & Hlog & Hlen' & Hq' & Hw' & Hr').
    { by rewrite Hrq. }
    { done. }
    { eapply Forall_impl; [exact Hops|]. intros o [? ?]. split; [done|]. by rewrite Hlen. }
    { simpl in Hfuel. lia. }
    exists st'. split; [done|].
    rewrite Hrq', Hrq, Hnum', Hnum, Hlen', Hlen, Hq', Hq, Hw', Hw, Hr', Hr.
    rewrite pointsOf_cons. repeat split; try done. lia.
Qed.

(** X6. A retry thread that finds the operations [ops], all with points and
    for existing write clients, and behind them a shutdown operation on the
    retry queue, works the operations off in order, reads the shutdown
    operation and returns (the fuel being more than the number of operations):
    what was queued behind the shutdown operation stays queued, the counter
    went down by the points of [ops], the last log line says that the thread
    shuts down, and no write queue and no thread list was touched. *)
Theorem retryThread_stops (fuel : nat) (st : BeringeiClientImpl C Q)
    (ops : list RetryOperation) (stop : RetryOperation) (rest : list RetryOperation) :
  items (retryQueue_ st) = ops ++ stop :: rest →
  dataPoints stop = [] →
  Forall (workable st) ops →
  (length ops < fuel)%nat →
  ∃ st', retryThread fuel st = Some st' ∧
    items (retryQueue_ st') = rest ∧
    capacity (retryQueue_ st') = capacity (retryQueue_ st) ∧
    numRetryQueuedDataPoints_ st' = numRetryQueuedDataPoints_ st - pointsOf ops ∧
    last (logs (world st')) = Some LogRetryShutdown ∧
    queue <$> writeClients_ st' = queue <$> writeClients_ st ∧
    writers_ st' = writers_ st ∧ retryWriters_ st' = retryWriters_ st.
Proof.
  intros Hitems Hstop Hops Hfuel.
  destruct (retryThread_Some fuel st ops stop rest Hitems Hstop Hops Hfuel)
    as (st' & Hrun & Hrq & Hnum & Hlog & _ & Hq & Hw & Hr).
  exists st'. rewrite Hrq. by repeat split.
Qed.

Lemma retryThread_None (st : BeringeiClientImpl C Q) :
  Forall (λ op, dataPoints op ≠ []) (items (retryQueue_ st)) →
  ∀ fuel, retryThread fuel st = None.
Proof.
  intros Hall fuel. revert st Hall.
  induction fuel as [|fuel IH]; intros st Hall; [done|].
  cbn [retryThread].
  destruct (retryIteration st) as [[goOn st1]|] eqn:Hit; [|done]. simpl.
  unfold retryIteration, mpmc_blockingRead in Hit.
  destruct (items (retryQueue_ st)) as [|op rest] eqn:Hitems; [done|].
  apply Forall_cons in Hall as [Hne Hall]. simpl in Hit.
  assert (vec_empty (dataPoints op) = false) as Hv by (by destruct (dataPoints op)).
  rewrite Hv in Hit.
  destruct (writeClients_ st !! op_client op) as [wc|] eqn:Hwc; [|done]. simpl in Hit.
  assert (goOn = true ∧ items (retryQueue_ st1) = rest) as [-> Hrest].
  { destruct (decide (retryTimeSecs op < _)); [by simplify_eq|].
    destruct (buildRetryRequest _ _ _ _) as [[c1 requestMap] totalDropped].
    destruct (putWithStats _ _ _ _) as [[dropped c2] w3]. by simplify_eq. }
  apply IH. by rewrite Hrest.
Qed.

Lemma has_points_dec (op : RetryOperation) :
  sumbool (dataPoints op ≠ []) (dataPoints op = []).
Proof. destruct (dataPoints op); [right | left]; done. Qed.

(** X7. A retry thread returns only by reading a shutdown operation: if it
    returns, an operation without points was on the retry queue. With nothing
    but operations with points there it never returns, whatever the fuel: it
    ends up blocked on the empty queue. *)
Theorem retryThread_needs_shutdown (fuel : nat) (st st' : BeringeiClientImpl C Q) :
  retryThread fuel st = Some st' →
  Exists (λ op, dataPoints op = []) (items (retryQueue_ st)).
Proof.
  intros Hrun.
  destruct (Forall_Exists_dec (λ op, dataPoints op ≠ []) (λ op, dataPoints op = [])
              has_points_dec (items (retryQueue_ st))) as [Hall|Hex]; [|done].
  by rewrite (retryThread_None st Hall fuel) in Hrun.
Qed.

Lemma mpmc_write_room op q :
  (length (items q) < capacity q)%nat →
  mpmc_write op q = (true, mkMPMCQueue (capacity q) (items q ++ [op])).
Proof. intros Hlt. unfold mpmc_write. by destruct (decide _). Qed.

Lemma enqueueRetry_effect flags idx (c : C) dropped rq num w :
  let r := enqueueRetry flags idx c dropped rq num w in
  (r.1.1 = rq ∧ r.1.2 = num) ∨
  ((length (items rq) < capacity rq)%nat ∧
   r.1.1 = mkMPMCQueue (capacity rq)
             (items rq ++ [mkRetryOperation idx dropped
                             (time w + gorilla_retry_delay_secs flags)]) ∧
   r.1.2 = num + Z.of_nat (length dropped)).
Proof.
  unfold enqueueRetry. destruct (decide (_ >= _)); [by left|].
  unfold mpmc_write. destruct (decide (_ < _)%nat); simpl; [right | left]; done.
Qed.

Lemma enqueueRetry_logs flags idx (c : C) dropped rq num w :
  ∃ extra, logs (enqueueRetry flags idx c dropped rq num w).2 = logs w ++ extra ∧
           LogWriterShutdown ∉ extra.
Proof.
  unfold enqueueRetry. destruct (decide (_ >= _)); simpl.
  - eexists. split; [reflexivity|]. intros Hin.
    apply list_elem_of_singleton in Hin. done.
  - destruct (mpmc_write _ _) as [[] rq']; simpl.
    + exists []. rewrite app_nil_r. split; [done|]. intros Hin.
      by apply elem_of_nil in Hin.
    + eexists. split; [reflexivity|]. intros Hin.
      apply list_elem_of_singleton in Hin. done.
Qed.

Lemma writeIteration_frame flags idx (st st' : BeringeiClientImpl C Q) keepWriting :
  writeIteration flags idx st = Some (keepWriting, st') →
  length (writeClients_ st') = length (writeClients_ st) ∧
  (∀ j, j ≠ idx → writeClients_ st' !! j = writeClients_ st !! j) ∧
  writers_ st' = writers_ st ∧ retryWriters_ st' = retryWriters_ st ∧
  capacity (retryQueue_ st') = capacity (retryQueue_ st) ∧
  ((retryQueue_ st' = retryQueue_ st ∧
    numRetryQueuedDataPoints_ st' = numRetryQueuedDataPoints_ st)
   ∨ ∃ op, (length (items (retryQueue_ st)) < capacity (retryQueue_ st))%nat ∧
       items (retryQueue_ st') = items (retryQueue_ st) ++ [op] ∧
       op_client op = idx ∧ dataPoints op ≠ [] ∧
       numRetryQueuedDataPoints_ st'
       = numRetryQueuedDataPoints_ st + Z.of_nat (length (dataPoints op))) ∧
  ∃ lines, logs (world st') = logs (world st) ++ lines ∧
    (keepWriting = false ↔ LogWriterShutdown ∈ lines).
Proof.
  unfold writeIteration. intros Hit.
  destruct (writeClients_ st !! idx) as [wc|] eqn:Hwc; [|done]. simpl in Hit.
  destruct (pop popVisitor _ _) as [[[[first second] [[c1 requests] droppedDataPoints]] q1]|];
    [|done].
  assert (Hshut : ∀ extra, LogWriterShutdown ∉ extra →
            first = false
            ↔ LogWriterShutdown ∈ (if first then [] else [LogWriterShutdown]) ++ extra).
  { intros extra Hextra. destruct first; simpl; split; try done.
    intros _. by left. }
  destruct (decide (second = 0)) as [Hz|Hnz].
  - injection Hit as Hk Hst. subst keepWriting st'. simpl. rewrite length_insert.
    split; [done|]. split; [by intros j Hj; apply list_lookup_insert_ne|].
    split; [done|]. split; [done|]. split; [done|]. split; [by left|].
    exists (if first then [] else [LogWriterShutdown]).
    split; [by destruct first; simpl; rewrite ?app_nil_r|].
    rewrite <- (app_nil_r (if first then [] else _)). apply Hshut.
    intros Hin. by apply elem_of_nil in Hin.
  - unfold putWithStats in Hit.
    destruct (performPut requests _ c1) as [dropped c2] eqn:Hput.
    remember (addStatValue (String.append kPutKey (getServiceName c2))
                (second - Z.of_nat (length dropped))
                (addStatTimer (String.append kUsPerPut (getServiceName c2))
                   (if first then world st else LOG LogWriterShutdown (world st))))
      as w2 eqn:Hw2.
    assert (Hlogs2 : logs w2 = logs (world st) ++ (if first then [] else [LogWriterShutdown])).
    { subst w2. destruct first; simpl; by rewrite ?app_nil_r. }
    remember (droppedDataPoints ++ dropped) as merged eqn:Hmerged.
    destruct (decide (0 < length merged)%nat) as [Hpos|Hnone].
    + pose proof (enqueueRetry_effect flags idx c2 merged (retryQueue_ st)
                    (numRetryQueuedDataPoints_ st) w2) as Heff.
      destruct (enqueueRetry_logs flags idx c2 merged (retryQueue_ st)
                  (numRetryQueuedDataPoints_ st) w2) as (extra & Hlogs3 & Hextra).
      destruct (enqueueRetry _ _ _ _ _ _ _) as [[rq num] w3] eqn:Henq.
      cbn [fst snd] in Heff, Hlogs3.
      assert (writeClients_ st' = <[idx := mkWriteClient c2 q1]> (writeClients_ st)
              ∧ writers_ st' = writers_ st ∧ retryWriters_ st' = retryWriters_ st
              ∧ retryQueue_ st' = rq ∧ numRetryQueuedDataPoints_ st' = num
              ∧ logs (world st') = logs w3 ∧ keepWriting = first)
        as (Hwcs & Hw & Hr & Hrq & Hnum & Hlogs & ->).
      { destruct (decide (q_size q1 < _)); by simplify_eq. }
      rewrite Hwcs, length_insert, Hw, Hr, Hrq, Hnum, Hlogs, Hlogs3, Hlogs2, <- app_assoc.
      split; [done|]. split; [by intros j Hj; apply list_lookup_insert_ne|].
      split; [done|]. split; [done|].
      split; [by destruct Heff as [[-> _]|(_ & -> & _)]|].
      split; [|eexists; split; [done | by apply Hshut]].
      destruct Heff as [[-> ->]|(Hroom & -> & ->)]; [by left|right].
      eexists. split; [done|]. split; [reflexivity|]. simpl.
      repeat split. intros Heq. rewrite Heq in Hpos. simpl in Hpos. lia.
    + assert (writeClients_ st' = <[idx := mkWriteClient c2 q1]> (writeClients_ st)
              ∧ writers_ st' = writers_ st ∧ retryWriters_ st' = retryWriters_ st
              ∧ retryQueue_ st' = retryQueue_ st
              ∧ numRetryQueuedDataPoints_ st' = numRetryQueuedDataPoints_ st
              ∧ logs (world st') = logs w2 ∧ keepWriting = first)
        as (Hwcs & Hw & Hr & Hrq & Hnum & Hlogs & ->).
      { destruct (decide (q_size q1 < _)); by simplify_eq. }
      rewrite Hwcs, length_insert, Hw, Hr, Hrq, Hnum, Hlogs, Hlogs2.
      split; [done|]. split; [by intros j Hj; apply list_lookup_insert_ne|].
      split; [done|]. split; [done|]. split; [done|]. split; [by left|].
      eexists. split; [done|].
      rewrite <- (app_nil_r (if first then [] else _)). apply Hshut.
      intros Hin. by apply elem_of_nil in Hin.
Qed.

(** X8. A writer thread that returns has changed nothing but its own write
    client, the retry queue with its counter, and the world: the other write
    clients and both thread lists are as before; the retry queue has only
    grown, at its end, by operations for this write client that carry points,
    and the counter by their points; and the log says that the thread shut
    down, which is the only way the loop ends. *)
Theorem writeDataPointsForever_frame
    (fuel : nat) (flags : Flags) (idx : nat) (st st' : BeringeiClientImpl C Q) :
  writeDataPointsForever fuel flags idx st = Some st' →
  length (writeClients_ st') = length (writeClients_ st) ∧
  (∀ j, j ≠ idx → writeClients_ st' !! j = writeClients_ st !! j) ∧
  writers_ st' = writers_ st ∧ retryWriters_ st' = retryWriters_ st ∧
  capacity (retryQueue_ st') = capacity (retryQueue_ st) ∧
  (∃ new, items (retryQueue_ st') = items (retryQueue_ st) ++ new ∧
     Forall (λ op, op_client op = idx ∧ dataPoints op ≠ []) new ∧
     numRetryQueuedDataPoints_ st' = numRetryQueuedDataPoints_ st + pointsOf new) ∧
  (∃ lines, logs (world st') = logs (world st) ++ lines ∧ LogWriterShutdown ∈ lines).
Proof.
  revert st. induction fuel as [|fuel IH]; intros st Hrun; [done|].
  cbn [writeDataPointsForever] in Hrun.
  destruct (writeIteration flags idx st) as [[keep st1]|] eqn:Hit; [|done].
  simpl in Hrun.
  destruct (writeIteration_frame flags idx st st1 keep Hit)
    as (Hlen & Hother & Hw & Hr & Hcap & Hq & lines1 & Hlogs & Hkeep).
  assert (Hq1 : ∃ new, items (retryQueue_ st1) = items (retryQueue_ st) ++ new ∧
     Forall (λ op, op_client op = idx ∧ dataPoints op ≠ []) new ∧
     numRetryQueuedDataPoints_ st1 = numRetryQueuedDataPoints_ st + pointsOf new).
  { destruct Hq as [[-> ->]|(op & _ & Hitems & Hidx & Hne & Hnum)].
    - exists []. rewrite app_nil_r. unfold pointsOf. simpl. split; [done|].
      split; [done | lia].
    - exists [op]. split; [done|]. split; [by repeat constructor|].
      rewrite Hnum, pointsOf_cons. unfold pointsOf. simpl. lia. }
  destruct keep.
  - destruct (IH st1 Hrun) as (Hlen' & Hother' & Hw' & Hr' & Hcap' & Hq' & Hlogs').
    rewrite Hlen', Hlen, Hw', Hw, Hr', Hr, Hcap', Hcap.
    split; [done|]. split; [by intros j Hj; rewrite Hother', Hother|].
    split; [done|]. split; [done|]. split; [done|]. split.
    + destruct Hq1 as (new1 & Hi1 & Hf1 & Hn1). destruct Hq' as (new2 & Hi2 & Hf2 & Hn2).
      exists (new1 ++ new2). rewrite Hi2, Hi1, <- app_assoc. split; [done|].
      split; [by apply Forall_app|].
      rewrite Hn2, Hn1. unfold pointsOf. rewrite bind_app, length_app. lia.
    + destruct Hlogs' as (lines & Hl & Hin). rewrite Hlogs in Hl.
      eexists. rewrite Hl, <- app_assoc. split; [done|].
      apply elem_of_app. by right.
  - simplify_eq. repeat split; try done.
    eexists. split; [exact Hlogs|]. by apply Hkeep.
Qed.

Lemma retryIteration_queue (st st' : BeringeiClientImpl C Q) goOn :
  retryIteration st = Some (goOn, st') →
  ∃ op, items (retryQueue_ st) = op :: items (retryQueue_ st') ∧
    capacity (retryQueue_ st') = capacity (retryQueue_ st) ∧
    numRetryQueuedDataPoints_ st'
    = numRetryQueuedDataPoints_ st - Z.of_nat (length (dataPoints op)).
Proof.
  intros Hit. unfold retryIteration, mpmc_blockingRead in Hit.
  destruct (items (retryQueue_ st)) as [|op rest] eqn:Hitems; [done|].
  simpl in Hit. exists op.
  destruct (vec_empty (dataPoints op)); [by simplify_eq|].
  destruct (writeClients_ st !! op_client op) as [wc|]; [|done]. simpl in Hit.
  destruct (decide (retryTimeSecs op < _)); [by simplify_eq|].
  destruct (buildRetryRequest _ _ _ _) as [[c1 requestMap] totalDropped].
  destruct (putWithStats _ _ _ _) as [[dropped c2] w3]. by simplify_eq.
Qed.

Lemma queuedPoints_items q q' op :
  items q = op :: items q' →
  queuedPoints q = Z.of_nat (length (dataPoints op)) + queuedPoints q'.
Proof. unfold queuedPoints. intros ->. rewrite bind_cons, length_app. lia. Qed.

Lemma withShutdowns_ok n q :
  (length (items q) ≤ capacity q)%nat →
  queuedPoints (withShutdowns n q) = queuedPoints q ∧
  (length (items (withShutdowns n q)) ≤ capacity (withShutdowns n q))%nat.
Proof.
  intros Hle. unfold withShutdowns, queuedPoints. simpl.
  rewrite bind_app, !length_app, length_replicate. split; [|lia].
  assert (length (replicate (n `min` (capacity q - length (items q))) shutdownOperation
                    ≫= dataPoints) = 0%nat) as ->; [|lia].
  induction (n `min` _)%nat; simpl; done.
Qed.

Lemma startWriterThreads_counter_ok flags n (st : BeringeiClientImpl C Q) :
  counter_ok st → counter_ok (startWriterThreads flags n st).
Proof. unfold startWriterThreads. by destruct (decide _). Qed.

Lemma shutdownLines_logs w w' : logs w' = logs w → shutdownLines w' = shutdownLines w.
Proof. unfold shutdownLines. by intros ->. Qed.

Lemma shutdownLines_LOG l w :
  shutdownLines (LOG l w) = (shutdownLines w + (if is_shutdown l then 1 else 0))%nat.
Proof.
  unfold shutdownLines, LOG. simpl. rewrite filter_app, length_app. f_equal.
  rewrite filter_cons, filter_nil. destruct (is_shutdown l); by case_decide.
Qed.

Lemma shutdownLines_logDroppedDataPoints (c : C) n msg w :
  shutdownLines (logDroppedDataPoints c n msg w) = shutdownLines w.
Proof.
  unfold logDroppedDataPoints.
  rewrite (shutdownLines_logs (LOG _ w)) by done.
  rewrite shutdownLines_LOG. simpl. lia.
Qed.

Lemma shutdownLines_putWithStats (c : C) n m w :
  shutdownLines (putWithStats c n m w).2 = shutdownLines w.
Proof. unfold putWithStats. by destruct (performPut _ _ _). Qed.

Lemma shutdownLines_enqueueRetry flags idx (c : C) dropped rq num w :
  shutdownLines (enqueueRetry flags idx c dropped rq num w).2 = shutdownLines w.
Proof.
  unfold enqueueRetry.
  assert (Hrefuse : ∀ n msg,
    shutdownLines (addStatValue kRetryQueueWriteFailures 1 (logDroppedDataPoints c n msg w))
    = shutdownLines w).
  { intros n msg. rewrite (shutdownLines_logs (logDroppedDataPoints c n msg w)) by done.
    apply shutdownLines_logDroppedDataPoints. }
  destruct (decide (_ >= _)); simpl; [apply Hrefuse|].
  destruct (mpmc_write _ _) as [[] rq']; simpl; [done | apply Hrefuse].
Qed.

Lemma writeIteration_lines flags idx (st st' : BeringeiClientImpl C Q) keepWriting :
  writeIteration flags idx st = Some (keepWriting, st') →
  shutdownLines (world st')
  = (shutdownLines (world st) + (if keepWriting then 0 else 1))%nat.
Proof.
  unfold writeIteration. intros Hit.
  destruct (writeClients_ st !! idx) as [wc|] eqn:Hwc; [|done]. simpl in Hit.
  destruct (pop popVisitor _ _) as [[[[first second] [[c1 requests] droppedDataPoints]] q1]|];
    [|done].
  assert (Hw1 : shutdownLines (if first then world st else LOG LogWriterShutdown (world st))
                = (shutdownLines (world st) + (if first then 0 else 1))%nat).
  { destruct first; [lia | by rewrite shutdownLines_LOG]. }
  destruct (decide (second = 0)) as [Hz|Hnz].
  - injection Hit as <- <-. exact Hw1.
  - pose proof (shutdownLines_putWithStats c1 second requests
                  (if first then world st else LOG LogWriterShutdown (world st))) as Hput.
    destruct (putWithStats _ _ _ _) as [[dropped c2] w2]. cbn [snd] in Hput.
    destruct (decide (0 < length (droppedDataPoints ++ dropped))%nat) as [Hpos|Hnone].
    + pose proof (shutdownLines_enqueueRetry flags idx c2 (droppedDataPoints ++ dropped)
                    (retryQueue_ st) (numRetryQueuedDataPoints_ st) w2) as Henq.
      destruct (enqueueRetry _ _ _ _ _ _ _) as [[rq num] w3]. cbn [snd] in Henq.
      destruct (decide (q_size q1 < _)); injection Hit as <- <-; simpl;
        rewrite <- Hw1, <- Hput, <- Henq; by apply shutdownLines_logs.
    + destruct (decide (q_size q1 < _)); injection Hit as <- <-; simpl;
        rewrite <- Hw1, <- Hput; by apply shutdownLines_logs.
Qed.

Lemma retryIteration_frame (st st' : BeringeiClientImpl C Q) goOn :
  retryIteration st = Some (goOn, st') →
  length (writeClients_ st') = length (writeClients_ st) ∧
  writers_ st' = writers_ st ∧ retryWriters_ st' = retryWriters_ st ∧
  shutdownLines (world st')
  = (shutdownLines (world st) + (if goOn then 0 else 1))%nat.
Proof.
  intros Hit. unfold retryIteration, mpmc_blockingRead in Hit.
  destruct (items (retryQueue_ st)) as [|op rest] eqn:Hitems; [done|].
  simpl in Hit.
  destruct (vec_empty (dataPoints op)).
  { injection Hit as <- <-. simpl. repeat split.
    rewrite shutdownLines_LOG. done. }
  destruct (writeClients_ st !! op_client op) as [wc|]; [|done]. simpl in Hit.
  destruct (decide (retryTimeSecs op < _)).
  { injection Hit as <- <-. simpl. repeat split.
    rewrite shutdownLines_logDroppedDataPoints, Nat.add_0_r. by apply shutdownLines_logs. }
  destruct (buildRetryRequest _ _ _ _) as [[c1 requestMap] totalDropped].
  match type of Hit with
  | context [putWithStats ?c ?n ?m ?w] =>
      pose proof (shutdownLines_putWithStats c n m w) as Hput;
      assert (Hw : shutdownLines w = shutdownLines (world st))
  end.
  { case_decide; by apply shutdownLines_logs. }
  destruct (putWithStats _ _ _ _) as [[dropped c2] w3]. cbn [snd] in Hput.
  injection Hit as <- <-. simpl. rewrite length_insert, Nat.add_0_r.
  repeat split. rewrite <- Hw, <- Hput.
  destruct (decide (_ > 0)); [apply shutdownLines_logDroppedDataPoints | done].
Qed.

Lemma writeIteration_counter_ok flags idx (st st' : BeringeiClientImpl C Q) keep :
  writeIteration flags idx st = Some (keep, st') → counter_ok st → counter_ok st'.
Proof.
  intros Hw [Hnum Hcap]. unfold counter_ok.
  destruct (writeIteration_frame flags idx st st' keep Hw)
    as (_ & _ & _ & _ & Hc & Hq & _).
  destruct Hq as [[-> ->]|(op & Hroom & Hitems & _ & _ & Hn)]; [done|].
  rewrite Hn, Hnum, Hc, Hitems, length_app. simpl. split; [|lia].
  unfold queuedPoints. rewrite Hitems, bind_app, !length_app. simpl.
  rewrite app_nil_r. lia.
Qed.

Lemma retryIteration_counter_ok (st st' : BeringeiClientImpl C Q) goOn :
  retryIteration st = Some (goOn, st') → counter_ok st → counter_ok st'.
Proof.
  intros Hr [Hnum Hcap]. unfold counter_ok.
  destruct (retryIteration_queue st st' goOn Hr) as (op & Hitems & Hc & Hn).
  rewrite Hn, Hnum, Hc, (queuedPoints_items _ _ _ Hitems).
  rewrite Hitems in Hcap. simpl in Hcap. split; lia.
Qed.

(** What a thread that has ended leaves of the thread bookkeeping. *)
Lemma writeDataPointsForever_ends fuel flags idx :
  ∀ st st' : BeringeiClientImpl C Q,
    writeDataPointsForever fuel flags idx st = Some st' →
    length (writeClients_ st') = length (writeClients_ st) ∧
    writers_ st' = writers_ st ∧ retryWriters_ st' = retryWriters_ st ∧
    capacity (retryQueue_ st') = capacity (retryQueue_ st) ∧
    shutdownLines (world st') = (shutdownLines (world st) + 1)%nat ∧
    (counter_ok st → counter_ok st').
Proof.
  induction fuel as [|fuel IH]; intros st st' Hrun; [done|].
  cbn [writeDataPointsForever] in Hrun.
  destruct (writeIteration flags idx st) as [[keep st1]|] eqn:Hit; [|done].
  simpl in Hrun.
  destruct (writeIteration_frame flags idx st st1 keep Hit)
    as (Hlen & _ & Hw & Hr & Hcap & _).
  pose proof (writeIteration_lines flags idx st st1 keep Hit) as Hlines.
  pose proof (writeIteration_counter_ok flags idx st st1 keep Hit) as Hok.
  destruct keep.
  - destruct (IH st1 st' Hrun) as (Hlen' & Hw' & Hr' & Hcap' & Hlines' & Hok').
    rewrite Hlen', Hlen, Hw', Hw, Hr', Hr, Hcap', Hcap, Hlines', Hlines.
    split_and!; try done; [lia | auto].
  - injection Hrun as <-. split_and!; auto.
Qed.

Lemma retryThread_ends fuel :
  ∀ st st' : BeringeiClientImpl C Q,
    retryThread fuel st = Some st' →
    length (writeClients_ st') = length (writeClients_ st) ∧
    writers_ st' = writers_ st ∧ retryWriters_ st' = retryWriters_ st ∧
    capacity (retryQueue_ st') = capacity (retryQueue_ st) ∧
    shutdownLines (world st') = (shutdownLines (world st) + 1)%nat ∧
    (counter_ok st → counter_ok st').
Proof.
  induction fuel as [|fuel IH]; intros st st' Hrun; [done|].
  cbn [retryThread] in Hrun.
  destruct (retryIteration st) as [[goOn st1]|] eqn:Hit; [|done].
  simpl in Hrun.
  destruct (retryIteration_frame st st1 goOn Hit) as (Hlen & Hw & Hr & Hlines).
  destruct (retryIteration_queue st st1 goOn Hit) as (_ & _ & Hcap & _).
  pose proof (retryIteration_counter_ok st st1 goOn Hit) as Hok.
  destruct goOn.
  - destruct (IH st1 st' Hrun) as (Hlen' & Hw' & Hr' & Hcap' & Hlines' & Hok').
    rewrite Hlen', Hlen, Hw', Hw, Hr', Hr, Hcap', Hcap, Hlines', Hlines.
    split_and!; try done; [lia | auto].
  - injection Hrun as <-. split_and!; auto.
Qed.

Lemma joinWriterThreads_ends fuel flags (threads : list Thread) :
  ∀ st st' : BeringeiClientImpl C Q,
    joinWriterThreads fuel flags threads st = Some st' →
    length (writeClients_ st') = length (writeClients_ st) ∧
    writers_ st' = writers_ st ∧ retryWriters_ st' = retryWriters_ st ∧
    capacity (retryQueue_ st') = capacity (retryQueue_ st) ∧
    shutdownLines (world st') = (shutdownLines (world st) + length threads)%nat ∧
    (counter_ok st → counter_ok st').
Proof.
  induction threads as [|t threads IH]; intros st st' Hjoin.
  - injection Hjoin as <-. split_and!; auto; simpl; lia.
  - assert (∃ st1, joinWriterThreads fuel flags threads st1 = Some st' ∧
      length (writeClients_ st1) = length (writeClients_ st) ∧
      writers_ st1 = writers_ st ∧ retryWriters_ st1 = retryWriters_ st ∧
      capacity (retryQueue_ st1) = capacity (retryQueue_ st) ∧
      shutdownLines (world st1) = (shutdownLines (world st) + 1)%nat ∧
      (counter_ok st → counter_ok st1))
      as (st1 & Hrest & Hlen & Hw & Hr & Hcap & Hlines & Hok).
    { destruct t as [idx|]; cbn [joinWriterThreads] in Hjoin.
      - destruct (writeDataPointsForever fuel flags idx st) as [st1|] eqn:Hrun; [|done].
        exists st1. split; [done|]. by apply (writeDataPointsForever_ends fuel flags idx).
      - destruct (retryThread fuel st) as [st1|] eqn:Hrun; [|done].
        exists st1. split; [done|]. by apply (retryThread_ends fuel). }
    destruct (IH st1 st' Hrest) as (Hlen' & Hw' & Hr' & Hcap' & Hlines' & Hok').
    rewrite Hlen', Hlen, Hw', Hw, Hr', Hr, Hcap', Hcap, Hlines', Hlines.
    split_and!; try done; [cbn [length]; lia | auto].
Qed.

Lemma joinRetryThreads_ends fuel (threads : list Thread) :
  ∀ st st' : BeringeiClientImpl C Q,
    joinRetryThreads fuel threads st = Some st' →
    length (writeClients_ st') = length (writeClients_ st) ∧
    writers_ st' = writers_ st ∧ retryWriters_ st' = retryWriters_ st ∧
    capacity (retryQueue_ st') = capacity (retryQueue_ st) ∧
    shutdownLines (world st') = (shutdownLines (world st) + length threads)%nat ∧
    (counter_ok st → counter_ok st').
Proof.
  induction threads as [|t threads IH]; intros st st' Hjoin.
  - injection Hjoin as <-. split_and!; auto; simpl; lia.
  - cbn [joinRetryThreads] in Hjoin.
    destruct (retryThread fuel st) as [st1|] eqn:Hrun; [|done]. simpl in Hjoin.
    destruct (retryThread_ends fuel st st1 Hrun) as (Hlen & Hw & Hr & Hcap & Hlines & Hok).
    destruct (IH st1 st' Hjoin) as (Hlen' & Hw' & Hr' & Hcap' & Hlines' & Hok').
    rewrite Hlen', Hlen, Hw', Hw, Hr', Hr, Hcap', Hcap, Hlines', Hlines.
    split_and!; try done; [cbn [length]; lia | auto].
Qed.

Lemma stopWriters_Returns fuel flags (st st' : BeringeiClientImpl C Q) :
  stopWriters fuel flags st = Some (Returns st') →
  writers_ st' = [] ∧ retryWriters_ st' = retryWriters_ st ∧
  length (writeClients_ st') = length (writeClients_ st) ∧
  capacity (retryQueue_ st') = capacity (retryQueue_ st) ∧
  shutdownLines (world st') = (shutdownLines (world st) + length (writers_ st))%nat ∧
  (counter_ok st → counter_ok st').
Proof.
  unfold stopWriters. intros Hstop.
  destruct (if decide (length (writeClients_ st) ≠ 0)%nat then _ else _) as [wcs|] eqn:Hwcs;
    [|done].
  simpl in Hstop.
  assert (Hlen : length wcs = length (writeClients_ st)).
  { destruct (decide (length (writeClients_ st) ≠ 0)%nat).
    - destruct (size_t_div _ _); [|done]. simpl in Hwcs. injection Hwcs as <-.
      by rewrite length_fmap.
    - by injection Hwcs as <-. }
  destruct (joinWriterThreads _ _ _ _) as [st2|] eqn:Hjoin; [|done].
  injection Hstop as <-. simpl.
  destruct (joinWriterThreads_ends _ _ _ _ _ Hjoin) as (Hl & _ & Hr & Hcap & Hlines & Hok).
  simpl in *. rewrite Hl, Hlen, Hr, Hcap, Hlines. by split_and!.
Qed.

Lemma stopRetryWriters_Returns fuel (st st' : BeringeiClientImpl C Q) :
  stopRetryWriters fuel st = Returns st' →
  writers_ st' = writers_ st ∧ retryWriters_ st' = [] ∧
  length (writeClients_ st') = length (writeClients_ st) ∧
  capacity (retryQueue_ st') = capacity (retryQueue_ st) ∧
  shutdownLines (world st') = (shutdownLines (world st) + length (retryWriters_ st))%nat ∧
  (counter_ok st → counter_ok st').
Proof.
  unfold stopRetryWriters. intros Hstop.
  destruct (joinRetryThreads _ _ _) as [st2|] eqn:Hjoin; [|done].
  injection Hstop as <-. simpl.
  destruct (joinRetryThreads_ends _ _ _ _ Hjoin) as (Hl & Hw & _ & Hcap & Hlines & Hok).
  simpl in *. rewrite Hl, Hw, Hcap, Hlines, writeShutdownOperations_withShutdowns.
  split_and!; try done. intros [Hnum Hle]. apply Hok. unfold counter_ok. simpl.
  rewrite writeShutdownOperations_withShutdowns.
  destruct (withShutdowns_ok (length (retryWriters_ st)) (retryQueue_ st) Hle) as [-> ?].
  done.
Qed.

Lemma stopWriterThreads_Returns fuel flags (st st' : BeringeiClientImpl C Q) :
  stopWriterThreads fuel flags st = Some (Returns st') →
  writers_ st' = [] ∧ retryWriters_ st' = [] ∧
  length (writeClients_ st') = length (writeClients_ st) ∧
  capacity (retryQueue_ st') = capacity (retryQueue_ st) ∧
  shutdownLines (world st')
  = (shutdownLines (world st) + length (writers_ st) + length (retryWriters_ st))%nat ∧
  (counter_ok st → counter_ok st').
Proof.
  unfold stopWriterThreads. intros Hstop.
  destruct (stopWriters fuel flags st) as [[st1|]|] eqn:H1; simpl in Hstop; [|done..].
  injection Hstop as Hstop.
  destruct (stopWriters_Returns _ _ _ _ H1) as (Hw & Hr & Hlen & Hcap & Hlines & Hok).
  destruct (stopRetryWriters_Returns _ _ _ Hstop) as (Hw' & Hr' & Hlen' & Hcap' & Hlines' & Hok').
  rewrite Hw', Hw, Hr', Hlen', Hlen, Hcap', Hcap, Hlines', Hlines, Hr.
  split_and!; try done. auto.
Qed.

Lemma flushQueue_Returns fuel flags (st st' : BeringeiClientImpl C Q) :
  flushQueue fuel flags st = Some (Returns st') →
  writeClients_ st ≠ [] ∧
  ∃ st1, stopWriterThreads fuel flags st = Some (Returns st1) ∧
    st' = startWriterThreads flags
            (Z.of_nat (length (writers_ st) / length (writeClients_ st))) st1.
Proof.
  unfold flushQueue, size_t_div. intros Hflush.
  destruct (decide (length (writeClients_ st) = 0)%nat) as [|Hne]; [done|].
  simpl in Hflush.
  destruct (stopWriterThreads fuel flags st) as [[st1|]|]; simpl in Hflush; [|done..].
  injection Hflush as <-. split; [|by exists st1].
  intros Hnil. by rewrite Hnil in Hne.
Qed.

Lemma operation_counter_ok flags (st st' : BeringeiClientImpl C Q) :
  operation flags st st' → counter_ok st → counter_ok st'.
Proof.
  intros Hop Hok.
  destruct Hop as [values st|n st|fuel st st' Hstop|fuel st st' Hflush|n st|st
                   |idx keep st st' Hw|goOn st st' Hr].
  - destruct Hok as [Hnum Hcap]. unfold counter_ok.
    destruct (putDataPoints_retry_unchanged values st) as [-> ->]. done.
  - by apply startWriterThreads_counter_ok.
  - by apply (stopWriterThreads_Returns fuel flags st st' Hstop).
  - apply flushQueue_Returns in Hflush as (_ & st1 & Hstop & ->).
    apply startWriterThreads_counter_ok.
    by apply (stopWriterThreads_Returns fuel flags st st1 Hstop).
  - done.
  - destruct Hok as [Hnum Hle]. unfold counter_ok. simpl.
    rewrite writeShutdownOperations_withShutdowns.
    destruct (withShutdowns_ok (length (retryWriters_ st)) (retryQueue_ st) Hle) as [-> ?].
    done.
  - by eapply writeIteration_counter_ok.
  - by eapply retryIteration_counter_ok.
Qed.

(** X9. Whatever is done with the client object, by its interface or by its
    threads, turn after turn in any order: the counter of retry-queued points
    stays the number of data points that are on the retry queue, so it never
    goes below zero, and the retry queue stays within its capacity. *)
Theorem counter_ok_invariant (flags : Flags) (st st' : BeringeiClientImpl C Q) :
  rtc (operation flags) st st' → counter_ok st →
  counter_ok st' ∧ 0 ≤ numRetryQueuedDataPoints_ st'.
Proof.
  intros Hrtc Hok.
  assert (counter_ok st') as Hok'.
  { induction Hrtc as [|st st1 st' Hop _ IH]; [done|].
    apply IH. by eapply operation_counter_ok. }
  split; [done|]. destruct Hok' as [-> _]. unfold queuedPoints. lia.
Qed.

Lemma joinRetryThreads_stops fuel (threads : list Thread) :
  ∀ (st : BeringeiClientImpl C Q) ops,
    items (retryQueue_ st) = ops ++ replicate (length threads) shutdownOperation →
    Forall (workable st) ops →
    (length ops < fuel)%nat →
    ∃ st', joinRetryThreads fuel threads st = Some st' ∧
      items (retryQueue_ st') = (if vec_empty threads then ops else []) ∧
      numRetryQueuedDataPoints_ st'
      = numRetryQueuedDataPoints_ st - (if vec_empty threads then 0 else pointsOf ops) ∧
      queue <$> writeClients_ st' = queue <$> writeClients_ st.
Proof.
  induction threads as [|t threads IH]; intros st ops Hitems Hops Hfuel.
  - simpl in *. rewrite app_nil_r in Hitems. eexists. split; [done|].
    rewrite Z.sub_0_r. done.
  - cbn [length replicate joinRetryThreads] in *.
    destruct (retryThread_Some fuel st ops shutdownOperation
                (replicate (length threads) shutdownOperation) Hitems eq_refl Hops Hfuel)
      as (st1 & Hrun & Hrq & Hnum & _ & _ & Hq & _).
    rewrite Hrun. simpl.
    destruct (IH st1 []) as (st2 & Hjoin & Hitems2 & Hnum2 & Hq2).
    { by rewrite Hrq. }
    { constructor. }
    { simpl. lia. }
    exists st2. split; [done|]. rewrite Hq2, Hq. split.
    { rewrite Hitems2. by destruct (vec_empty threads). }
    split; [|done]. rewrite Hnum2, Hnum.
    destruct (vec_empty threads); unfold pointsOf; simpl; lia.
Qed.

(** X10. Shutting down with room on the retry queue: when, with the writer
    threads joined, the retry queue holds operations with points for existing
    write clients and has a free slot for every retry thread, the second half
    of [stopWriterThreads] returns: every retry thread reads its shutdown
    operation and ends, the retry queue is empty, the counter is down by the
    points that were queued and no write queue was touched. So
    [stopWriterThreads] as a whole returns, with this state, whenever its
    first half has returned with such a retry queue. *)
Theorem stopWriterThreads_stops_retry_threads
    (fuel : nat) (st : BeringeiClientImpl C Q) :
  Forall (workable st) (items (retryQueue_ st)) →
  retryWriters_ st ≠ [] →
  (length (items (retryQueue_ st)) + length (retryWriters_ st)
   ≤ capacity (retryQueue_ st))%nat →
  (length (items (retryQueue_ st)) < fuel)%nat →
  ∃ st',
    stopRetryWriters fuel st = Returns st' ∧
    retryWriters_ st' = [] ∧
    items (retryQueue_ st') = [] ∧
    numRetryQueuedDataPoints_ st'
    = numRetryQueuedDataPoints_ st - queuedPoints (retryQueue_ st) ∧
    queue <$> writeClients_ st' = queue <$> writeClients_ st ∧
    ∀ flags st0,
      stopWriters fuel flags st0 = Some (Returns st) →
      stopWriterThreads fuel flags st0 = Some (Returns st').
Proof.
  intros Hops Hne Hroom Hfuel.
  destruct (joinRetryThreads_stops fuel (retryWriters_ st)
              (mkImpl (writeClients_ st) (writers_ st) (retryWriters_ st)
                 (writeShutdownOperations (retryWriters_ st) (retryQueue_ st))
                 (numRetryQueuedDataPoints_ st) (world st))
              (items (retryQueue_ st)))
    as (st2 & Hjoin & Hitems & Hnum & Hq).
  { simpl. rewrite writeShutdownOperations_withShutdowns. simpl. do 2 f_equal. lia. }
  { done. }
  { done. }
  assert (Hret : stopRetryWriters fuel st
                 = Returns (mkImpl (writeClients_ st2) (writers_ st2) []
                              (retryQueue_ st2) (numRetryQueuedDataPoints_ st2) (world st2))).
  { unfold stopRetryWriters. simpl in *. by rewrite Hjoin. }
  eexists. split; [exact Hret|]. simpl.
  split; [done|].
  destruct (retryWriters_ st) eqn:Hr; [done|]. simpl in Hitems, Hnum, Hq.
  split; [done|]. split; [by rewrite Hnum|]. split; [done|].
  intros flags st0 H0. unfold stopWriterThreads. rewrite H0. simpl. by rewrite Hret.
Qed.

(** X11. Shutting down with a full retry queue: [stopWriterThreads] writes the
    shutdown operations without blocking and does not look at the result, so
    with no free slot none gets on the queue; a retry thread then finds only
    operations with points and never ends; so with a retry thread to join,
    the second half of [stopWriterThreads] never returns, and neither does
    [stopWriterThreads] when its first half has returned with such a retry
    queue. *)
Theorem stopWriterThreads_full_retry_queue (st : BeringeiClientImpl C Q) :
  (capacity (retryQueue_ st) ≤ length (items (retryQueue_ st)))%nat →
  Forall (λ op, dataPoints op ≠ []) (items (retryQueue_ st)) →
  writeShutdownOperations (retryWriters_ st) (retryQueue_ st) = retryQueue_ st ∧
  (∀ fuel, retryThread fuel st = None) ∧
  (retryWriters_ st ≠ [] →
   ∀ fuel,
     stopRetryWriters fuel st = Waits ∧
     ∀ flags st0,
       stopWriters fuel flags st0 = Some (Returns st) →
       stopWriterThreads fuel flags st0 = Some Waits).
Proof.
  intros Hfull Hall.
  assert (writeShutdownOperations (retryWriters_ st) (retryQueue_ st) = retryQueue_ st)
    as Heq.
  { rewrite writeShutdownOperations_withShutdowns. unfold withShutdowns.
    replace (_ `min` _)%nat with 0%nat by lia. simpl. rewrite app_nil_r.
    by destruct (retryQueue_ st). }
  split; [done|]. split; [by apply retryThread_None|].
  intros Hne fuel.
  assert (Hwaits : stopRetryWriters fuel st = Waits).
  { unfold stopRetryWriters. rewrite Heq. simpl.
    destruct (retryWriters_ st) as [|t rest]; [done|]. cbn [joinRetryThreads].
    rewrite retryThread_None; [done|]. done. }
  split; [done|].
  intros flags st0 H0. unfold stopWriterThreads. rewrite H0. simpl. by rewrite Hwaits.
Qed.
End WorkerEffects.

Lemma writeDataPointsForever_frame_witness :
  ∃ st', writeDataPointsForever 3 defaultFlags 0 stoppingWriter = Some st' ∧
    writers_ st' = writers_ stoppingWriter ∧
    ∃ new, items (retryQueue_ st') = items (retryQueue_ stoppingWriter) ++ new ∧
      Forall (λ op, op_client op = 0%nat ∧ dataPoints op ≠ []) new.
Proof.
  destruct (writeDataPointsForever 3 defaultFlags 0 stoppingWriter) as [st'|] eqn:Hrun;
    [|vm_compute in Hrun; discriminate].
  exists st'. split; [reflexivity|].
  destruct (writeDataPointsForever_frame 3 defaultFlags 0 stoppingWriter st' Hrun)
    as (_ & _ & Hw & _ & _ & (new & Hitems & Hall & _) & _).
  split; [exact Hw|]. exists new. split; [exact Hitems | exact Hall].
Defined.

Lemma retryThread_stops_witness :
  ∃ st', retryThread 2 drainingWriter = Some st' ∧
    items (retryQueue_ st') = [] ∧
    numRetryQueuedDataPoints_ st' = 0 ∧
    last (logs (world st')) = Some LogRetryShutdown.
Proof.
  destruct (retryThread_stops 2 drainingWriter [mkRetryOperation 0 [dp_lost; dp_b0] 155]
              shutdownOperation [])
    as (st' & Hrun & Hrq & _ & Hnum & Hlog & _).
  - reflexivity.
  - reflexivity.
  - repeat constructor. discriminate.
  - simpl. lia.
  - exists st'. split; [exact Hrun|]. split; [exact Hrq|]. split; [exact Hnum | exact Hlog].
Defined.

Lemma retryThread_needs_shutdown_witness :
  ∃ st', retryThread 2 drainingWriter = Some st' ∧
    Exists (λ op, dataPoints op = []) (items (retryQueue_ drainingWriter)).
Proof.
  destruct (retryThread 2 drainingWriter) as [st'|] eqn:Hrun;
    [|vm_compute in Hrun; discriminate].
  exists st'. split; [reflexivity|].
  exact (retryThread_needs_shutdown 2 drainingWriter st' Hrun).
Defined.

Lemma counter_ok_invariant_witness :
  ∃ st', writeIteration defaultFlags 0 busyWriter = Some (true, st') ∧
    counter_ok st' ∧ 0 ≤ numRetryQueuedDataPoints_ st'.
Proof.
  eexists. split; [reflexivity|].
  apply (counter_ok_invariant defaultFlags busyWriter).
  - apply rtc_once. by apply (op_write defaultFlags 0 true).
  - split; [reflexivity | simpl; lia].
Defined.

Lemma stopWriterThreads_stops_retry_threads_witness :
  ∃ st',
    stopRetryWriters 2 retryingWriter = Returns st' ∧
    retryWriters_ st' = [] ∧
    items (retryQueue_ st') = [] ∧
    numRetryQueuedDataPoints_ st' = 0.
Proof.
  destruct (stopWriterThreads_stops_retry_threads 2 retryingWriter)
    as (st' & Hs & Hr & Hi & Hn & _).
  - repeat constructor. discriminate.
  - discriminate.
  - simpl. lia.
  - simpl. lia.
  - exists st'. split; [exact Hs|]. split; [exact Hr|]. split; [exact Hi | exact Hn].
Defined.

Lemma stopWriterThreads_full_retry_queue_witness :
  writeShutdownOperations (retryWriters_ jammedWriter) (retryQueue_ jammedWriter)
  = retryQueue_ jammedWriter ∧
  (∀ fuel, retryThread fuel jammedWriter = None) ∧
  ∀ fuel, stopRetryWriters fuel jammedWriter = Waits.
Proof.
  destruct (stopWriterThreads_full_retry_queue jammedWriter) as (Hq & Hrun & Hstop).
  - simpl. lia.
  - repeat constructor; discriminate.
  - split; [exact Hq|]. split; [exact Hrun|].
    intros fuel. apply Hstop. discriminate.
Defined.

(** ** Stopping and flushing: what is left when the call returns *)

Section StopEffects.
Context {C Q : Type} `{!BeringeiNetworkClient C} `{!RequestBatchingQueue Q}.

(** X3. [stopWriterThreads] returns only when every thread has ended: then
    both thread lists are empty, the log has one more shutdown line for every
    thread that was in a list, there are as many write clients as before and
    the retry queue has the capacity it had; and if the counter of
    retry-queued points said what is on the retry queue before, it does so
    afterwards, whatever the threads did before they ended. *)
Theorem stopWriterThreads_effect
    (fuel : nat) (flags : Flags) (st st' : BeringeiClientImpl C Q) :
  stopWriterThreads fuel flags st = Some (Returns st') →
  writers_ st' = [] ∧ retryWriters_ st' = [] ∧
  length (writeClients_ st') = length (writeClients_ st) ∧
  capacity (retryQueue_ st') = capacity (retryQueue_ st) ∧
  shutdownLines (world st')
  = (shutdownLines (world st) + length (writers_ st) + length (retryWriters_ st))%nat ∧
  (counter_ok st → counter_ok st' ∧ 0 ≤ numRetryQueuedDataPoints_ st').
Proof.
  intros Hstop.
  destruct (stopWriterThreads_Returns fuel flags st st' Hstop)
    as (Hw & Hr & Hlen & Hcap & Hlines & Hok).
  split_and!; try done.
  intros Hst. specialize (Hok Hst). split; [done|].
  destruct Hok as [-> _]. unfold queuedPoints. lia.
Qed.

(** X4. [flushQueue] returns only on a client with write clients and when
    every thread has ended (the log has a shutdown line for each). Afterwards
    there are [per] writer threads for every write client, where [per] is the
    number of writer threads per write client before (rounded down), and the
    retry threads of the flag. When [per] is zero no thread is started again,
    the retry threads included; that is the case without writer threads, for
    with some, but fewer than write clients, the queues are flushed for no
    thread and the call waits for them ([flushQueue_waits] on the bounded
    queue). In no case are there more writer threads than before. *)
Theorem flushQueue_restarts
    (fuel : nat) (flags : Flags) (st st' : BeringeiClientImpl C Q) :
  flushQueue fuel flags st = Some (Returns st') →
  let per := (length (writers_ st) / length (writeClients_ st))%nat in
  writeClients_ st ≠ [] ∧
  writers_ st'
  = flat_map (λ j, replicate per (WriterThread j)) (seq 0 (length (writeClients_ st))) ∧
  length (writers_ st') = (per * length (writeClients_ st))%nat ∧
  (length (writers_ st') ≤ length (writers_ st))%nat ∧
  retryWriters_ st'
  = (if decide (per = 0)%nat then []
     else replicate (gorilla_write_retry_threads flags) RetryThread) ∧
  length (writeClients_ st') = length (writeClients_ st) ∧
  shutdownLines (world st')
  = (shutdownLines (world st) + length (writers_ st) + length (retryWriters_ st))%nat.
Proof.
  intros Hflush per.
  apply flushQueue_Returns in Hflush as (Hne & st1 & Hstop & ->). fold per.
  destruct (stopWriterThreads_Returns fuel flags st st1 Hstop)
    as (Hw1 & Hr1 & Hlen1 & _ & Hlines1 & _).
  destruct (startWriterThreads_fresh flags (Z.of_nat per) st1 Hw1 Hr1)
    as (Hwc & Hw & Hlen & Hr & _ & _ & Hworld).
  assert (Hmul : (per * length (writeClients_ st) ≤ length (writers_ st))%nat).
  { subst per. rewrite Nat.mul_comm. apply Nat.Div0.mul_div_le. }
  rewrite Hwc, Hw, Hr, Hworld, Hlen1, Hlines1, Nat2Z.id, length_flat_map_replicate,
    length_seq.
  split_and!; try done.
  destruct (decide (Z.of_nat per > 0)), (decide (per = 0)%nat); try done; lia.
Qed.

(** X5. Starting [n > 0] writer threads per write client on a client without
    threads and flushing afterwards gives, when [flushQueue] returns, the same
    threads again, [n] for every write client: [flushQueue] loses no thread
    of [startWriterThreads]. *)
Theorem flushQueue_after_start
    (fuel : nat) (flags : Flags) (n : Z) (st st' : BeringeiClientImpl C Q) :
  writers_ st = [] → retryWriters_ st = [] → n > 0 →
  let started := startWriterThreads flags n st in
  flushQueue fuel flags started = Some (Returns st') →
  writers_ st' = writers_ started ∧ retryWriters_ st' = retryWriters_ started ∧
  length (writers_ st') = (Z.to_nat n * length (writeClients_ st))%nat.
Proof.
  intros Hw Hr Hn started Hflush.
  destruct (startWriterThreads_fresh flags n st Hw Hr) as (Hwc & Hws & Hls & Hrs & _).
  fold started in Hwc, Hws, Hls, Hrs.
  apply flushQueue_Returns in Hflush as (Hne & st1 & Hstop & ->).
  assert (Hlen : length (writeClients_ st) ≠ 0%nat).
  { rewrite Hwc in Hne. by destruct (writeClients_ st). }
  assert (Hper : (length (writers_ started) / length (writeClients_ started))%nat
                 = Z.to_nat n).
  { rewrite Hwc, Hls. by apply Nat.div_mul. }
  rewrite Hper, Z2Nat.id by lia.
  destruct (stopWriterThreads_Returns fuel flags started st1 Hstop)
    as (Hw1 & Hr1 & Hlen1 & _).
  destruct (startWriterThreads_fresh flags n st1 Hw1 Hr1) as (_ & Hw' & Hl' & Hr' & _).
  rewrite Hw', Hr', Hlen1, Hwc, Hws, Hrs, length_flat_map_replicate, length_seq. done.
Qed.
End StopEffects.

Lemma stopWriterThreads_effect_witness :
  ∃ st', stopWriterThreads 3 defaultFlags busyWriter = Some (Returns st') ∧
    writers_ st' = [] ∧ retryWriters_ st' = [] ∧
    shutdownLines (world st') = 2%nat.
Proof.
  destruct (stopWriterThreads 3 defaultFlags busyWriter) as [[st'|]|] eqn:Hstop;
    [|vm_compute in Hstop; discriminate..].
  exists st'. split; [reflexivity|].
  destruct (stopWriterThreads_effect 3 defaultFlags busyWriter st' Hstop)
    as (Hw & Hr & _ & _ & Hlines & _).
  split; [exact Hw|]. split; [exact Hr | exact Hlines].
Defined.

Lemma flushQueue_restarts_witness :
  ∃ st', flushQueue 2 defaultFlags twoQueues = Some (Returns st') ∧
    writers_ st' = [WriterThread 0; WriterThread 1] ∧
    retryWriters_ st' = replicate 4 RetryThread.
Proof.
  destruct (flushQueue 2 defaultFlags twoQueues) as [[st'|]|] eqn:Hflush;
    [|vm_compute in Hflush; discriminate..].
  exists st'. split; [reflexivity|].
  destruct (flushQueue_restarts 2 defaultFlags twoQueues st' Hflush)
    as (_ & Hw & _ & _ & Hr & _).
  split; [exact Hw | exact Hr].
Defined.

Lemma flushQueue_after_start_witness :
  ∃ st', flushQueue 2 defaultFlags (startWriterThreads defaultFlags 2 idleWriter)
         = Some (Returns st') ∧
    writers_ st' = writers_ (startWriterThreads defaultFlags 2 idleWriter) ∧
    retryWriters_ st' = retryWriters_ (startWriterThreads defaultFlags 2 idleWriter) ∧
    length (writers_ st') = 4%nat.
Proof.
  destruct (flushQueue 2 defaultFlags (startWriterThreads defaultFlags 2 idleWriter))
    as [[st'|]|] eqn:Hflush; [|vm_compute in Hflush; discriminate..].
  exists st'. split; [reflexivity|].
  apply (flushQueue_after_start 2 defaultFlags 2 idleWriter st');
    [reflexivity | reflexivity | lia | exact Hflush].
Defined.

(** ** The read path: calls, retries and what comes back *)

Section ReadTurns.
Context {C A : Type} `{!BeringeiNetworkClient C}
  `{!BeringeiConfigurationAdapterIf A} `{!NetworkClientSetup C A}.

Lemma buildKeyShards_snoc ks k :
  buildKeyShards (ks ++ [k]) = <[key k := shardId k]> (buildKeyShards ks).
Proof. unfold buildKeyShards. by rewrite foldl_app. Qed.

Lemma buildKeyShards_last ks name :
  buildKeyShards ks !! name
  = shardId <$> last (filter (λ k, key k = name) ks).
Proof.
  induction ks as [|k ks IH] using rev_ind; [done|].
  rewrite buildKeyShards_snoc, filter_app.
  destruct (decide (key k = name)) as [Heq|Hne].
  - rewrite filter_cons_True, filter_nil by done. rewrite last_snoc. simpl.
    rewrite <- Heq. by rewrite lookup_insert_eq.
  - rewrite filter_cons_False, filter_nil, app_nil_r by done.
    by rewrite lookup_insert_ne.
Qed.

Lemma filter_none {X} (P : X → Prop) `{!∀ x, Decision (P x)} (l : list X) :
  (∀ x, x ∈ l → ¬ P x) → filter P l = [].
Proof.
  induction l as [|x l IH]; intros Hall; [done|].
  rewrite filter_cons_False by (apply Hall; left).
  apply IH. intros y Hy. apply Hall. by right.
Qed.

Lemma NoDup_names_filter (orig : list Key) k0 :
  NoDup (key <$> orig) → k0 ∈ orig →
  filter (λ k, key k = key k0) orig = [k0].
Proof.
  induction orig as [|k orig IH]; intros Hnd Hin; [by apply elem_of_nil in Hin|].
  rewrite fmap_cons in Hnd. apply NoDup_cons in Hnd as [Hnotin Hnd].
  apply elem_of_cons in Hin as [->|Hin].
  - rewrite filter_cons_True by done. f_equal.
    apply filter_none. intros x Hx Heq. apply Hnotin. rewrite <- Heq.
    by apply list_elem_of_fmap_2.
  - rewrite filter_cons_False; [by apply IH|].
    intros Heq. apply Hnotin. rewrite Heq. by apply list_elem_of_fmap_2.
Qed.

(** X12. [get] remembers the shard id of every key name of the request and
    puts it back on the keys it hands to the next read client. A key whose
    name is not in the request is left as it is. A key whose name is in the
    request gets the shard id of the last key of that name in the request; so
    when the names of the request are distinct, restoring any key that has the
    name of a requested key gives back that requested key, whatever a read
    client has made of the shard id. *)
Theorem restoreShardId_original (orig : list Key) (k : Key) :
  (key k ∉ key <$> orig → restoreShardId (buildKeyShards orig) k = k) ∧
  (∀ k0, last (filter (λ x, key x = key k) orig) = Some k0 →
         restoreShardId (buildKeyShards orig) k = k0) ∧
  (NoDup (key <$> orig) →
   ∀ k0, k0 ∈ orig → key k = key k0 → restoreShardId (buildKeyShards orig) k = k0).
Proof.
  assert (Hlast : ∀ k0, last (filter (λ x, key x = key k) orig) = Some k0 →
                        restoreShardId (buildKeyShards orig) k = k0).
  { intros k0 Hl. unfold restoreShardId. rewrite buildKeyShards_last, Hl. simpl.
    assert (k0 ∈ filter (λ x, key x = key k) orig) as Hin.
    { destruct (filter _ orig) as [|y l] using rev_ind; [done|].
      rewrite last_snoc in Hl. simplify_eq. apply elem_of_app. right. by left. }
    apply list_elem_of_filter in Hin as [<- _]. by destruct k0. }
  split; [|split; [exact Hlast|]].
  - intros Hnotin. unfold restoreShardId. rewrite buildKeyShards_last.
    rewrite filter_none; [done|].
    intros x Hx Heq. apply Hnotin. rewrite <- Heq. by apply list_elem_of_fmap_2.
  - intros Hnd k0 Hin Heq. apply Hlast. rewrite Heq.
    by rewrite (NoDup_names_filter orig k0 Hnd Hin).
Qed.

(** X13. One turn of [get] calls the read client once and, exactly when that
    call left failed keys, a second time: after invalidating the cache for the
    shard ids of the failed keys, and for the failed keys only, in the order
    they came back. There is no third call, and the keys that are still failed
    after the second call are what the turn ends with. *)
Theorem getIteration_one_retry
    (strict : bool) (ks : gmap string Z) (n i : nat) (c : C) (cr : GetDataRequest)
    (s s' : ReadState) :
  let last := bool_decide (i = n - 1)%nat in
  let ip := strict || negb last in
  let pd := negb last in
  let call1 := theCall c cr in
  let failed1 := (withVerdict Failed ip pd (visitedPairs (call_requests call1))).*1 in
  let c2 := invalidateCache (list_to_set (shardId <$> failed1)) (fetch c cr).2 in
  let call2 := theCall c2 (mkGetDataRequest failed1 (begin_ cr) (end_ cr)) in
  stepState (getIteration strict ks n i c cr s) = Some s' →
  if vec_empty failed1
  then calls s' = calls s ++ [call1] ∧ failedKeys (vecs s') = []
  else calls s' = calls s ++ [call1; call2] ∧
       failedKeys (vecs s')
       = (withVerdict Failed ip pd (visitedPairs (call_requests call2))).*1.
Proof.
  intros last ip pd call1 failed1 c2 call2 Hstep.
  destruct (getIteration_end strict ks n i c cr s s' Hstep) as (c1 & s2 & Hg1 & Hrest).
  fold last ip pd in Hg1, Hrest.
  destruct (getWithClient_Some ip pd c c1 cr _ s2 Hg1) as (Hc1 & Hcalls1 & Hext1).
  destruct (startIteration_vecs i c s) as [Hvecs0 Hcalls0].
  assert (Hfailed1 : failedKeys (vecs s2) = failed1).
  { destruct Hext1 as (_ & _ & Hf & _ & _). rewrite Hf. simpl. by rewrite Hvecs0. }
  assert (Hcalls1' : calls s2 = calls s ++ [call1]) by (by rewrite Hcalls1, Hcalls0).
  destruct Hrest as [[Hnone ->]|(Hsome & c3 & Hg2)].
  - rewrite <- Hfailed1, Hnone. simpl. done.
  - rewrite Hfailed1 in Hsome.
    assert (vec_empty failed1 = false) as -> by (by destruct failed1).
    assert (retryRequest cr s2 = mkGetDataRequest failed1 (begin_ cr) (end_ cr)) as Hreq.
    { unfold retryRequest. by rewrite Hfailed1. }
    rewrite Hreq, Hfailed1, Hc1 in Hg2. fold c2 in Hg2.
    destruct (getWithClient_Some ip pd c2 c3 _ _ s' Hg2) as (_ & Hcalls2 & Hext2).
    destruct Hext2 as (_ & _ & Hfailed2 & _ & _).
    split.
    + rewrite Hcalls2. simpl. rewrite Hcalls1', <- app_assoc. done.
    + rewrite Hfailed2. done.
Qed.

Lemma getIteration_calls strict ks n i (c : C) cr s s' :
  stepState (getIteration strict ks n i c cr s) = Some s' →
  ∃ new, calls s' = calls s ++ new ∧ (1 ≤ length new ≤ 2)%nat.
Proof.
  intros Hstep.
  destruct (getIteration_end strict ks n i c cr s s' Hstep) as (c1 & s2 & Hg1 & Hrest).
  destruct (getWithClient_Some _ _ c c1 cr _ s2 Hg1) as (_ & Hcalls1 & _).
  destruct (startIteration_vecs i c s) as [_ Hcalls0]. rewrite Hcalls0 in Hcalls1.
  destruct Hrest as [[_ ->]|(_ & c3 & Hg2)].
  - eexists. split; [done|]. simpl. lia.
  - destruct (getWithClient_Some _ _ _ c3 _ _ s' Hg2) as (_ & Hcalls2 & _).
    simpl in Hcalls2. rewrite Hcalls1, <- app_assoc in Hcalls2.
    eexists. split; [done|]. simpl. lia.
Qed.

Lemma getFromCopies_call_bound
    (strict : bool) (readClients : list C) (request : GetDataRequest)
    (result0 : GetDataResult) (w : World) (s : ReadState) :
  (getFromCopies strict readClients request result0 w = Returned s
   ∨ ∃ what, getFromCopies strict readClients request result0 w = Thrown what s) →
  (length (calls s) ≤ 2 * length readClients)%nat ∧
  (readClients ≠ [] → (1 ≤ length (calls s))%nat).
Proof.
  unfold getFromCopies.
  assert (Hloop : ∀ clients ks n i cr s0 s',
    (getLoop strict ks n i clients cr s0 = Returned s'
     ∨ ∃ what, getLoop strict ks n i clients cr s0 = Thrown what s') →
    ∃ new, calls s' = calls s0 ++ new ∧ (length new ≤ 2 * length clients)%nat ∧
           (clients ≠ [] → (1 ≤ length new)%nat)).
  { induction clients as [|c rest IH]; intros ks n i cr s0 s' Hres.
    - simpl in Hres. destruct Hres as [Hres|[what Hres]]; [|done].
      simplify_eq. exists []. by rewrite app_nil_r.
    - cbn [getLoop] in Hres.
      destruct (getIteration strict ks n i c cr s0) as [s1|cr1 s1|what1 s1|] eqn:Hit.
      + destruct Hres as [Hres|[what Hres]]; [|done]. simplify_eq.
        destruct (getIteration_calls strict ks n i c cr s0 s') as (new & Hnew & Hlen).
        { by rewrite Hit. }
        exists new. split; [done|]. simpl. split; [lia|]. intros _. lia.
      + destruct (getIteration_calls strict ks n i c cr s0 s1) as (new & Hnew & Hlen).
        { by rewrite Hit. }
        destruct (IH ks n (S i) cr1 s1 s' Hres) as (new' & Hnew' & Hlen' & _).
        exists (new ++ new'). rewrite Hnew', Hnew, <- app_assoc. split; [done|].
        rewrite length_app. simpl. split; [lia|]. intros _. lia.
      + destruct Hres as [Hres|[what Hres]]; [done|]. simplify_eq.
        destruct (getIteration_calls strict ks n i c cr s0 s') as (new & Hnew & Hlen).
        { by rewrite Hit. }
        exists new. split; [done|]. simpl. split; [lia|]. intros _. lia.
      + destruct Hres as [Hres|[what Hres]]; done. }
  intros Hres. destruct (Hloop _ _ _ _ _ _ _ Hres) as (new & Hnew & Hlen & Hone).
  simpl in Hnew. subst new. done.
Qed.

Lemma bind_concat {X Y} (f : X → list Y) (l : list X) : l ≫= f = concat (f <$> l).
Proof. induction l as [|x l IH]; [done|]. by rewrite bind_cons, fmap_cons, IH. Qed.

(** What is left of a [get] that ended on the snapshot it was given. *)
Lemma get_ended_on strict (rs : ReadServices C A) request result0 serviceOverride j j1
    readClientCopies s :
  getAllReadClients serviceOverride rs j = (Copies readClientCopies, j1) →
  (get strict rs request result0 serviceOverride j = Some (Returned s)
   ∨ ∃ what, get strict rs request result0 serviceOverride j = Some (Thrown what s)) →
  getFromCopies strict readClientCopies request result0 (j_world j1) = Returned s
  ∨ ∃ what, getFromCopies strict readClientCopies request result0 (j_world j1)
            = Thrown what s.
Proof.
  intros Hall Hget.
  rewrite (get_Copies strict rs request result0 serviceOverride j _ j1 Hall) in Hget.
  destruct Hget as [Hget|[what Hget]]; simplify_eq; [by left | right; by exists what].
Qed.

Lemma getFromCopies_turns strict (readClientCopies : list C) request result0 w s :
  (getFromCopies strict readClientCopies request result0 w = Returned s
   ∨ ∃ what, getFromCopies strict readClientCopies request result0 w = Thrown what s) →
  let T := readTurns strict (buildKeyShards (keys request)) readClientCopies request in
  calls s = T ≫= turn_calls ∘ snd ∧
  failovers (rworld s) = failovers w ++ (getServiceName <$> tail T.*1) ∧
  failoverCount (rworld s) = (failoverCount w + (length T - 1))%nat.
Proof.
  intros Hres T.
  destruct (getFromCopies_readTurns strict readClientCopies request result0 w)
    as [[_ Hab]|(_ & s' & _ & _ & Hc & _ & Hf & Hn & Hget)].
  { destruct Hres as [Hres|[what Hres]]; congruence. }
  assert (s' = s) as ->.
  { destruct (strict && _); destruct Hres as [Hres|[what Hres]]; congruence. }
  done.
Qed.

(** X14. [get] goes through the read clients of the snapshot once, in order,
    and calls a read client once or, for the retry, twice: its calls are the
    calls of its turns, one turn for each of the first read clients, every
    turn one or two calls, the first of them to the service of its read
    client. So it makes at most twice as many calls as there are read
    clients, whether it returns or throws, and at least one call when there
    is a read client. *)
Theorem get_call_bound
    (strict : bool) (rs : ReadServices C A) (request : GetDataRequest)
    (result0 : GetDataResult) (serviceOverride : string) (j j1 : Journal)
    (readClientCopies : list C) (s : ReadState) :
  getAllReadClients serviceOverride rs j = (Copies readClientCopies, j1) →
  (get strict rs request result0 serviceOverride j = Some (Returned s)
   ∨ ∃ what, get strict rs request result0 serviceOverride j = Some (Thrown what s)) →
  (length (calls s) ≤ 2 * length readClientCopies)%nat ∧
  (readClientCopies ≠ [] → (1 ≤ length (calls s))%nat) ∧
  ∃ turns : list (list GetCall),
    calls s = concat turns ∧
    (length turns ≤ length readClientCopies)%nat ∧
    Forall2 (λ c turn, ∃ call rest, turn = call :: rest ∧
                         call_service call = getServiceName c ∧ (length rest ≤ 1)%nat)
      (take (length turns) readClientCopies) turns.
Proof.
  intros Hall Hget.
  pose proof (get_ended_on _ _ _ _ _ _ _ _ _ Hall Hget) as Hres.
  destruct (getFromCopies_call_bound _ _ _ _ _ _ Hres) as [Hle Hone].
  split; [done|]. split; [done|].
  destruct (getFromCopies_turns _ _ _ _ _ _ Hres) as (Hcalls & _).
  pose proof (readTurns_shape strict (buildKeyShards (keys request)) readClientCopies
                request) as (Hpre & _ & _ & Hshape).
  set (T := readTurns strict (buildKeyShards (keys request)) readClientCopies request) in *.
  exists (turn_calls ∘ snd <$> T).
  split; [by rewrite Hcalls, bind_concat|].
  destruct Hpre as [k Hk].
  assert (Hlen : length T.*1 = length T) by apply length_fmap.
  rewrite length_fmap. split; [rewrite Hk, length_app; lia|].
  rewrite Hk, <- Hlen, take_app_length.
  apply Forall2_fmap, Forall_Forall2_diag.
  eapply Forall_impl; [exact Hshape|]. by intros [c t] H.
Qed.
End ReadTurns.

Section ReadResults.
Context {C A : Type} `{!BeringeiNetworkClient C}
  `{!BeringeiConfigurationAdapterIf A} `{!NetworkClientSetup C A}.

Lemma withVerdict_settled ip pd pairs :
  Forall settled pairs →
  withVerdict Accepted ip pd pairs = okPairs pairs ∧
  withVerdict Failed ip pd pairs = [] ∧
  withVerdict Partial ip pd pairs = [].
Proof.
  induction pairs as [|[k r] pairs IH]; intros Hall; [done|].
  apply Forall_cons in Hall as [Hs Hall]. destruct (IH Hall) as (IHa & IHf & IHp).
  unfold withVerdict, okPairs in *.
  rewrite !filter_cons. simpl. rewrite IHa, IHf, IHp.
  unfold verdict. destruct Hs as [Hs|Hs]; simpl in Hs; rewrite Hs; simpl; split; try done;
    repeat case_decide; done.
Qed.

Lemma classify_stats fk ff ip pd k r s s' :
  classify fk ff ip pd k r s = Some s' →
  status r ≠ MISSING_TOO_MUCH_DATA →
  rworld s' = rworld s.
Proof.
  unfold classify. intros Hc Hst.
  destruct (status r); try done; try (by simplify_eq).
  destruct ip; [by simplify_eq|]. destruct (decide _); by simplify_eq.
Qed.

Lemma processResults_stats fk ff ip pd entries :
  ∀ s s', processResults fk ff ip pd entries s = Some s' →
          Forall settled entries → rworld s' = rworld s.
Proof.
  induction entries as [|[k r] entries IH]; intros s s' Hp Hall; [simpl in Hp; by simplify_eq|].
  apply Forall_cons in Hall as [Hs Hall]. simpl in Hp.
  destruct (classify fk ff ip pd k r s) as [s1|] eqn:Hc; [|done]. simpl in Hp.
  rewrite (IH s1 s' Hp Hall). eapply classify_stats; [done|].
  destruct Hs as [Hs|Hs]; simpl in Hs; by rewrite Hs.
Qed.

Lemma processRequests_stats fk ff ip pd requests :
  ∀ s s', processRequests fk ff ip pd requests s = Some s' →
          Forall settled (visitedPairs requests) →
          stats (rworld s') = stats (rworld s).
Proof.
  induction requests as [|e requests IH]; intros s s' Hp Hall; [simpl in Hp; by simplify_eq|].
  unfold visitedPairs in Hall. rewrite fmap_cons in Hall. simpl in Hall.
  apply Forall_app in Hall as [He Hall]. cbn [processRequests] in Hp.
  destruct (processResults _ _ _ _ _ _) as [s1|] eqn:Hr; [|done]. simpl in Hp.
  rewrite (IH s1 s' Hp Hall). rewrite (processResults_stats _ _ _ _ _ _ _ Hr He).
  by destruct (decide _).
Qed.

Lemma getFromCopies_first_client_settles
    (strict : bool) (c : C) (others : list C) (request : GetDataRequest)
    (result0 : GetDataResult) (w : World) :
  let call := theCall c request in
  let pairs := visitedPairs (call_requests call) in
  Forall settled pairs →
  ∃ s, getFromCopies strict (c :: others) request result0 w = Returned s ∧
    request_keys (vecs s) = (okPairs pairs).*1 ∧
    results (result s) = results result0 ++ (okPairs pairs).*2 ∧
    calls s = [call] ∧
    stats (rworld s) = stats w.
Proof.
  intros call pairs Hall.
  unfold getFromCopies. cbn [getLoop]. unfold getIteration.
  set (n := length (c :: others)).
  set (s0 := mkReadState result0 (mkKeyVectors [] [] []) w []).
  set (last := bool_decide (0 = n - 1)%nat).
  assert (Hargs : inProgressArg strict last = ptr (strict || negb last)
                  ∧ partialDataArg last = ptr (negb last)) by done.
  destruct Hargs as [-> ->].
  destruct (getWithClient c request RequestKeys FailedKeys _ _ (startIteration 0 c s0))
    as [[c1 s2]|] eqn:Hg.
  - destruct (getWithClient_Some _ _ c c1 request _ s2 Hg) as (_ & Hcalls & Hext).
    destruct Hext as (Hk & Hr & Hf & Hp & _).
    fold call pairs in Hk, Hr, Hf, Hp, Hcalls.
    destruct (withVerdict_settled (strict || negb last) (negb last) pairs Hall)
      as (Ha & Hfl & Hpl).
    rewrite Ha in Hk, Hr. rewrite Hfl in Hf. rewrite Hpl in Hp. simpl in *.
    assert (both_empty s2 = true) as -> by (by apply both_empty_true).
    exists s2. repeat split; try done.
    unfold getWithClient in Hg.
    destruct (fetch c request) as [requests c'] eqn:Hfetch.
    destruct (processRequests _ _ _ _ _ _) as [s3|] eqn:Hpr; [|done].
    simpl in Hg. simplify_eq.
    apply processRequests_stats in Hpr; [done|].
    exact Hall.
  - apply getWithClient_None in Hg. fold call pairs in Hg.
    apply Exists_exists in Hg as (p & Hin & Hst).
    rewrite Forall_forall in Hall. destruct (Hall p Hin) as [Hs|Hs]; congruence.
Qed.

(** X15. When the first read client of the snapshot answers every key it is
    asked for with the data or with KEY_MISSING, [get] is done after this one
    call, in strict mode too: it returns, the keys with data are the caller's
    keys now and their answers are appended to the result, both in the order
    of the answers; no second call, no fail-over, no statistic but the one
    [getAllReadClients] may have recorded. *)
Theorem get_first_client_settles
    (strict : bool) (rs : ReadServices C A) (request : GetDataRequest)
    (result0 : GetDataResult) (serviceOverride : string) (j j1 : Journal)
    (c : C) (others : list C) :
  let call := theCall c request in
  let pairs := visitedPairs (call_requests call) in
  getAllReadClients serviceOverride rs j = (Copies (c :: others), j1) →
  Forall settled pairs →
  ∃ s, get strict rs request result0 serviceOverride j = Some (Returned s) ∧
    request_keys (vecs s) = (okPairs pairs).*1 ∧
    results (result s) = results result0 ++ (okPairs pairs).*2 ∧
    calls s = [call] ∧
    stats (rworld s) = stats (j_world j1).
Proof.
  intros call pairs Hall Hsettled.
  destruct (getFromCopies_first_client_settles strict c others request result0
              (j_world j1) Hsettled) as (s & Hget & Hrest).
  exists s. split; [|exact Hrest].
  by rewrite (get_Copies strict rs request result0 serviceOverride j _ j1 Hall), Hget.
Qed.

Lemma getIteration_no_duplicates strict ks n i (c : C) cr s :
  no_duplication C →
  NoDup ((key <$> request_keys (vecs s)) ++ (key <$> keys cr)) →
  match getIteration strict ks n i c cr s with
  | Break s' | Throw _ s' => NoDup (key <$> request_keys (vecs s'))
  | Continue cr' s' => NoDup ((key <$> request_keys (vecs s')) ++ (key <$> keys cr'))
  | Abort => True
  end.
Proof.
  intros Hnodup Hnd.
  destruct (getIteration strict ks n i c cr s) as [s'|cr' s'|what s'|] eqn:Hit; [| | |done].
  all: destruct (getIteration_names strict ks n i c cr s s' Hnodup) as
         (nf & new & Hk & _ & Hsub & _);
       [by apply NoDup_app in Hnd as (_ & _ & ?) | by rewrite Hit |].
  all: destruct (names_bound (key <$> request_keys (vecs s)) (key <$> nf)
                   (key <$> failedKeys (vecs s')) (key <$> partialKeys (vecs s'))
                   (concat (missingNames <$> new)) (key <$> keys cr) Hnd Hsub)
         as (Hnd' & _).
  - rewrite Hk, fmap_app. by apply NoDup_app in Hnd' as (? & _).
  - apply getIteration_Continue in Hit as (_ & _ & Hkeys).
    rewrite Hkeys, restoreShardId_names, Hk, !fmap_app. done.
  - rewrite Hk, fmap_app. by apply NoDup_app in Hnd' as (? & _).
Qed.

(** X16. With read clients that ask for every key name at most as often as
    they were asked for it, and a request whose key names are distinct, the
    keys [get] leaves in the caller's request have distinct names: no key is
    answered twice, not by the retry within a service and not by another
    service after a fail-over (and when [get] throws what [getAllReadClients]
    let through, the keys are the keys of the request still). *)
Theorem get_no_duplicates
    (strict : bool) (rs : ReadServices C A) (request : GetDataRequest)
    (result0 : GetDataResult) (serviceOverride : string) (j : Journal) (s : ReadState) :
  no_duplication C →
  NoDup (key <$> keys request) →
  (get strict rs request result0 serviceOverride j = Some (Returned s)
   ∨ ∃ what, get strict rs request result0 serviceOverride j = Some (Thrown what s)) →
  NoDup (key <$> request_keys (vecs s)).
Proof.
  intros Hnodup Hnd Hget.
  apply get_ended in Hget as [(readClients & j1 & _ & Hget)|(what & j1 & _ & ->)];
    [|done].
  revert Hget. unfold getFromCopies.
  assert (Hloop : ∀ clients ks n i cr s0 s',
    NoDup ((key <$> request_keys (vecs s0)) ++ (key <$> keys cr)) →
    (getLoop strict ks n i clients cr s0 = Returned s'
     ∨ ∃ what, getLoop strict ks n i clients cr s0 = Thrown what s') →
    NoDup (key <$> request_keys (vecs s'))).
  { induction clients as [|c rest IH]; intros ks n i cr s0 s' Hnd0 Hres.
    - simpl in Hres. destruct Hres as [Hres|[what Hres]]; [|done].
      simplify_eq. by apply NoDup_app in Hnd0 as (? & _).
    - cbn [getLoop] in Hres.
      pose proof (getIteration_no_duplicates strict ks n i c cr s0 Hnodup Hnd0) as Hit.
      destruct (getIteration strict ks n i c cr s0) as [s1|cr1 s1|what1 s1|].
      + destruct Hres as [Hres|[what Hres]]; [|done]. by simplify_eq.
      + by eapply IH.
      + destruct Hres as [Hres|[what Hres]]; [done|]. by simplify_eq.
      + destruct Hres as [Hres|[what Hres]]; done. }
  intros Hres. eapply Hloop; [|exact Hres]. done.
Qed.
End ReadResults.

Lemma getIteration_one_retry_witness :
  ∃ s', stepState (getIteration false (buildKeyShards (keys twoKeys)) 2 0 readerA twoKeys state0)
        = Some s' ∧
    (call_keys <$> calls s') = [[k1; k2]; [k1]] ∧
    failedKeys (vecs s') = [k1].
Proof.
  destruct (stepState (getIteration false (buildKeyShards (keys twoKeys)) 2 0 readerA
                         twoKeys state0)) as [s'|] eqn:Hstep;
    [|vm_compute in Hstep; discriminate].
  exists s'. split; [reflexivity|].
  pose proof (getIteration_one_retry false (buildKeyShards (keys twoKeys)) 2 0 readerA
                twoKeys state0 s' Hstep) as Hretry.
  cbv zeta in Hretry.
  change (vec_empty _) with false in Hretry.
  destruct Hretry as [Hcalls Hfailed].
  split; [rewrite Hcalls; reflexivity | rewrite Hfailed; reflexivity].
Defined.

Lemma get_call_bound_witness :
  ∃ s, get false (readersOf [readerA; readerB]) twoKeys emptyResult "" journal0
       = Some (Returned s) ∧
    (length (calls s) ≤ 4)%nat ∧ (1 ≤ length (calls s))%nat ∧
    ∃ turns : list (list GetCall),
      calls s = concat turns ∧ (length turns ≤ 2)%nat ∧
      Forall2 (λ c turn, ∃ call rest, turn = call :: rest ∧
                           call_service call = mock_name c ∧ (length rest ≤ 1)%nat)
        (take (length turns) [readerA; readerB]) turns.
Proof.
  destruct (get false (readersOf [readerA; readerB]) twoKeys emptyResult "" journal0)
    as [[s|what s|]|] eqn:Hget; [|vm_compute in Hget; discriminate..].
  exists s. split; [reflexivity|].
  destruct (get_call_bound false (readersOf [readerA; readerB]) twoKeys emptyResult ""
              journal0 journal0 [readerA; readerB] s eq_refl (or_introl Hget))
    as (Hle & Hge & Hturns).
  split; [exact Hle|]. split; [apply Hge; discriminate | exact Hturns].
Defined.

Lemma get_first_client_settles_witness :
  ∃ s, get true (readersOf [readerB; readerA]) twoKeys emptyResult "" journal0
       = Some (Returned s) ∧
    request_keys (vecs s) = [k1] ∧
    results (result s) = [answer OK [block1]] ∧
    (call_service <$> calls s) = ["B"] ∧
    stats (rworld s) = [].
Proof.
  destruct (get_first_client_settles true (readersOf [readerB; readerA]) twoKeys
              emptyResult "" journal0 journal0 readerB [readerA] eq_refl)
    as (s & Hget & Hkeys & Hres & Hcalls & Hstats).
  - change (Forall settled [(k1, answer OK [block1]); (k2, answer KEY_MISSING [])]).
    constructor; [by left|]. constructor; [by right|]. constructor.
  - exists s. split; [exact Hget|]. split; [exact Hkeys|]. split; [exact Hres|].
    split; [by rewrite Hcalls | exact Hstats].
Defined.

Lemma get_no_duplicates_witness :
  ∃ s, get false (readersOf [readerA; readerB]) twoKeys emptyResult "" journal0
       = Some (Returned s) ∧
    NoDup (key <$> request_keys (vecs s)).
Proof.
  destruct (get false (readersOf [readerA; readerB]) twoKeys emptyResult "" journal0)
    as [[s|what s|]|] eqn:Hget; [|vm_compute in Hget; discriminate..].
  exists s. split; [reflexivity|].
  apply (get_no_duplicates false (readersOf [readerA; readerB]) twoKeys emptyResult ""
           journal0 s mock_no_duplication).
  - repeat constructor; intros Hin;
      repeat (apply elem_of_cons in Hin as [Hin|Hin]; [discriminate|]);
      by apply elem_of_nil in Hin.
  - by left.
Defined.

Section ReadThrows.
Context {C A : Type} `{!BeringeiNetworkClient C}
  `{!BeringeiConfigurationAdapterIf A} `{!NetworkClientSetup C A}.

Lemma getLoop_Thrown strict ks n clients :
  ∀ i cr s what s',
    getLoop strict ks n i clients cr s = Thrown what s' →
    strict = true ∧ what = "Failed reading data from gorilla".
Proof.
  induction clients as [|c rest IH]; intros i cr s what s' Hloop; [done|].
  cbn [getLoop] in Hloop.
  destruct (getIteration strict ks n i c cr s) as [s1|cr1 s1|what1 s1|] eqn:Hit;
    [done | by eapply IH | | done].
  simplify_eq.
  destruct (getIteration_finish strict ks n i c cr s) as [Habort|(cr' & s2 & Hfin)];
    [congruence|].
  rewrite Hit in Hfin. unfold finishIteration in Hfin.
  destruct (both_empty s2); [done|].
  destruct (bool_decide _ && strict) eqn:Hb; [|done].
  simplify_eq. split; [|done]. by apply andb_true_iff in Hb as [_ ->].
Qed.

Lemma getAllReadClients_raised serviceOverride (rs : ReadServices C A) j what j1 :
  getAllReadClients serviceOverride rs j = (CopiesRaised what, j1) →
  serviceOverride ≠ "" ∧
  existsb (isCorrespondingService serviceOverride) (readClients_ rs) = false ∧
  isValidReadService serviceOverride (configurationAdapter_ rs) = true ∧
  createNetworkClient serviceOverride (configurationAdapter_ rs) false = Raised what ∧
  j1 = j.
Proof.
  unfold getAllReadClients. intros Hall.
  destruct (decide (serviceOverride ≠ "")) as [Hne|]; [|done].
  destruct (existsb _ _); [done|].
  destruct (isValidReadService _ _); [|done]. simpl in Hall.
  destruct (createNetworkClient _ _ _); by simplify_eq.
Qed.

(** X23. [get] throws in two ways, and in neither does it undo what it has
    done by then. It lets through what the construction of the client for a
    valid service override threw, in either mode, with the text of that
    exception and before it has called a service or touched the request and
    the result. Or it throws "Failed reading data from gorilla" after the
    turns on the snapshot, in strict mode only: the caller's [request.keys]
    holds the keys accepted so far instead of the keys asked for, and their
    answers, every one a success that a service sent for that key, are
    appended to the caller's result, in step with the keys. *)
Theorem get_throw_keeps_output
    (strict : bool) (rs : ReadServices C A) (request : GetDataRequest)
    (result0 : GetDataResult) (serviceOverride : string) (j : Journal)
    (what : string) (s : ReadState) :
  get strict rs request result0 serviceOverride j = Some (Thrown what s) →
  (serviceOverride ≠ "" ∧
   isValidReadService serviceOverride (configurationAdapter_ rs) = true ∧
   createNetworkClient serviceOverride (configurationAdapter_ rs) false = Raised what ∧
   calls s = [] ∧ request_keys (vecs s) = keys request ∧ result s = result0 ∧
   rworld s = j_world j)
  ∨ ((∃ readClientCopies j1,
        getAllReadClients serviceOverride rs j = (Copies readClientCopies, j1)) ∧
     strict = true ∧ what = "Failed reading data from gorilla" ∧
     ∃ R, results (result s) = results result0 ++ R ∧
          Forall2 (λ k r, answered (calls s) k r ∧ successful r) (request_keys (vecs s)) R).
Proof.
  intros Hget.
  apply get_Some in Hget as [(copies & j1 & Hall & Ho)|(what' & j1 & Hall & Ho)].
  - right. split; [by exists copies, j1|].
    symmetry in Ho. unfold getFromCopies in Ho.
    destruct (getLoop_Thrown _ _ _ _ _ _ _ _ _ Ho) as [-> ->].
    split; [done|]. split; [done|].
    destruct (getLoop_grows _ _ _ _ _ _ _ _ (or_intror (ex_intro _ _ Ho)))
      as (K & R & cs & Hk & Hr & Hc & Hallk & _).
    simpl in Hk, Hr, Hc. exists R. rewrite Hk, Hc. done.
  - left. simplify_eq.
    apply getAllReadClients_raised in Hall as (Hne & _ & Hvalid & Hraised & ->).
    done.
Qed.
End ReadThrows.

Lemma get_throw_keeps_output_witness :
  ∃ s, get true (readersOf [loadingReader]) twoKeys emptyResult "" journal0
       = Some (Thrown "Failed reading data from gorilla" s) ∧
    request_keys (vecs s) = [k2] ∧
    ∃ R, results (result s) = results emptyResult ++ R ∧
         Forall2 (λ k r, answered (calls s) k r ∧ successful r) (request_keys (vecs s)) R.
Proof.
  destruct (get true (readersOf [loadingReader]) twoKeys emptyResult "" journal0)
    as [[s|what s|]|] eqn:Hget; [vm_compute in Hget; discriminate | |
                                 vm_compute in Hget; discriminate..].
  assert (Hwhat : what = "Failed reading data from gorilla")
    by (vm_compute in Hget; congruence).
  subst what. exists s. split; [reflexivity|].
  split; [vm_compute in Hget; by simplify_eq|].
  destruct (get_throw_keeps_output true (readersOf [loadingReader]) twoKeys emptyResult
              "" journal0 _ s Hget) as [(Hne & _)|(_ & _ & _ & HR)];
    [by destruct Hne | exact HR].
Defined.

Section ReadFailovers.
Context {C A : Type} `{!BeringeiNetworkClient C}
  `{!BeringeiConfigurationAdapterIf A} `{!NetworkClientSetup C A}.

(** X24. The fail-overs of [get] are all on record. The turns of a read are
    told from the answers: one for each read client of the snapshot, in order,
    as long as the turn before left keys. When [get] returns or throws after
    them, its calls are the calls of these turns, each turn beginning with a
    call to the service of its read client, the log has got one fail-over
    line for every turn but the first, naming the services of these turns in
    order, and the read-failover statistic was recorded once for each of
    them; the first read client is never logged, and whatever the services
    answer adds no fail-over line. *)
Theorem get_failovers
    (strict : bool) (rs : ReadServices C A) (request : GetDataRequest)
    (result0 : GetDataResult) (serviceOverride : string) (j j1 : Journal)
    (readClientCopies : list C) (s : ReadState) :
  let T := readTurns strict (buildKeyShards (keys request)) readClientCopies request in
  getAllReadClients serviceOverride rs j = (Copies readClientCopies, j1) →
  (get strict rs request result0 serviceOverride j = Some (Returned s)
   ∨ ∃ what, get strict rs request result0 serviceOverride j = Some (Thrown what s)) →
  calls s = T ≫= turn_calls ∘ snd ∧
  T.*1 `prefix_of` readClientCopies ∧
  (readClientCopies ≠ [] → T ≠ []) ∧
  Forall (λ ct, ∃ call rest, turn_calls ct.2 = call :: rest ∧
                  call_service call = getServiceName ct.1 ∧ (length rest ≤ 1)%nat) T ∧
  failovers (rworld s) = failovers (j_world j) ++ (getServiceName <$> tail T.*1) ∧
  failoverCount (rworld s) = (failoverCount (j_world j) + (length T - 1))%nat.
Proof.
  intros T Hall Hget.
  pose proof (get_ended_on _ _ _ _ _ _ _ _ _ Hall Hget) as Hres.
  destruct (getFromCopies_turns _ _ _ _ _ _ Hres) as (Hcalls & Hf & Hn).
  pose proof (readTurns_shape strict (buildKeyShards (keys request)) readClientCopies
                request) as (Hpre & Hne & _ & Hshape).
  destruct (getAllReadClients_world _ _ _ _ _ Hall) as (Hlogs & Hcount & _).
  split; [done|]. split; [done|]. split; [done|]. split; [done|].
  split; [|by rewrite <- Hcount].
  fold T in Hf. rewrite Hf. unfold failovers. by rewrite Hlogs.
Qed.
End ReadFailovers.

Lemma get_failovers_witness :
  ∃ s, get false (readersOf [readerA; readerB]) twoKeys emptyResult "" journal0
       = Some (Returned s) ∧
    (call_service <$> calls s) = ["A"; "A"; "B"] ∧
    failovers (rworld s) = ["B"] ∧
    failoverCount (rworld s) = 1%nat.
Proof.
  destruct (get false (readersOf [readerA; readerB]) twoKeys emptyResult "" journal0)
    as [[s|what s|]|] eqn:Hget; [|vm_compute in Hget; discriminate..].
  exists s. split; [reflexivity|].
  destruct (get_failovers false (readersOf [readerA; readerB]) twoKeys emptyResult ""
              journal0 journal0 [readerA; readerB] s eq_refl (or_introl Hget))
    as (Hcalls & _ & _ & _ & Hf & Hn).
  split; [rewrite Hcalls; reflexivity|].
  split; [rewrite Hf; reflexivity | rewrite Hn; reflexivity].
Defined.

(** ** Read services and set-up *)

Section ReadServiceProperties.
Context {C Q A : Type} `{!BeringeiNetworkClient C} `{!RequestBatchingQueue Q}
  `{!BeringeiConfigurationAdapterIf A} `{!NetworkClientSetup C A} `{!WriteQueueSetup Q}.

Lemma initLoop_cons (a : A) service rest (clients : list C) j :
  initLoop a (service :: rest) clients j
  = match usable a service with
    | Some c => initLoop a rest (clients ++ [c]) j
    | None =>
        initLoop a rest clients
          (badReadService
             (match failure (C := C) a service with
              | Some what => logError what j
              | None => j
              end))
    end.
Proof.
  cbn [initLoop]. unfold usable, failure.
  destruct (isValidReadService service a); [|done].
  by destruct (createNetworkClient service a false).
Qed.

Lemma usable_failure (a : A) service c :
  usable a service = Some c → failure (C := C) a service = None.
Proof.
  unfold usable, failure. destruct (isValidReadService service a); [|done].
  by destruct (createNetworkClient service a false).
Qed.

Lemma initLoop_spec (a : A) services :
  ∀ (clients : list C) j,
    let made := omap (usable a) services in
    let r := initLoop a services clients j in
    r.1 = clients ++ made ∧
    stats (j_world r.2)
    = stats (j_world j)
      ++ replicate (length services - length made) (kBadReadServices, Count 1) ∧
    logs (j_world r.2) = logs (j_world j) ∧
    clock_us (j_world r.2) = clock_us (j_world j) ∧
    j_errors r.2 = j_errors j ++ omap (failure (C := C) a) services ∧
    (length made ≤ length services)%nat.
Proof.
  induction services as [|service rest IH]; intros clients j.
  - simpl. by rewrite !app_nil_r.
  - cbv zeta. rewrite initLoop_cons. cbn [omap list_omap length].
    destruct (usable a service) as [c|] eqn:Hu.
    + rewrite (usable_failure a service c Hu).
      destruct (IH (clients ++ [c]) j) as (H1 & H2 & H3 & H4 & H5 & H6).
      rewrite H1, H2, H3, H4, H5, <- app_assoc. cbn [length].
      repeat split; try done. lia.
    + set (j0 := match failure a service with Some what => logError what j | None => j end).
      destruct (IH clients (badReadService j0)) as (H1 & H2 & H3 & H4 & H5 & H6).
      rewrite H1, H2, H3, H4, H5.
      replace (S (length rest) - length (omap (usable a) rest))%nat
        with (S (length rest - length (omap (usable (C := C) a) rest)))%nat by lia.
      assert (Hj0 : stats (j_world j0) = stats (j_world j) ∧ logs (j_world j0) = logs (j_world j)
                    ∧ clock_us (j_world j0) = clock_us (j_world j)
                    ∧ j_errors j0 = j_errors j
                        ++ match failure (C := C) a service with
                           | Some what => [what]
                           | None => []
                           end).
      { unfold j0. destruct (failure a service); simpl; by rewrite ?app_nil_r. }
      destruct Hj0 as (Hs & Hl & Hc & He). simpl. rewrite Hs, Hl, Hc, He, <- !app_assoc.
      repeat split; try done; [|lia].
      by destruct (failure a service).
Qed.

Lemma updateReadServices_unchanged (rs : ReadServices C A) j :
  getReadServices (configurationAdapter_ rs) = []
  ∨ getReadServices (configurationAdapter_ rs) = currentReadServices_ rs →
  updateReadServices rs j = (None, rs, j).
Proof.
  intros Hcase. unfold updateReadServices, selectReadServices.
  destruct (decide _) as [[Hlen Hne]|_]; [|done].
  destruct Hcase as [Hnil|Heq]; [by rewrite Hnil in Hlen | done].
Qed.

Lemma updateReadServices_changed (rs : ReadServices C A) j :
  let a := configurationAdapter_ rs in
  let services := getReadServices a in
  let made := omap (usable a) services in
  let j1 := (initLoop a services [] j).2 in
  services ≠ [] → services ≠ currentReadServices_ rs →
  updateReadServices rs j
  = match made with
    | [] =>
        match createNetworkClient (getNearestReadService a) a false with
        | Made c =>
            (None,
             mkReadServices a [c] services (getMaxNumShards [c])
               (readServicesUpdateScheduler_ rs), j1)
        | Raised what => (Some what, rs, j1)
        end
    | _ :: _ =>
        (None,
         mkReadServices a made services (getMaxNumShards made)
           (readServicesUpdateScheduler_ rs), j1)
    end.
Proof.
  intros a services made j1 Hne Hdiff.
  unfold updateReadServices, selectReadServices, initBeringeiNetworkClients.
  fold a services.
  destruct (decide _) as [_|Hno].
  2: { exfalso. apply Hno. split; [by destruct services | done]. }
  destruct (initLoop_spec a services [] j) as (Hmade & _).
  fold made in Hmade. simpl in Hmade. subst j1.
  destruct (initLoop a services [] j) as [clients1 j1] eqn:Hloop.
  simpl in *. subst clients1.
  destruct made as [|c made']; simpl; [|done].
  by destruct (createNetworkClient _ _ _).
Qed.

Lemma updateReadServices_Some (rs rs' : ReadServices C A) (j j' : Journal) :
  getReadServices (configurationAdapter_ rs) ≠ [] →
  getReadServices (configurationAdapter_ rs) ≠ currentReadServices_ rs →
  updateReadServices rs j = (None, rs', j') →
  currentReadServices_ rs' = getReadServices (configurationAdapter_ rs) ∧
  configurationAdapter_ rs' = configurationAdapter_ rs ∧
  readClients_ rs' ≠ [].
Proof.
  intros Hne Hdiff Hupd.
  rewrite (updateReadServices_changed rs j Hne Hdiff) in Hupd.
  destruct (omap _ _) as [|c made'].
  - destruct (createNetworkClient _ _ _) as [c|what]; [|done]. by simplify_eq.
  - by simplify_eq.
Qed.

(** X17. A refresh of the read services that finds a non-empty list of
    services that differs from the current one, and does not throw: the list
    becomes the current one; the read clients are replaced by the clients for
    the services of the list that are valid and whose construction does not
    throw, in the order of the list, or, when there is none, by the one client
    for the nearest service, so the new list of read clients is never empty;
    the bad-read-services statistic is incremented once for every service of
    the list that gave no client, and the exception texts are logged. *)
Theorem updateReadServices_refreshes (rs rs' : ReadServices C A) (j j' : Journal) :
  let a := configurationAdapter_ rs in
  let services := getReadServices a in
  let made := omap (usable a) services in
  services ≠ [] → services ≠ currentReadServices_ rs →
  updateReadServices rs j = (None, rs', j') →
  currentReadServices_ rs' = services ∧
  configurationAdapter_ rs' = a ∧
  readClients_ rs' ≠ [] ∧
  (if vec_empty made
   then ∃ c, createNetworkClient (getNearestReadService a) a false = Made c ∧
             readClients_ rs' = [c]
   else readClients_ rs' = made) ∧
  maxNumShards_ rs' = getMaxNumShards (readClients_ rs') ∧
  stats (j_world j')
  = stats (j_world j)
    ++ replicate (length services - length made) (kBadReadServices, Count 1) ∧
  j_errors j' = j_errors j ++ omap (failure (C := C) a) services.
Proof.
  intros a services made Hne Hdiff Hupd.
  rewrite (updateReadServices_changed rs j Hne Hdiff) in Hupd.
  fold a services made in Hupd.
  destruct (initLoop_spec a services [] j) as (_ & Hstats & _ & _ & Herr & _).
  fold made in Hstats.
  destruct made as [|c made'] eqn:Hmade.
  - destruct (createNetworkClient _ _ _) as [c|what] eqn:Hnear; [|done].
    simplify_eq. simpl. repeat split; try done. by exists c.
  - simplify_eq. simpl. repeat split; done.
Qed.

(** X18. A refresh that returns leaves the client in a state where the next
    refresh, with the adapter answering as before, changes nothing: not the
    read clients, not the statistics. And a refresh that finds no services, or
    the current list of services, changes nothing in the first place. *)
Theorem updateReadServices_idempotent (rs rs' : ReadServices C A) (j j' : Journal) :
  updateReadServices rs j = (None, rs', j') →
  updateReadServices rs' j' = (None, rs', j') ∧
  (getReadServices (configurationAdapter_ rs) = []
   ∨ getReadServices (configurationAdapter_ rs) = currentReadServices_ rs →
   rs' = rs ∧ j' = j).
Proof.
  intros Hupd.
  destruct (decide (getReadServices (configurationAdapter_ rs) = []
                    ∨ getReadServices (configurationAdapter_ rs) = currentReadServices_ rs))
    as [Hsame|Hchanged].
  - rewrite (updateReadServices_unchanged rs j Hsame) in Hupd. simplify_eq.
    split; [by apply updateReadServices_unchanged | done].
  - split; [|done].
    assert (getReadServices (configurationAdapter_ rs) ≠ []) as Hne by tauto.
    assert (getReadServices (configurationAdapter_ rs) ≠ currentReadServices_ rs)
      as Hdiff by tauto.
    destruct (updateReadServices_Some rs rs' j j' Hne Hdiff Hupd) as (Hcur & Ha & _).
    apply updateReadServices_unchanged. right. by rewrite Ha, Hcur.
Qed.

(** X19. A refresh throws only when it has to fall back to the nearest service
    and the construction of that client throws: then no service of the list
    gave a client, every one of them was counted as a bad read service, and
    the client is as before, with its old read clients and its old current
    list, so the next refresh tries again. *)
Theorem updateReadServices_raises
    (rs rs' : ReadServices C A) (j j' : Journal) (what : string) :
  let a := configurationAdapter_ rs in
  let services := getReadServices a in
  updateReadServices rs j = (Some what, rs', j') →
  rs' = rs ∧
  services ≠ [] ∧ services ≠ currentReadServices_ rs ∧
  omap (usable (C := C) a) services = [] ∧
  createNetworkClient (C := C) (getNearestReadService a) a false = Raised what ∧
  stats (j_world j')
  = stats (j_world j) ++ replicate (length services) (kBadReadServices, Count 1).
Proof.
  intros a services Hupd.
  destruct (decide (services = [] ∨ services = currentReadServices_ rs)) as [Hsame|Hchanged].
  { by rewrite (updateReadServices_unchanged rs j Hsame) in Hupd. }
  assert (services ≠ []) as Hne by tauto.
  assert (services ≠ currentReadServices_ rs) as Hdiff by tauto.
  rewrite (updateReadServices_changed rs j Hne Hdiff) in Hupd.
  fold a services in Hupd.
  destruct (initLoop_spec a services [] j) as (_ & Hstats & _).
  destruct (omap (usable a) services) as [|c made'] eqn:Hmade; [|done].
  destruct (createNetworkClient _ _ _) as [c|what'] eqn:Hnear; [done|].
  simplify_eq. simpl in Hstats. rewrite Nat.sub_0_r in Hstats. done.
Qed.

(** X20. After a refresh that returned and either replaced the read clients or
    found some in place, a read gets a snapshot of read clients that is not
    empty, whatever the service override is, as long as no read client
    corresponds to it: without an override and with an override that is not a
    valid read service it gets all the read clients, the latter counted as a
    bad read service; with a valid override it gets the one client made for
    it, or the exception of its construction. *)
Theorem getAllReadClients_after_update
    (rs rs' : ReadServices C A) (j j' : Journal) (serviceOverride : string) :
  let a := configurationAdapter_ rs' in
  updateReadServices rs j = (None, rs', j') →
  getReadServices (configurationAdapter_ rs) ≠ [] →
  readClients_ rs ≠ []
  ∨ getReadServices (configurationAdapter_ rs) ≠ currentReadServices_ rs →
  existsb (isCorrespondingService serviceOverride) (readClients_ rs') = false →
  readClients_ rs' ≠ [] ∧
  getAllReadClients serviceOverride rs' j'
  = if decide (serviceOverride = "") then (Copies (readClients_ rs'), j')
    else if isValidReadService serviceOverride a then
      match createNetworkClient serviceOverride a false with
      | Made c => (Copies [c], j')
      | Raised what => (CopiesRaised what, j')
      end
    else (Copies (readClients_ rs'), badReadService j').
Proof.
  intros a Hupd Hne Hsome Hnone.
  assert (readClients_ rs' ≠ []) as Hclients.
  { destruct (decide (getReadServices (configurationAdapter_ rs) = currentReadServices_ rs))
      as [Hsame|Hdiff].
    - rewrite (updateReadServices_unchanged rs j (or_intror Hsame)) in Hupd.
      simplify_eq. by destruct Hsome.
    - by destruct (updateReadServices_Some rs rs' j j' Hne Hdiff Hupd) as (_ & _ & ?). }
  split; [done|].
  unfold getAllReadClients. rewrite Hnone. fold a.
  destruct (decide (serviceOverride = "")) as [->|Hov].
  - by destruct (decide ("" ≠ "")).
  - destruct (decide (serviceOverride ≠ "")); [|done].
    by destruct (isValidReadService serviceOverride a).
Qed.
End ReadServiceProperties.

Section InitProperties.
Context {C Q A : Type} `{!BeringeiNetworkClient C} `{!RequestBatchingQueue Q}
  `{!BeringeiConfigurationAdapterIf A} `{!NetworkClientSetup C A} `{!WriteQueueSetup Q}.

Lemma BeringeiClientImpl_new_counter_ok flags (a : A) w :
  counter_ok (BeringeiClientImpl_new (C := C) (Q := Q) flags a w).1.
Proof. split; [reflexivity | simpl; lia]. Qed.

Lemma finishInitialize_counter_ok flags n (st : BeringeiClientImpl C Q) :
  counter_ok st → counter_ok (finishInitialize flags n st).
Proof.
  intros Hok. unfold finishInitialize, with_world_of.
  by destruct (startWriterThreads_counter_ok flags n st Hok).
Qed.

(** X21. [initializeTestClients] on a client fresh from the constructor, where
    the queue capacity can be divided by the ratio flag: the readers become
    the read clients and every writer becomes a write client with a new queue,
    in order; every write client gets as many writer threads as there are
    writers, and the retry threads are started, unless there is no writer,
    where no thread is started at all; the counter of retry-queued points and
    the empty retry queue agree. *)
Theorem initializeTestClients_ready
    (flags : Flags) (sflags : SetupFlags) (queueCapacity : Z) (readers writers : list C)
    (a : A) (w : World) (quotient : Z) :
  let fresh := BeringeiClientImpl_new (Q := Q) flags a w in
  let effective := setQueueCapacity sflags queueCapacity in
  int_div effective (gorilla_queue_capacity_size_ratio sflags) = Some quotient →
  ∃ st rs,
    initializeTestClients flags sflags queueCapacity readers writers fresh.1 fresh.2
    = Some (st, rs) ∧
    readClients_ rs = readers ∧
    writeClients_ st
    = (λ c, mkWriteClient c (newQueue effective (Z.max quotient kMinQueueSize))) <$> writers ∧
    writers_ st
    = flat_map (λ j, replicate (length writers) (WriterThread j)) (seq 0 (length writers)) ∧
    length (writers_ st) = (length writers * length writers)%nat ∧
    retryWriters_ st
    = (if vec_empty writers then []
       else replicate (gorilla_write_retry_threads flags) RetryThread) ∧
    counter_ok st.
Proof.
  intros fresh effective Hdiv. unfold initializeTestClients. fold effective.
  rewrite Hdiv. simpl. eexists _, _. split; [reflexivity|]. simpl.
  set (threads := setNumWriterThreads sflags
                    (if vec_empty writers then kNoWriterThreads
                     else Z.of_nat (length writers))).
  assert (Hthreads : threads = Z.of_nat (length writers)).
  { unfold threads, setNumWriterThreads, kNoWriterThreads.
    destruct writers as [|c writers']; [done|]. cbn [vec_empty].
    repeat case_decide; try done; lia. }
  match goal with |- context [startWriterThreads flags threads ?st0] =>
    destruct (startWriterThreads_fresh flags threads st0 eq_refl eq_refl)
      as (Hwc & Hw & Hlen & Hr & Hrq & Hnum & _) end.
  simpl in Hwc, Hw, Hlen, Hr, Hrq, Hnum.
  assert (Hok : counter_ok (startWriterThreads flags threads
                  (mkImpl ((λ c, mkWriteClient c
                              (newQueue effective (Z.max quotient kMinQueueSize))) <$> writers)
                     [] [] (retryQueue_ fresh.1) 0 w))).
  { apply startWriterThreads_counter_ok. split; [reflexivity | simpl; lia]. }
  rewrite Hwc, Hw, Hr, length_fmap.
  split; [done|]. split; [done|].
  split; [by rewrite Hthreads, Nat2Z.id|].
  split; [by rewrite length_flat_map_replicate, length_seq, Hthreads, Nat2Z.id|].
  split; [|exact Hok].
  destruct writers as [|c writers']; [done|]. cbn [vec_empty].
  destruct (decide _) as [_|Hno]; [done|].
  rewrite Hthreads in Hno. cbn [length] in Hno. lia.
Qed.

Lemma addWriteClients_spec (a : A) shadow queueCapacity queueSize services :
  ∀ (wcs wcs' : list (WriteClient C Q)),
    addWriteClients a shadow queueCapacity queueSize services wcs = (None, wcs') →
    ∃ cs, wcs' = wcs ++ ((λ c, mkWriteClient c (newQueue queueCapacity queueSize)) <$> cs) ∧
          Forall2 (λ service c, createNetworkClient service a shadow = Made c) services cs.
Proof.
  induction services as [|service rest IH]; intros wcs wcs' Hadd; simpl in Hadd.
  - simplify_eq. exists []. by rewrite app_nil_r.
  - destruct (createNetworkClient service a shadow) as [c|what] eqn:Hc; [|done].
    destruct (IH _ _ Hadd) as (cs & -> & Hall).
    exists (c :: cs). rewrite <- app_assoc. split; [done|]. by constructor.
Qed.

Lemma finishInitialize_threads flags n (st : BeringeiClientImpl C Q) :
  writers_ st = [] → retryWriters_ st = [] →
  let st' := finishInitialize flags n st in
  writeClients_ st' = writeClients_ st ∧
  writers_ st'
  = flat_map (λ j, replicate (Z.to_nat n) (WriterThread j))
      (seq 0 (length (writeClients_ st))) ∧
  length (writers_ st') = (Z.to_nat n * length (writeClients_ st))%nat ∧
  retryWriters_ st'
  = (if decide (n > 0) then replicate (gorilla_write_retry_threads flags) RetryThread
     else []) ∧
  retryQueue_ st' = retryQueue_ st ∧
  numRetryQueuedDataPoints_ st' = numRetryQueuedDataPoints_ st.
Proof.
  intros Hw Hr. unfold finishInitialize, with_world_of. simpl.
  destruct (startWriterThreads_fresh flags n st Hw Hr) as (H1 & H2 & H3 & H4 & H5 & H6 & _).
  done.
Qed.

Lemma initialize_unstarted
    (flags : Flags) (sflags : SetupFlags)
    (queueCapacity writerThreads readServicesUpdateInterval : Z)
    (errors errors' : list string)
    (st0 st : BeringeiClientImpl C Q) (rs0 rs : ReadServices C A) :
  let a := configurationAdapter_ rs0 in
  let threads := setNumWriterThreads sflags writerThreads in
  writeClients_ st0 = [] → writers_ st0 = [] → retryWriters_ st0 = [] →
  readClients_ rs0 = [] → readServicesUpdateScheduler_ rs0 = None →
  counter_ok st0 →
  initialize flags sflags queueCapacity writerThreads readServicesUpdateInterval
    st0 rs0 errors = Ready st rs errors' →
  counter_ok st ∧
  if decide (threads = 0) then
    writeClients_ st = [] ∧ writers_ st = [] ∧ retryWriters_ st = [] ∧
    (∀ fuel, flushQueue fuel flags st = None) ∧
    (∀ values, values ≠ [] → (putDataPoints values st).1.1 = false) ∧
    readServicesUpdateScheduler_ rs
    = (if decide (readServicesUpdateInterval ≠ kNoReadServicesUpdates)
       then Some readServicesUpdateInterval else None)
  else
    readClients_ rs = [] ∧ readServicesUpdateScheduler_ rs = None ∧
    (∃ cs shadows,
       client <$> writeClients_ st = cs ++ shadows ∧
       Forall2 (λ service c, createNetworkClient service a false = Made c)
         (getWriteServices a) cs ∧
       Forall2 (λ service c, createNetworkClient service a true = Made c)
         (getShadowServices a) shadows ∧
       maxNumShards_ rs = getMaxNumShards cs) ∧
    writers_ st
    = flat_map (λ j, replicate (Z.to_nat threads) (WriterThread j))
        (seq 0 (length (writeClients_ st))) ∧
    length (writers_ st) = (Z.to_nat threads * length (writeClients_ st))%nat ∧
    retryWriters_ st
    = (if decide (threads > 0)
       then replicate (gorilla_write_retry_threads flags) RetryThread else []).
Proof.
  intros a threads Hwc0 Hw0 Hr0 Hrc0 Hsched0 Hok0 Hinit.
  unfold initialize in Hinit. fold threads a in Hinit.
  destruct (int_div _ _) as [quotient|]; [|done].
  destruct (decide (threads = 0)) as [Hzero|Hnonzero].
  - destruct (updateReadServices rs0 _) as [[[what|] rs1] j1] eqn:Hupd; [done|].
    remember (with_world_of (j_world j1) st0) as st1 eqn:Hst1.
    assert (writeClients_ st1 = [] ∧ writers_ st1 = [] ∧ retryWriters_ st1 = []
            ∧ counter_ok st1) as (Hwc1 & Hw1 & Hr1 & Hok1) by (by subst st1).
    injection Hinit as Hst Hrs Herr. subst st.
    destruct (finishInitialize_threads flags threads st1 Hw1 Hr1)
      as (Hwc & _ & Hlen & Hr & _).
    split; [by apply finishInitialize_counter_ok|].
    assert (Hw : writers_ (finishInitialize flags threads st1) = []).
    { apply length_zero_iff_nil. rewrite Hlen, Hzero. reflexivity. }
    rewrite Hwc, Hw, Hr, Hwc1.
    split; [done|]. split; [done|]. split.
    { destruct (decide (threads > 0)) as [Hpos|_]; [rewrite Hzero in Hpos; lia | done]. }
    split. { intros fuel. unfold flushQueue. by rewrite Hwc, Hwc1. }
    split.
    { intros values Hne. unfold putDataPoints. cbv zeta.
      destruct (decide (Z.of_nat (length values) = 0)) as [Hz|_];
        [destruct values; [done | cbn [length] in Hz; lia]|].
      rewrite Hwc, Hwc1. done. }
    subst rs. destruct (decide (readServicesUpdateInterval ≠ _)); [done|].
    unfold updateReadServices in Hupd.
    destruct (decide _); [|by simplify_eq].
    destruct (initBeringeiNetworkClients _ _ _ _) as [[cl|what] j2]; by simplify_eq.
  - rewrite Hwc0 in Hinit.
    destruct (addWriteClients a false _ _ (getWriteServices a) [])
      as [[what|] wcs] eqn:Hadd1; [done|].
    destruct (addWriteClients a true _ _ (getShadowServices a) wcs)
      as [[what|] wcs'] eqn:Hadd2; [done|].
    remember (with_writeClients wcs' st0) as st1 eqn:Hst1.
    assert (writeClients_ st1 = wcs' ∧ writers_ st1 = [] ∧ retryWriters_ st1 = []
            ∧ counter_ok st1) as (Hwc1 & Hw1 & Hr1 & Hok1) by (by subst st1).
    injection Hinit as Hst Hrs Herr. subst st rs.
    destruct (addWriteClients_spec _ _ _ _ _ _ _ Hadd1) as (cs & Hwcs & Hall1).
    destruct (addWriteClients_spec _ _ _ _ _ _ _ Hadd2) as (shadows & Hwcs' & Hall2).
    destruct (finishInitialize_threads flags threads st1 Hw1 Hr1)
      as (Hwc & Hws & Hlen & Hr & _).
    simpl in Hwcs. subst wcs.
    split; [by apply finishInitialize_counter_ok|].
    rewrite Hwc, Hws, Hr, Hwc1, length_flat_map_replicate, length_seq.
    cbn [readClients_ readServicesUpdateScheduler_ maxNumShards_].
    split; [done|]. split; [done|]. split; [|done].
    exists cs, shadows.
    rewrite Hwcs', fmap_app, <- !list_fmap_compose.
    rewrite (list_fmap_ext (client ∘ _) id cs) by done.
    rewrite (list_fmap_ext (client ∘ _) id shadows) by done.
    rewrite !list_fmap_id. done.
Qed.

(** X22. [initialize] on a client fresh from the constructor makes a reader or
    a writer, never both. With zero writer threads (after the default of the
    flag is applied, or asked for with [kNoWriterThreads]) the client has no
    write client and no thread, so [flushQueue] is undefined on it and
    [putDataPoints] returns false for every batch with points; the refresh of
    the read services is scheduled unless the interval is
    [kNoReadServicesUpdates]. Otherwise the client has no read client; its
    write clients are the clients made for the write services followed by the
    clients made, with the shadow flag, for the shadow services, and the
    number of shards is taken from the former; every write client gets the
    given number of writer threads, its own, in the order of the write
    clients, and the retry threads are started, but with a negative number no
    thread is started at all. Either way the counter
    of retry-queued points and the retry queue agree. *)
Theorem initialize_reader_or_writer
    (flags : Flags) (sflags : SetupFlags)
    (queueCapacity writerThreads readServicesUpdateInterval : Z)
    (a : A) (w : World) (errors errors' : list string)
    (st : BeringeiClientImpl C Q) (rs : ReadServices C A) :
  let fresh := BeringeiClientImpl_new (Q := Q) flags a w in
  let threads := setNumWriterThreads sflags writerThreads in
  initialize flags sflags queueCapacity writerThreads readServicesUpdateInterval
    fresh.1 fresh.2 errors = Ready st rs errors' →
  counter_ok st ∧
  if decide (threads = 0) then
    writeClients_ st = [] ∧ writers_ st = [] ∧ retryWriters_ st = [] ∧
    (∀ fuel, flushQueue fuel flags st = None) ∧
    (∀ values, values ≠ [] → (putDataPoints values st).1.1 = false) ∧
    readServicesUpdateScheduler_ rs
    = (if decide (readServicesUpdateInterval ≠ kNoReadServicesUpdates)
       then Some readServicesUpdateInterval else None)
  else
    readClients_ rs = [] ∧ readServicesUpdateScheduler_ rs = None ∧
    (∃ cs shadows,
       client <$> writeClients_ st = cs ++ shadows ∧
       Forall2 (λ service c, createNetworkClient service a false = Made c)
         (getWriteServices a) cs ∧
       Forall2 (λ service c, createNetworkClient service a true = Made c)
         (getShadowServices a) shadows ∧
       maxNumShards_ rs = getMaxNumShards cs) ∧
    writers_ st
    = flat_map (λ j, replicate (Z.to_nat threads) (WriterThread j))
        (seq 0 (length (writeClients_ st))) ∧
    length (writers_ st) = (Z.to_nat threads * length (writeClients_ st))%nat ∧
    retryWriters_ st
    = (if decide (threads > 0)
       then replicate (gorilla_write_retry_threads flags) RetryThread else []).
Proof.
  intros fresh threads Hinit.
  apply (initialize_unstarted flags sflags queueCapacity writerThreads
           readServicesUpdateInterval errors errors' fresh.1 st fresh.2 rs);
    try done.
  apply BeringeiClientImpl_new_counter_ok.
Qed.
End InitProperties.

Lemma updateReadServices_refreshes_witness :
  let r := updateReadServices (services0 adapter3) journal0 in
  r.1.1 = None ∧
  currentReadServices_ r.1.2 = ["east"; "bogus"; "west"; "north"] ∧
  mock_name <$> readClients_ r.1.2 = ["east"; "north"] ∧
  stats (j_world r.2)
  = [("gorilla_client.bad_read_services", Count 1);
     ("gorilla_client.bad_read_services", Count 1)] ∧
  j_errors r.2 = ["no route to service"].
Proof.
  intros r. split; [reflexivity|].
  destruct (updateReadServices_refreshes (services0 adapter3) r.1.2 journal0 r.2)
    as (Hcur & _ & _ & Hclients & _ & Hstats & Herr);
    [discriminate | discriminate | reflexivity |].
  split; [exact Hcur|]. split; [reflexivity|]. split; [exact Hstats | exact Herr].
Defined.

Lemma updateReadServices_idempotent_witness :
  let r := updateReadServices (services0 adapter3) journal0 in
  r.1.1 = None ∧ updateReadServices r.1.2 r.2 = (None, r.1.2, r.2).
Proof.
  intros r. split; [reflexivity|].
  apply (updateReadServices_idempotent (services0 adapter3) r.1.2 journal0 r.2).
  reflexivity.
Defined.

Lemma updateReadServices_raises_witness :
  let r := updateReadServices (services0 adapterDown) journal0 in
  r.1 = (Some "no route to service", services0 adapterDown) ∧
  stats (j_world r.2) = [("gorilla_client.bad_read_services", Count 1)].
Proof.
  intros r. split; [reflexivity|].
  destruct (updateReadServices_raises (services0 adapterDown) r.1.2 journal0 r.2
              "no route to service")
    as (_ & _ & _ & _ & _ & Hstats); [reflexivity|].
  exact Hstats.
Defined.

Lemma getAllReadClients_after_update_witness :
  let r := updateReadServices (services0 adapter3) journal0 in
  r.1.1 = None ∧
  readClients_ r.1.2 ≠ [] ∧
  getAllReadClients "bogus" r.1.2 r.2 = (Copies (readClients_ r.1.2), badReadService r.2).
Proof.
  intros r. split; [reflexivity|].
  destruct (getAllReadClients_after_update (services0 adapter3) r.1.2 journal0 r.2 "bogus")
    as [Hne Hget]; [reflexivity | discriminate | right; discriminate | reflexivity |].
  split; [exact Hne|]. rewrite Hget. reflexivity.
Defined.

Lemma initializeTestClients_ready_witness :
  ∃ st rs,
    initializeTestClients (Q := BoundedQueue) defaultFlags defaultSetupFlags 1000
      [readerA] [mock_writer "svc1" []; mock_writer "svc2" []]
      (BeringeiClientImpl_new defaultFlags adapter3 world0).1
      (BeringeiClientImpl_new (Q := BoundedQueue) defaultFlags adapter3 world0).2
    = Some (st, rs) ∧
    length (writers_ st) = 4%nat ∧
    retryWriters_ st = replicate 4 RetryThread ∧
    counter_ok st.
Proof.
  destruct (initializeTestClients_ready (Q := BoundedQueue) defaultFlags defaultSetupFlags
              1000 [readerA] [mock_writer "svc1" []; mock_writer "svc2" []] adapter3 world0 2
              eq_refl)
    as (st & rs & Hinit & _ & _ & _ & Hlen & Hretry & Hok).
  exists st, rs. split; [exact Hinit|]. split; [exact Hlen|]. split; [exact Hretry | exact Hok].
Defined.

Lemma initialize_reader_or_writer_witness :
  ∃ st rs errors',
    writerOf adapter3 = Ready st rs errors' ∧
    readClients_ rs = [] ∧
    mock_name ∘ client <$> writeClients_ st = ["w1"; "shadow1"] ∧
    length (writers_ st) = 4%nat ∧
    retryWriters_ st = replicate 4 RetryThread.
Proof.
  destruct (writerOf adapter3) as [st rs errors'|what st rs errors'|] eqn:Hinit;
    [|vm_compute in Hinit; discriminate..].
  exists st, rs, errors'. split; [reflexivity|].
  destruct (initialize_reader_or_writer (Q := BoundedQueue) defaultFlags defaultSetupFlags
              1000 2 15 adapter3 world0 [] errors' st rs Hinit)
    as (_ & Hrc & _ & _ & Hlen & Hretry).
  split; [exact Hrc|].
  vm_compute in Hinit. injection Hinit as <- <- <-.
  split; [reflexivity|]. split; [reflexivity | reflexivity].
Defined.

Section InitUndefinedness.
Context {C Q A : Type} `{!BeringeiNetworkClient C} `{!RequestBatchingQueue Q}
  `{!BeringeiConfigurationAdapterIf A} `{!NetworkClientSetup C A} `{!WriteQueueSetup Q}.

Lemma int_div_None a b : int_div a b = None ↔ b = 0 ∨ (a = - 2 ^ 31 ∧ b = -1).
Proof. unfold int_div. by destruct (decide _). Qed.

(** X25. Both initialisers divide the queue capacity by the flag
    [gorilla_queue_capacity_size_ratio] without a guard, and this is the only
    thing in them that can be undefined: [initialize] and
    [initializeTestClients] are undefined exactly when the flag is zero (or
    the quotient overflows, capacity [INT_MIN] by ratio -1), whatever the
    other arguments and the state of the client are. *)
Theorem initialize_undefined_iff
    (flags : Flags) (sflags : SetupFlags)
    (queueCapacity writerThreads readServicesUpdateInterval : Z)
    (readers writers : list C)
    (st : BeringeiClientImpl C Q) (rs : ReadServices C A) (errors : list string) :
  let effective := setQueueCapacity sflags queueCapacity in
  let ratio := gorilla_queue_capacity_size_ratio sflags in
  (initialize flags sflags queueCapacity writerThreads readServicesUpdateInterval
     st rs errors = InitUndefined
   ↔ ratio = 0 ∨ (effective = - 2 ^ 31 ∧ ratio = -1)) ∧
  (initializeTestClients flags sflags queueCapacity readers writers st rs = None
   ↔ ratio = 0 ∨ (effective = - 2 ^ 31 ∧ ratio = -1)).
Proof.
  intros effective ratio. rewrite <- !int_div_None. split.
  - unfold initialize. fold effective ratio.
    destruct (int_div effective ratio) as [quotient|]; [|done].
    split; [|done]. intros Hinit. exfalso.
    destruct (decide (setNumWriterThreads sflags writerThreads = 0)).
    + by destruct (updateReadServices rs _) as [[[what|] rs1] j1].
    + destruct (addWriteClients _ false _ _ _ _) as [[what|] wcs]; [done|].
      by destruct (addWriteClients _ true _ _ _ _) as [[what|] wcs'].
  - unfold initializeTestClients. fold effective ratio.
    by destruct (int_div effective ratio) as [quotient|].
Qed.
End InitUndefinedness.
